(** * Fruit-quality analysis pipeline (backend/main.py)

    A shallow embedding of the image-to-metrics helpers of the backend:
    [compute_freshness_from_image], [spoilage_risk_label_from_ratio],
    [dry_matter_from_freshness], [estimate_weight_from_image] and
    [nutrition_from_dm], of the stub generators, of [login] and of the
    endpoint [analyze_apple] that composes them, together with the Python
    and IEEE-754 binary64 semantics they rely on.

    Python [int] is [Z]; Python [float] is the type [float] below: a NaN,
    a signed infinity, or a finite value carried by the rational number it
    denotes.  Every arithmetic operation computes the exact rational result
    and rounds it to the nearest binary64 value, ties to even, which is how
    IEEE-754 defines the operations; the results are compared with the
    Standard Library's [SpecFloat] on the values the proofs evaluate.  The
    sign of zero is not tracked: no operation of the program observes it.
    A float that enters from outside (a radius, a random draw, the argument
    of [nutrition_from_dm]) may carry any rational: the statements then
    cover more than the doubles.

    A Python exception is the result [None].

    OpenCV, NumPy's k-means front end, the image decoder, the C library's
    [pow] and [sin] and the random generators are collaborators of the
    program, not part of it; the embedding takes them, or what they draw,
    as parameters.  The clustering parameter stands for a call of
    [cv2.kmeans] that returned, with centres of three columns: a call
    that raises (fewer samples than clusters), or centres of another shape,
    on which [centers[:, 1]] raises, are not represented.  Every statement
    on the freshness analyzer or on the endpoint is therefore about a
    clustering that was returned. *)

From Stdlib Require Import ZArith QArith Qround Qpower Qabs Qreduction.
From Stdlib Require Import Lia Lqa List Bool Ascii String SpecFloat.
Import ListNotations.

Close Scope Q_scope.
Open Scope Z_scope.

(** ** IEEE-754 binary64 as rounded rationals *)

Module F64.

(** Precision, and the exponents bounding the format: values are integer
    multiples of [2^emin], finite values are below [2^emax]. *)
Definition prec : Z := 53.
Definition emax : Z := 1024.
Definition emin : Z := -1074.

Definition pow2 (e : Z) : Q := (2 ^ e)%Q.

(** Nearest integer, ties to the even one. *)
Definition round_half_even (x : Q) : Z :=
  let f := Qfloor x in
  match (x - inject_Z f ?= 1 # 2)%Q with
  | Lt => f
  | Gt => f + 1
  | Eq => if Z.even f then f else f + 1
  end.

(** [floor (log2 x)] for a positive rational. *)
Definition ilog2 (x : Q) : Z :=
  let e0 := Z.log2 (Qnum x) - Z.log2 (Zpos (Qden x)) in
  if Qle_bool (pow2 e0) x then e0 else e0 - 1.

(** Exponent of the unit in the last place of the binade of [x]
    (clamped at [emin] in the subnormal range). *)
Definition quantum (x : Q) : Z := Z.max (ilog2 x - (prec - 1)) emin.

(** Round a positive rational to a multiple of its quantum. *)
Definition rn_pos (x : Q) : Q :=
  (inject_Z (round_half_even (x / pow2 (quantum x))) * pow2 (quantum x))%Q.

Inductive float : Type :=
| NaN
| Inf (neg : bool)
| Fin (q : Q).

(** Round to nearest, ties to even, overflowing to an infinity.  Finite
    results are stored in lowest terms, so that equal floats are equal
    terms. *)
Definition RN (x : Q) : float :=
  match (x ?= 0)%Q with
  | Eq => Fin 0
  | Gt => let r := rn_pos x in
          if Qle_bool (pow2 emax) r then Inf false else Fin (Qred r)
  | Lt => let r := rn_pos (- x) in
          if Qle_bool (pow2 emax) r then Inf true else Fin (Qred (- r))
  end.

(** The rounded value as a rational, before the overflow test. *)
Definition Rq (x : Q) : Q :=
  match (x ?= 0)%Q with
  | Eq => 0%Q
  | Gt => rn_pos x
  | Lt => (- rn_pos (- x))%Q
  end.

(** A decimal literal [n/d] of the source text, e.g. [0.05] is [lit 5 100]. *)
Definition lit (n : Z) (d : positive) : float := RN (n # d).

(** Conversion of a Python [int] operand of a mixed operation. *)
Definition of_int (z : Z) : float := RN (inject_Z z).

Definition is_nan (x : float) : bool :=
  match x with NaN => true | _ => false end.

Definition Qltb (a b : Q) : bool := negb (Qle_bool b a).

(** Comparisons [<], [<=], [>]; all false on a NaN. *)
Definition ltb (x y : float) : bool :=
  match x, y with
  | NaN, _ | _, NaN => false
  | Inf sx, Inf sy => sx && negb sy
  | Inf sx, Fin _ => sx
  | Fin _, Inf sy => negb sy
  | Fin a, Fin b => Qltb a b
  end.

Definition leb (x y : float) : bool :=
  match x, y with
  | NaN, _ | _, NaN => false
  | Inf sx, Inf sy => sx || negb sy
  | Inf sx, Fin _ => sx
  | Fin _, Inf sy => negb sy
  | Fin a, Fin b => Qle_bool a b
  end.

Definition gtb (x y : float) : bool := ltb y x.

Definition opp (x : float) : float :=
  match x with
  | NaN => NaN
  | Inf s => Inf (negb s)
  | Fin q => Fin (Qred (- q))
  end.

Definition add (x y : float) : float :=
  match x, y with
  | NaN, _ | _, NaN => NaN
  | Inf sx, Inf sy => if Bool.eqb sx sy then Inf sx else NaN
  | Inf sx, Fin _ => Inf sx
  | Fin _, Inf sy => Inf sy
  | Fin a, Fin b => RN (a + b)
  end.

Definition sub (x y : float) : float := add x (opp y).

Definition mul (x y : float) : float :=
  match x, y with
  | NaN, _ | _, NaN => NaN
  | Inf sx, Inf sy => Inf (xorb sx sy)
  | Inf sx, Fin b =>
      match (b ?= 0)%Q with
      | Eq => NaN
      | Lt => Inf (negb sx)
      | Gt => Inf sx
      end
  | Fin a, Inf sy =>
      match (a ?= 0)%Q with
      | Eq => NaN
      | Lt => Inf (negb sy)
      | Gt => Inf sy
      end
  | Fin a, Fin b => RN (a * b)
  end.

(** Python's float division: [None] stands for ZeroDivisionError. *)
Definition div (x y : float) : option float :=
  match x, y with
  | _, Fin b =>
      if Qeq_bool b 0 then None
      else match x with
           | NaN => Some NaN
           | Inf sx => Some (Inf (xorb sx (Qltb b 0)))
           | Fin a => Some (RN (a / b))
           end
  | NaN, _ | _, NaN => Some NaN
  | Inf _, Inf _ => Some NaN
  | Fin _, Inf _ => Some (Fin 0)
  end.

End F64.

Import F64.

Declare Scope float_scope.
Delimit Scope float_scope with flt.
Bind Scope float_scope with float.
Infix "+" := F64.add : float_scope.
Infix "-" := F64.sub : float_scope.
Infix "*" := F64.mul : float_scope.
Infix "<?" := F64.ltb : float_scope.
Infix "<=?" := F64.leb : float_scope.
Infix ">?" := F64.gtb : float_scope.

(** ** Python builtins used by the program *)

Module Py.

(** [a / b] on two [int]s: the correctly rounded quotient;
    [None] is ZeroDivisionError (or OverflowError). *)
Definition int_truediv (a b : Z) : option float :=
  if b =? 0 then None
  else match RN (inject_Z a / inject_Z b) with
       | Fin q => Some (Fin q)
       | _ => None
       end.

(** [z < f] for an [int] and a [float]: compared exactly. *)
Definition int_lt_float (z : Z) (f : float) : bool :=
  match f with
  | NaN => false
  | Inf s => negb s
  | Fin q => Qltb (inject_Z z) q
  end.

(** Truncation toward zero. *)
Definition Qtrunc (q : Q) : Z :=
  if Qle_bool 0 q then Qfloor q else Qceiling q.

(** [int(f)]: [None] is ValueError (NaN) or OverflowError (infinity). *)
Definition int_of_float (f : float) : option Z :=
  match f with
  | Fin q => Some (Qtrunc q)
  | _ => None
  end.

(** [round(x, ndigits)] for [ndigits >= 0]: the double nearest to the
    decimal with [ndigits] fractional digits nearest to [x] (ties to
    even); non-finite values round to themselves. *)
Definition round (x : float) (ndigits : Z) : float :=
  match x with
  | Fin q =>
      let s := inject_Z (10 ^ ndigits) in
      RN (inject_Z (round_half_even (q * s)) / s)
  | _ => x
  end.

(** Two-argument [min] and [max]: the first argument is kept unless the
    second compares strictly smaller (resp. larger). *)
Definition min (a b : float) : float := if (b <? a)%flt then b else a.
Definition max (a b : float) : float := if (b >? a)%flt then b else a.

(** [max(xs, key=f)]: the first element whose key is not exceeded. *)
Fixpoint max_key_from {A : Type} (key : A -> float) (best : A) (xs : list A) : A :=
  match xs with
  | [] => best
  | x :: t => max_key_from key (if (key x >? key best)%flt then x else best) t
  end.

Definition max_key {A : Type} (key : A -> float) (xs : list A) : option A :=
  match xs with
  | [] => None
  | x :: t => Some (max_key_from key x t)
  end.

(** [random.uniform(a, b)], as a function of the draw [u] of
    [random.random()]: [a + (b - a) * u]. *)
Definition uniform (a b u : float) : float := (a + (b - a) * u)%flt.

End Py.

(** ** NumPy reductions used by the program *)

Module Np.

(** [np.argmax]: index of the first maximum; a NaN counts as maximal;
    [None] is the ValueError raised on an empty array. *)
Fixpoint argmax_from (mp : float) (ind i : nat) (l : list float) : nat :=
  match l with
  | [] => ind
  | x :: t =>
      if (x <=? mp)%flt then argmax_from mp ind (S i) t
      else if is_nan x then i
      else argmax_from x i (S i) t
  end.

Definition argmax (l : list float) : option nat :=
  match l with
  | [] => None
  | x :: t => Some (if is_nan x then 0%nat else argmax_from x 0 1 t)
  end.

(** [np.argmin]: index of the first minimum; a NaN counts as minimal. *)
Fixpoint argmin_from (mp : float) (ind i : nat) (l : list float) : nat :=
  match l with
  | [] => ind
  | x :: t =>
      if (mp <=? x)%flt then argmin_from mp ind (S i) t
      else if is_nan x then i
      else argmin_from x i (S i) t
  end.

Definition argmin (l : list float) : option nat :=
  match l with
  | [] => None
  | x :: t => Some (if is_nan x then 0%nat else argmin_from x 0 1 t)
  end.

(** [(labels == c).sum()]. *)
Definition count_eq (labels : list nat) (c : nat) : Z :=
  Z.of_nat (List.length (filter (Nat.eqb c) labels)).

End Np.

(** ** MetricsDeriver *)

Definition spoilage_risk_label_from_ratio (spoilage_ratio : Z) : string :=
  if spoilage_ratio <=? 25 then "Low"%string
  else if spoilage_ratio <=? 50 then "Medium"%string
  else "High"%string.

Definition dry_matter_from_freshness (freshness : Z) : float :=
  let freshness := Z.max 0 (Z.min 100 freshness) in
  Py.round (lit 10 1 + lit 8 100 * of_int freshness)%flt 1.

Record Nutrition : Type := mkNutrition {
  water_percent : float;
  sugar_percent : float;
  fiber : float;
  vitamin_c_mg : float
}.

Definition nutrition_from_dm (dm : float) : option Nutrition :=
  match F64.div (dm - lit 14 1)%flt (lit 4 1) with
  | None => None
  | Some dm_factor =>
      let water := (lit 86 1 - lit 2 1 * dm_factor)%flt in
      let sugar := (lit 10 1 + lit 1 1 * dm_factor)%flt in
      let fiber := (lit 24 10 + lit 3 10 * dm_factor)%flt in
      let vit_c := (lit 46 10 - lit 5 10 * Py.max dm_factor (of_int 0))%flt in
      Some {|
        water_percent := Py.round (Py.max (lit 70 1) (Py.min (lit 90 1) water)) 1;
        sugar_percent := Py.round (Py.max (lit 5 1) (Py.min (lit 20 1) sugar)) 1;
        fiber := Py.round (Py.max (lit 1 1) (Py.min (lit 5 1) fiber)) 1;
        vitamin_c_mg := Py.round (Py.max (lit 1 1) (Py.min (lit 8 1) vit_c)) 1
      |}
  end.

(** ** FreshnessAnalyzer *)

(** A sample or a centre in Lab space: [(L, a, b)]. *)
Definition lab : Type := (float * float * float)%type.

Definition lab_L (c : lab) : float := fst (fst c).
Definition lab_a (c : lab) : float := snd (fst c).

Section FreshnessAnalyzer.

Variables image rng : Type.

(** [cv2.cvtColor(.., COLOR_RGB2LAB)], flattened to one sample per pixel. *)
Variable lab_pixels : image -> list lab.

(** [cv2.kmeans(pixels, k, None, criteria, 5, KMEANS_PP_CENTERS)], when it
    returns: the labels, one per sample, and the centres, of three
    columns; [rng] is the state of the generator that seeds it.  OpenCV's
    own errors, and the IndexError of [centers[:, 1]] on narrower centres,
    have no counterpart here. *)
Variable kmeans : list lab -> nat -> rng -> list nat * list lab.

(** The tail of the function, from the cluster statistics on. *)
Definition freshness_from_counts (fresh_pixels spoiled_pixels total_pixels : Z)
  : option (Z * Z) :=
  let apple_pixels := fresh_pixels + spoiled_pixels in
  if Py.int_lt_float apple_pixels (lit 5 100 * of_int total_pixels)%flt
  then Some (60, 30)
  else
    match Py.int_truediv fresh_pixels apple_pixels,
          Py.int_truediv spoiled_pixels apple_pixels with
    | Some fresh_ratio, Some spoiled_ratio =>
        match Py.int_of_float (of_int 100 * fresh_ratio)%flt,
              Py.int_of_float (of_int 100 * spoiled_ratio)%flt with
        | Some f, Some s => Some (f, s)
        | _, _ => None
        end
    | _, _ => None
    end.

(** [None] stands for an exception raised on the way. *)
Definition compute_freshness_from_image (img_rgb : image) (k : nat) (g : rng)
  : option (Z * Z) :=
  let pixels := lab_pixels img_rgb in
  let '(labels, centers) := kmeans pixels k g in
  let L := map lab_L centers in
  let a := map lab_a centers in
  match Np.argmax a, Np.argmin L with
  | Some fresh_cluster, Some spoiled_cluster =>
      let fresh_pixels := Np.count_eq labels fresh_cluster in
      let spoiled_pixels := Np.count_eq labels spoiled_cluster in
      let total_pixels := Z.of_nat (List.length labels) in
      freshness_from_counts fresh_pixels spoiled_pixels total_pixels
  | _, _ => None
  end.

End FreshnessAnalyzer.

(** ** WeightEstimator *)

Section WeightEstimator.

Variables image contour : Type.

(** Grayscale conversion, 7x7 Gaussian blur, inverse Otsu threshold and
    [cv2.findContours(.., RETR_EXTERNAL, CHAIN_APPROX_SIMPLE)]. *)
Variable find_contours : image -> list contour.

Variable contourArea : contour -> float.

(** Radius of [cv2.minEnclosingCircle]. *)
Variable minEnclosingCircle_radius : contour -> float.

(** The C library's [pow] behind [**]; [None] is OverflowError. *)
Variable pow : float -> float -> option float.

(** [u] is the draw of [random.random()] consumed by the fallback. *)
Definition estimate_weight_from_image (img_rgb : image) (u : float)
  : option float :=
  let contours := find_contours img_rgb in
  match contours with
  | [] => Some (Py.round (Py.uniform (lit 15 100) (lit 30 100) u) 2)
  | c0 :: rest =>
      let c := Py.max_key_from contourArea c0 rest in
      let radius := minEnclosingCircle_radius c in
      let radius := Py.max radius (of_int 10) in
      match pow radius (lit 12 10) with
      | Some p =>
          let weight := (lit 15 10000 * p)%flt in
          Some (Py.round weight 2)
      | None => None
      end
  end.

End WeightEstimator.

Arguments freshness_from_counts fresh_pixels spoiled_pixels total_pixels : simpl never.
Arguments compute_freshness_from_image {image rng} lab_pixels kmeans img_rgb k g.
Arguments estimate_weight_from_image {image contour} find_contours contourArea
  minEnclosingCircle_radius pow img_rgb u.

(** ** Stub generators *)

(** [random.uniform(a, b)] on two [int]s: the width [b - a] is an [int]. *)
Definition uniform_int (a b : Z) (u : float) : float :=
  (of_int a + of_int (b - a) * u)%flt.

(** All the results, or [None] at the first exception. *)
Fixpoint all_some {A : Type} (l : list (option A)) : option (list A) :=
  match l with
  | [] => Some []
  | None :: _ => None
  | Some x :: t =>
      match all_some t with
      | Some r => Some (x :: r)
      | None => None
      end
  end.

Definition pesticide_labels : list string :=
  ["Pure"; "Insecticide Low"; "Fungicide Low"; "Fungicide High"]%string.

(** [random.choice] over the four labels; [i] is the index it draws. *)
Definition pesticide_class_demo (i : nat) : option string :=
  nth_error pesticide_labels i.

(** One element of [sensor_values_demo]: [int(random.uniform(5000, 35000))]. *)
Definition sensor_value (u : float) : option Z :=
  Py.int_of_float (uniform_int 5000 35000 u).

(** [draws i] is the draw of [random.random()] behind the [i]-th element. *)
Definition sensor_values_demo (draws : nat -> float) : option (list Z) :=
  all_some (map (fun i => sensor_value (draws i)) (seq 0 18)).

(** [np.sin(i / 5) * 20 + 50]; [sin] stands for [np.sin]. *)
Definition spectral_base (sin : float -> float) (i : Z) : option float :=
  match Py.int_truediv i 5 with
  | Some x => Some (sin x * of_int 20 + of_int 50)%flt
  | None => None
  end.

(** [noise] is the array drawn by [np.random.normal(0, 3, size=50)]. *)
Definition spectral_curve_demo (sin : float -> float) (noise : list float)
  : option (list float) :=
  match all_some (map (spectral_base sin) (map Z.of_nat (seq 0 50))) with
  | Some base =>
      Some (map (fun bn => Py.round (fst bn + snd bn)%flt 2) (combine base noise))
  | None => None
  end.

(** ** Login *)

(** A Python [str]: its code points. *)
Definition str : Type := list N.

Definition text (s : string) : str :=
  map N_of_ascii (list_ascii_of_string s).

Definition at_sign : N := 64.

(** [s.split("@")[0]]: what stands before the first "@", all of [s] when it
    has none. *)
Fixpoint before_at (s : str) : str :=
  match s with
  | [] => []
  | c :: t => if N.eqb c at_sign then [] else c :: before_at t
  end.

(** The decimal digits of a non-negative [int], most significant first. *)
Fixpoint digits_fuel (fuel : nat) (n : Z) : str :=
  match fuel with
  | O => []
  | S k =>
      if n <? 10 then [Z.to_N (48 + n)]
      else digits_fuel k (n / 10) ++ [Z.to_N (48 + n mod 10)]
  end.

(** [str(n)], as an f-string renders an [int]. *)
Definition decimal (n : Z) : str :=
  if n <? 0 then 45%N :: digits_fuel (S (Z.to_nat (Z.log2 (- n)))) (- n)
  else digits_fuel (S (Z.to_nat (Z.log2 n))) n.

Record LoginResponse : Type := mkLoginResponse {
  token : str;
  user_name : str;
  user_email : str;
  message : str
}.

(** [n] is the outcome of [random.randint(100000, 999999)]; [None] is the
    ValueError raised on a short password. *)
Definition login (email password : str) (n : Z) : option LoginResponse :=
  if Z.of_nat (List.length password) <? 6 then None
  else
    Some {| token := text "demo_token_" ++ decimal n;
            user_name := before_at email;
            user_email := email;
            message := text "Login successful" |}.

(** ** AnalysisOrchestrator *)

Record AnalysisResult : Type := mkAnalysisResult {
  freshness_score : Z;
  dry_matter_percent : float;
  spoilage_risk : string;
  pesticide_class : string;
  estimated_weight_kg : float;
  nutrition : Nutrition;
  spectral_prediction_graph_data : list float;
  sensor_emulation_values : list Z
}.

(** What one request draws from the generators. *)
Record Randomness (rng : Type) : Type := mkRandomness {
  kmeans_seed : rng;
  weight_draw : float;
  choice_index : nat;
  normal_noise : list float;
  sensor_draws : nat -> float
}.

Arguments mkRandomness {rng} kmeans_seed weight_draw choice_index normal_noise
  sensor_draws.
Arguments kmeans_seed {rng} r.
Arguments weight_draw {rng} r.
Arguments choice_index {rng} r.
Arguments normal_noise {rng} r.
Arguments sensor_draws {rng} r.

Section AnalysisOrchestrator.

Variables bytes image rng contour : Type.

(** [Image.open(..).convert("RGB")] and [np.array]; [None] when the bytes
    are not an image. *)
Variable decode_rgb : bytes -> option image.

Variable lab_pixels : image -> list lab.
Variable kmeans : list lab -> nat -> rng -> list nat * list lab.
Variable find_contours : image -> list contour.
Variable contourArea : contour -> float.
Variable minEnclosingCircle_radius : contour -> float.
Variable pow : float -> float -> option float.
Variable sin : float -> float.

Definition analyze_apple (contents : bytes) (rnd : Randomness rng)
  : option AnalysisResult :=
  match decode_rgb contents with
  | None => None
  | Some img_rgb =>
  match compute_freshness_from_image lab_pixels kmeans img_rgb 3
          (kmeans_seed rnd) with
  | None => None
  | Some (freshness, spoilage_ratio) =>
  let dm := dry_matter_from_freshness freshness in
  let spoilage_label := spoilage_risk_label_from_ratio spoilage_ratio in
  match estimate_weight_from_image find_contours contourArea
          minEnclosingCircle_radius pow img_rgb (weight_draw rnd) with
  | None => None
  | Some weight =>
  match pesticide_class_demo (choice_index rnd) with
  | None => None
  | Some pesticide =>
  match nutrition_from_dm dm with
  | None => None
  | Some nutrition =>
  match spectral_curve_demo sin (normal_noise rnd) with
  | None => None
  | Some spectral =>
  match sensor_values_demo (sensor_draws rnd) with
  | None => None
  | Some sensor_vals =>
      Some {| freshness_score := freshness;
              dry_matter_percent := dm;
              spoilage_risk := spoilage_label;
              pesticide_class := pesticide;
              estimated_weight_kg := weight;
              nutrition := nutrition;
              spectral_prediction_graph_data := spectral;
              sensor_emulation_values := sensor_vals |}
  end end end end end end end.

End AnalysisOrchestrator.

Arguments analyze_apple {bytes image rng contour} decode_rgb lab_pixels kmeans
  find_contours contourArea minEnclosingCircle_radius pow sin contents rnd.

(** * Vocabulary of the statements *)

(** The rational carried by a finite float. *)
Definition float_value (f : float) : Q :=
  match f with Fin q => q | _ => 0%Q end.

(** The doubles nearest to the decimal literals of the source. *)
Definition c05 : Q := Eval vm_compute in float_value (lit 5 100).
Definition c008 : Q := Eval vm_compute in float_value (lit 8 100).
Definition c015 : Q := Eval vm_compute in float_value (lit 15 100).
Definition c030 : Q := Eval vm_compute in float_value (lit 30 100).
Definition c00015 : Q := Eval vm_compute in float_value (lit 15 10000).
Definition c002 : Q := Eval vm_compute in float_value (lit 2 100).

(** [int(100 * (x / a))], the expression behind both returned ratios. *)
Definition percent_of (x a : Z) : option Z :=
  match Py.int_truediv x a with
  | Some r => Py.int_of_float (of_int 100 * r)%flt
  | None => None
  end.

(** The whole percentages [n] for which [100 * (n / 100)] falls just below
    [n] in binary64, so that truncation yields [n - 1]. *)
Definition biased (n : Z) : bool := (n =? 29) || (n =? 57) || (n =? 58).

(** [floor (100 * x / a)], lowered by one on the biased whole percentages. *)
Definition truncated_percent (x a : Z) : Z :=
  let n := 100 * x / a in
  if ((100 * x) mod a =? 0) && biased n then n - 1 else n.

(** The percentage as the specification words it: rounded to the nearest
    integer. *)
Definition rounded_percent (x a : Z) : Z :=
  round_half_even (100 * (inject_Z x / inject_Z a)).

Definition option_Z_eqb (a b : option Z) : bool :=
  match a, b with
  | Some x, Some y => x =? y
  | None, None => true
  | _, _ => false
  end.

(** A field of the nutrition record: inside its range, with one decimal. *)
Definition in_range (lo hi : Z) (r : float) : Prop :=
  (lit lo 1 <=? r)%flt = true /\ (r <=? lit hi 1)%flt = true
  /\ exists k : Z, r = lit k 10.

Definition pow5 (p : Q) : Q := (p * p * p * p * p)%Q.
Definition pow6 (x : Q) : Q := (x * x * x * x * x * x)%Q.

(** [res] is a finite approximation of [x^(6/5)] whose fifth power is
    within a relative [2^-20] of [x^6]: what an accurate [pow(x, 1.2)]
    returns, with a wide margin. *)
Definition pow_accurate (res : option float) (x : Q) : Prop :=
  exists p, res = Some (Fin p) /\ (0 < p)%Q
            /\ ((1 - (1 # 1048576)) * pow6 x <= pow5 p)%Q
            /\ (pow5 p <= (1 + (1 # 1048576)) * pow6 x)%Q.

(** The weight computed from the lower bound 15.8 on [pow]: about 0.0237. *)
Definition weight_floor : Q :=
  Eval vm_compute in float_value (Fin c00015 * Fin (158 # 10))%flt.

(** A draw of [random.random()]: a float of [[0, 1)]. *)
Definition unit_draw (u : float) : Prop :=
  exists q, u = Fin q /\ (0 <= q)%Q /\ (q < 1)%Q.

(** ** The Standard Library's IEEE-754 operations, for comparison *)

(** A finite float as a [spec_float] of binary64; its denominator is a
    power of two. *)
Definition to_spec (x : float) : spec_float :=
  match x with
  | NaN => S754_nan
  | Inf s => S754_infinity s
  | Fin q => binary_normalize 53 1024 (Qnum q) (- Z.log2 (Zpos (Qden q))) false
  end.

Definition Z2SF (z : Z) : spec_float := binary_normalize 53 1024 z 0 false.

(** The double nearest to [n / d], by the library's division. *)
Definition SF_lit (n d : Z) : spec_float := SFdiv 53 1024 (Z2SF n) (Z2SF d).

Definition sf_eqb (a b : spec_float) : bool :=
  match a, b with
  | S754_nan, S754_nan => true
  | S754_zero s, S754_zero t | S754_infinity s, S754_infinity t => Bool.eqb s t
  | S754_finite s m e, S754_finite t n f =>
      Bool.eqb s t && Pos.eqb m n && Z.eqb e f
  | _, _ => false
  end.

Definition agree (x : float) (y : spec_float) : bool := sf_eqb (to_spec x) y.

(** ** A small clustering run, used to instantiate the statements *)

(** Three centres: the first is the reddest, the second the darkest. *)
Definition demo_centers : list lab :=
  [ (Fin 50, Fin 20, Fin 0); (Fin 10, Fin 0, Fin 0); (Fin 80, Fin (-5), Fin 0) ].

Definition demo_pixels (labels : list nat) (_ : unit) : list lab :=
  map (fun _ => (Fin 0, Fin 0, Fin 0)) labels.

Definition demo_kmeans (labels : list nat) (_ : list lab) (_ : nat) (_ : unit)
  : list nat * list lab :=
  (labels, demo_centers).

(** Two pixels in the fresh cluster and one in the spoiled cluster. *)
Definition demo_labels : list nat := [0; 0; 1]%nat.

(** Forty background pixels and one fresh pixel. *)
Definition sparse_labels : list nat := (repeat 2 40 ++ [0])%nat.

(** The specification's wording of the non-fallback result: percentages
    rounded to the nearest integer. *)
Definition rounded_ratios_claim : Prop :=
  forall (image rng : Type) (lab_pixels : image -> list lab)
         (kmeans : list lab -> nat -> rng -> list nat * list lab)
         (img : image) (g : rng) (labels : list nat) (centers : list lab)
         (fresh_cluster spoiled_cluster : nat),
    kmeans (lab_pixels img) 3%nat g = (labels, centers) ->
    Np.argmax (map lab_a centers) = Some fresh_cluster ->
    Np.argmin (map lab_L centers) = Some spoiled_cluster ->
    let fresh_pixels := Np.count_eq labels fresh_cluster in
    let spoiled_pixels := Np.count_eq labels spoiled_cluster in
    let apple_pixels := fresh_pixels + spoiled_pixels in
    Z.of_nat (List.length labels) <= 20 * apple_pixels ->
    compute_freshness_from_image lab_pixels kmeans img 3 g
    = Some (rounded_percent fresh_pixels apple_pixels,
            rounded_percent spoiled_pixels apple_pixels).

(** The double nearest to [10^1.2], the value of [pow(10.0, 1.2)]. *)
Definition pow_10_12 : float := lit 15848931924611133 1000000000000000.

(** ** Two images for the weight estimator *)

(** A uniform image, without contour, and an image with one small contour
    of radius 4; [pow] answers as on the base 10. *)
Definition no_contours (_ : unit) : list unit := [].
Definition one_contour (_ : unit) : list unit := [tt].
Definition demo_area (_ : unit) : float := Fin 100.
Definition demo_radius (_ : unit) : float := Fin 4.
Definition demo_pow (_ _ : float) : option float := Some pow_10_12.
Definition demo_draw : float := Fin (1 # 2).

(** ** Vocabulary of the further properties *)

(** Syntactic equality of two floats (results of [RN] are in lowest
    terms). *)
Definition float_eqb (x y : float) : bool :=
  match x, y with
  | NaN, NaN => true
  | Inf a, Inf b => Bool.eqb a b
  | Fin a, Fin b => (Qnum a =? Qnum b) && Pos.eqb (Qden a) (Qden b)
  | _, _ => false
  end.

(** The three risk labels in increasing order of severity. *)
Definition risk_rank (label : string) : Z :=
  if String.eqb label "Low" then 0
  else if String.eqb label "Medium" then 1
  else 2.

(** The clamp at the head of [dry_matter_from_freshness]. *)
Definition clamp_percent (freshness : Z) : Z := Z.max 0 (Z.min 100 freshness).

(** Dry matter in tenths of a percent, in integer arithmetic:
    [100 + round(0.8 * c)]. *)
Definition dry_matter_tenths (c : Z) : Z := 100 + (8 * c + 5) / 10.

(** The composition made by the endpoint: freshness to nutrition. *)
Definition nutrition_of_freshness (freshness : Z) : option Nutrition :=
  nutrition_from_dm (dry_matter_from_freshness freshness).

Definition between (lo hi x : float) : bool := (lo <=? x)%flt && (x <=? hi)%flt.

(** The ranges the nutrition values stay in along the pipeline. *)
Definition pipeline_ranges (n : option Nutrition) : bool :=
  match n with
  | Some n =>
      between (lit 84 1) (lit 88 1) (water_percent n)
      && between (lit 9 1) (lit 11 1) (sugar_percent n)
      && between (lit 21 10) (lit 27 10) (fiber n)
      && between (lit 41 10) (lit 46 10) (vitamin_c_mg n)
  | None => false
  end.

(** [n2] belongs to the fresher fruit: less water and vitamin C, more sugar
    and fiber. *)
Definition nutrition_ordered (n1 n2 : option Nutrition) : bool :=
  match n1, n2 with
  | Some a, Some b =>
      (water_percent b <=? water_percent a)%flt
      && (sugar_percent a <=? sugar_percent b)%flt
      && (fiber a <=? fiber b)%flt
      && (vitamin_c_mg b <=? vitamin_c_mg a)%flt
  | _, _ => false
  end.

(** [P (f c1) (f c2)] for all [0 <= c1 <= c2 < k], each [f c] computed
    once. *)
Definition pair_table_check {A : Type} (P : A -> A -> bool) (f : Z -> A)
  (k : nat) : bool :=
  let tbl := map (fun c => (c, f c)) (map Z.of_nat (seq 0 k)) in
  forallb (fun p1 =>
    forallb (fun p2 => (fst p2 <? fst p1) || P (snd p1) (snd p2)) tbl) tbl.

(** [0.0015 * 15.9], the largest weight before rounding at the floor. *)
Definition weight_ceiling : Q :=
  Eval vm_compute in float_value (Fin c00015 * Fin (159 # 10))%flt.

(** An ASCII decimal digit. *)
Definition is_digit (c : N) : Prop := (48 <= c <= 57)%N.

(** The number a string of decimal digits denotes. *)
Definition parse_decimal (s : str) : Z :=
  fold_left (fun acc c => 10 * acc + (Z.of_N c - 48)) s 0.

(** A clustering whose reddest centre is also its darkest. *)
Definition overlap_centers : list lab :=
  [(Fin 10, Fin 20, Fin 0); (Fin 50, Fin 0, Fin 0); (Fin 80, Fin (-5), Fin 0)].

Definition overlap_kmeans (labels : list nat) (_ : list lab) (_ : nat) (_ : unit)
  : list nat * list lab :=
  (labels, overlap_centers).

(** ** A request, used to instantiate the statements on the endpoint *)

Definition demo_decode (_ : unit) : option unit := Some tt.
Definition demo_sin (x : float) : float := x.

Definition demo_randomness : Randomness unit :=
  mkRandomness tt demo_draw 2%nat (repeat (Fin 0) 50) (fun _ => demo_draw).

(** The nutrition reported with the fallback freshness of 60. *)
Definition fallback_nutrition : Nutrition :=
  {| water_percent := lit 856 10;
     sugar_percent := lit 102 10;
     fiber := lit 25 10;
     vitamin_c_mg := lit 45 10 |}.

(** ** An image with two contours, the second one the larger *)

Definition two_contours (_ : unit) : list bool := [false; true].
Definition two_area (c : bool) : float := if c then Fin 900 else Fin 100.
Definition two_radius (c : bool) : float := if c then Fin 20 else Fin 4.

(** The value of [pow(20.0, 1.2)]. *)
Definition pow_20_12 : float := lit 364112840605216 10000000000000.

(** [pow] on the two clamped radii, 20 and 10. *)
Definition two_pow (x _ : float) : option float :=
  if float_eqb x (Fin 20) then Some pow_20_12 else Some pow_10_12.

(** ** The nutrition formulas of the specification *)

(** [clamp(x, [lo, hi])]. *)
Definition clampQ (lo hi x : Q) : Q :=
  if Qle_bool x lo then lo else if Qle_bool hi x then hi else x.

(** The formulas over exact rationals: [factor = (dm - 14.0) / 4.0], then
    one clamped affine expression per field. *)
Definition factor_formula (dm : Q) : Q := ((dm - 14) / 4)%Q.

Definition water_formula (dm : Q) : Q :=
  clampQ 70 90 (86 - 2 * factor_formula dm)%Q.

Definition sugar_formula (dm : Q) : Q :=
  clampQ 5 20 (10 + 1 * factor_formula dm)%Q.

Definition fiber_formula (dm : Q) : Q :=
  clampQ 1 5 ((24 # 10) + (3 # 10) * factor_formula dm)%Q.

Definition vitamin_c_formula (dm : Q) : Q :=
  clampQ 1 8
    ((46 # 10)
     - (5 # 10) * (if Qle_bool (factor_formula dm) 0 then 0
                   else factor_formula dm))%Q.

(** Half a tenth, and room for the binary roundings on the way. *)
Definition tolerance : Q := (1 # 20) + (1 # 1000000000).

(** [x] is a finite float within [tolerance] of [y]. *)
Definition near (x : float) (y : Q) : Prop :=
  exists r, x = Fin r /\ (y - tolerance <= r)%Q /\ (r <= y + tolerance)%Q.

(** The four fields as [nutrition_from_dm] computes them from [dm_factor]. *)
Definition water_of (dm_factor : float) : float :=
  Py.round (Py.max (lit 70 1)
              (Py.min (lit 90 1) (lit 86 1 - lit 2 1 * dm_factor)%flt)) 1.

Definition sugar_of (dm_factor : float) : float :=
  Py.round (Py.max (lit 5 1)
              (Py.min (lit 20 1) (lit 10 1 + lit 1 1 * dm_factor)%flt)) 1.

Definition fiber_of (dm_factor : float) : float :=
  Py.round (Py.max (lit 1 1)
              (Py.min (lit 5 1) (lit 24 10 + lit 3 10 * dm_factor)%flt)) 1.

Definition vitamin_c_of (dm_factor : float) : float :=
  Py.round (Py.max (lit 1 1)
              (Py.min (lit 8 1)
                 (lit 46 10 - lit 5 10 * Py.max dm_factor (of_int 0))%flt)) 1.

(** One rounding step on values of magnitude at most 1024. *)
Definition eps : Q := 1 # 4398046511104.

Definition c24 : Q := Eval vm_compute in float_value (lit 24 10).
Definition c03 : Q := Eval vm_compute in float_value (lit 3 10).
Definition c46 : Q := Eval vm_compute in float_value (lit 46 10).

Ltac qcompute := vm_compute; first [reflexivity | discriminate].
Ltac fcompute := vm_compute; reflexivity.

(** * Properties of the rounding *)

Module F64Facts.

Lemma Qltb_true (a b : Q) : Qltb a b = true <-> (a < b)%Q.
Proof.
  unfold Qltb. rewrite negb_true_iff.
  split; intros H.
  - apply Qnot_le_lt. intros Hle. apply Qle_bool_iff in Hle. congruence.
  - destruct (Qle_bool b a) eqn:E; trivial.
    apply Qle_bool_iff in E. exfalso. apply (Qlt_not_le _ _ H E).
Qed.

Lemma Qltb_false (a b : Q) : Qltb a b = false <-> (b <= a)%Q.
Proof.
  unfold Qltb. rewrite negb_false_iff. apply Qle_bool_iff.
Qed.

Lemma pow2_pos (e : Z) : (0 < pow2 e)%Q.
Proof. apply Qpower_0_lt. reflexivity. Qed.

Lemma pow2_add (a b : Z) : (pow2 (a + b) == pow2 a * pow2 b)%Q.
Proof. apply Qpower_plus. discriminate. Qed.

Lemma pow2_le (a b : Z) : a <= b -> (pow2 a <= pow2 b)%Q.
Proof. intros H. apply Qpower_le_compat_l; [exact H | discriminate]. Qed.

Lemma pow2_lt (a b : Z) : a < b -> (pow2 a < pow2 b)%Q.
Proof. intros H. apply Qpower_lt_compat_l; [exact H | reflexivity]. Qed.

Lemma pow2_lt_inv (a b : Z) : (pow2 a < pow2 b)%Q -> a < b.
Proof.
  intros H. destruct (Z_lt_le_dec a b) as [L | L]; trivial.
  apply pow2_le in L. exfalso. apply (Qlt_not_le _ _ H L).
Qed.

Lemma pow2_Z (n : Z) : 0 <= n -> (pow2 n == inject_Z (2 ^ n))%Q.
Proof. intros H. unfold pow2. symmetry. apply Zpower_Qpower. exact H. Qed.

Lemma pow2_succ (a : Z) : (pow2 (a + 1) == 2 * pow2 a)%Q.
Proof. rewrite pow2_add. change (pow2 1) with 2%Q. ring. Qed.

Lemma inject_Z_succ (z : Z) : (inject_Z (z + 1) == inject_Z z + 1)%Q.
Proof. rewrite inject_Z_plus. reflexivity. Qed.

Lemma rhe_cases (x : Q) :
  round_half_even x = Qfloor x \/ round_half_even x = Qfloor x + 1.
Proof.
  unfold round_half_even.
  destruct (x - inject_Z (Qfloor x) ?= 1 # 2)%Q; auto.
  destruct (Z.even (Qfloor x)); auto.
Qed.

Lemma rhe_spec (x : Q) :
  (inject_Z (round_half_even x) - (1 # 2) <= x
   /\ x <= inject_Z (round_half_even x) + (1 # 2))%Q.
Proof.
  pose proof (Qfloor_le x) as Hlo.
  pose proof (Qlt_floor x) as Hhi.
  rewrite inject_Z_succ in Hhi.
  unfold round_half_even.
  destruct (Qcompare_spec (x - inject_Z (Qfloor x)) (1 # 2)) as [E | L | G].
  - destruct (Z.even (Qfloor x)); rewrite ?inject_Z_succ; split; lra.
  - split; lra.
  - rewrite inject_Z_succ. split; lra.
Qed.

Lemma rhe_mono (x y : Q) :
  (x <= y)%Q -> round_half_even x <= round_half_even y.
Proof.
  intros Hxy.
  pose proof (Qfloor_resp_le x y Hxy) as Hf.
  destruct (Z.eq_dec (Qfloor x) (Qfloor y)) as [E | N].
  - unfold round_half_even. rewrite <- E.
    destruct (Qcompare_spec (x - inject_Z (Qfloor x)) (1 # 2)) as [Ex | Lx | Gx];
      destruct (Qcompare_spec (y - inject_Z (Qfloor x)) (1 # 2)) as [Ey | Ly | Gy];
      try lia; try (exfalso; lra);
      destruct (Z.even (Qfloor x)); lia.
  - destruct (rhe_cases x) as [-> | ->].
    + destruct (rhe_cases y) as [-> | ->]; lia.
    + destruct (rhe_cases y) as [-> | ->]; lia.
Qed.

Lemma rhe_compat (x y : Q) : (x == y)%Q -> round_half_even x = round_half_even y.
Proof.
  intros E. apply Z.le_antisymm; apply rhe_mono; rewrite E; apply Qle_refl.
Qed.

Lemma rhe_Z (z : Z) : round_half_even (inject_Z z) = z.
Proof.
  unfold round_half_even. rewrite Qfloor_Z.
  destruct (Qcompare_spec (inject_Z z - inject_Z z) (1 # 2)) as [E | L | G];
    trivial; exfalso; lra.
Qed.

Lemma rhe_near (x : Q) (z : Z) :
  (inject_Z z - (1 # 2) < x)%Q -> (x < inject_Z z + (1 # 2))%Q ->
  round_half_even x = z.
Proof.
  intros Hlo Hhi. destruct (rhe_spec x) as [A B].
  assert (L : (inject_Z (round_half_even x) < inject_Z (z + 1))%Q)
    by (rewrite inject_Z_succ; lra).
  assert (U : (inject_Z z < inject_Z (round_half_even x + 1))%Q)
    by (rewrite inject_Z_succ; lra).
  rewrite <- Zlt_Qlt in L, U. lia.
Qed.

Lemma Qfrac_lt (x p n d m b : Q) :
  (0 < d)%Q -> (0 < b)%Q ->
  (x * d == n)%Q -> (p * b == m)%Q -> (n * b < m * d)%Q -> (x < p)%Q.
Proof.
  intros Hd Hb Hx Hp H.
  apply Qnot_le_lt. intros Hle.
  assert (p * b * d <= x * d * b)%Q.
  { setoid_replace (p * b * d)%Q with (p * (b * d))%Q by ring.
    setoid_replace (x * d * b)%Q with (x * (b * d))%Q by ring.
    apply Qmult_le_compat_r; [exact Hle |].
    apply Qlt_le_weak. apply Qmult_lt_0_compat; assumption. }
  rewrite Hx, Hp in H0. apply (Qlt_not_le _ _ H H0).
Qed.

Lemma Qfrac_le (x p n d m b : Q) :
  (0 < d)%Q -> (0 < b)%Q ->
  (x * d == n)%Q -> (p * b == m)%Q -> (m * d <= n * b)%Q -> (p <= x)%Q.
Proof.
  intros Hd Hb Hx Hp H.
  apply Qnot_lt_le. intros Hlt.
  assert (x * d * b < p * b * d)%Q.
  { setoid_replace (p * b * d)%Q with (p * (b * d))%Q by ring.
    setoid_replace (x * d * b)%Q with (x * (b * d))%Q by ring.
    apply Qmult_lt_compat_r; [| exact Hlt].
    apply Qmult_lt_0_compat; assumption. }
  rewrite Hx, Hp in H0. apply (Qle_not_lt _ _ H H0).
Qed.

Lemma ilog2_rough (x : Q) :
  (0 < x)%Q ->
  let e0 := Z.log2 (Qnum x) - Z.log2 (Zpos (Qden x)) in
  (pow2 (e0 - 1) <= x /\ x < pow2 (e0 + 1))%Q.
Proof.
  intros Hx e0. destruct x as [n d]. cbn [Qnum Qden] in e0.
  assert (Hn : 0 < n) by (unfold Qlt in Hx; cbn in Hx; lia).
  destruct (Z.log2_spec n Hn) as [An Bn].
  destruct (Z.log2_spec (Zpos d) (Pos2Z.is_pos d)) as [Ad Bd].
  pose proof (Z.log2_nonneg n) as Hna.
  pose proof (Z.log2_nonneg (Zpos d)) as Hnb.
  set (a := Z.log2 n) in *. set (b := Z.log2 (Zpos d)) in *.
  assert (HxD : ((n # d) * inject_Z (Zpos d) == inject_Z n)%Q).
  { unfold Qeq, Qmult, inject_Z; cbn. lia. }
  assert (HD : (0 < inject_Z (Zpos d))%Q) by (rewrite <- (Zlt_Qlt 0); lia).
  split.
  - apply (Qfrac_le _ _ (inject_Z n) (inject_Z (Zpos d))
             (inject_Z (2 ^ a)) (inject_Z (2 ^ (b + 1)))); trivial.
    + rewrite <- (Zlt_Qlt 0). apply Z.pow_pos_nonneg; lia.
    + rewrite <- !pow2_Z by lia. rewrite <- pow2_add. 
      replace (e0 - 1 + (b + 1)) with a by (unfold e0; lia). reflexivity.
    + rewrite <- !inject_Z_mult, <- Zle_Qle.
      assert (0 < 2 ^ a) by (apply Z.pow_pos_nonneg; lia). nia.
  - apply (Qfrac_lt _ _ (inject_Z n) (inject_Z (Zpos d))
             (inject_Z (2 ^ (a + 1))) (inject_Z (2 ^ b))); trivial.
    + rewrite <- (Zlt_Qlt 0). apply Z.pow_pos_nonneg; lia.
    + rewrite <- !pow2_Z by lia. rewrite <- pow2_add. 
      replace (e0 + 1 + b) with (a + 1) by (unfold e0; lia). reflexivity.
    + rewrite <- !inject_Z_mult, <- Zlt_Qlt.
      assert (0 < 2 ^ b) by (apply Z.pow_pos_nonneg; lia). nia.
Qed.

Lemma ilog2_spec (x : Q) :
  (0 < x)%Q -> (pow2 (ilog2 x) <= x /\ x < pow2 (ilog2 x + 1))%Q.
Proof.
  intros Hx. destruct (ilog2_rough x Hx) as [Lo Hi].
  unfold ilog2.
  destruct (Qle_bool (pow2 (Z.log2 (Qnum x) - Z.log2 (Zpos (Qden x)))) x) eqn:E.
  - apply Qle_bool_iff in E. split; assumption.
  - split; [exact Lo |].
    replace (Z.log2 (Qnum x) - Z.log2 (Z.pos (Qden x)) - 1 + 1)
      with (Z.log2 (Qnum x) - Z.log2 (Z.pos (Qden x))) by lia.
    apply Qnot_le_lt. intros Hle. apply Qle_bool_iff in Hle. congruence.
Qed.

Lemma ilog2_unique (x : Q) (e : Z) :
  (pow2 e <= x)%Q -> (x < pow2 (e + 1))%Q -> ilog2 x = e.
Proof.
  intros Lo Hi.
  assert (Hx : (0 < x)%Q) by (eapply Qlt_le_trans; [apply (pow2_pos e) | exact Lo]).
  destruct (ilog2_spec x Hx) as [Lo' Hi'].
  assert (ilog2 x < e + 1)
    by (apply pow2_lt_inv; eapply Qle_lt_trans; eassumption).
  assert (e < ilog2 x + 1)
    by (apply pow2_lt_inv; eapply Qle_lt_trans; eassumption).
  lia.
Qed.

Lemma ilog2_mono (x y : Q) : (0 < x)%Q -> (x <= y)%Q -> ilog2 x <= ilog2 y.
Proof.
  intros Hx Hxy.
  assert (Hy : (0 < y)%Q) by (eapply Qlt_le_trans; eassumption).
  destruct (ilog2_spec x Hx) as [Lo _].
  destruct (ilog2_spec y Hy) as [_ Hi].
  assert (ilog2 x < ilog2 y + 1).
  { apply pow2_lt_inv. eapply Qle_lt_trans; [exact Lo |].
    eapply Qle_lt_trans; eassumption. }
  lia.
Qed.

Lemma ilog2_compat (x y : Q) : (0 < x)%Q -> (x == y)%Q -> ilog2 x = ilog2 y.
Proof.
  intros Hx E. destruct (ilog2_spec x Hx) as [Lo Hi].
  symmetry. apply ilog2_unique; rewrite <- E; assumption.
Qed.

Lemma pow2_nz (e : Z) : ~ (pow2 e == 0)%Q.
Proof. intros E. pose proof (pow2_pos e) as H. rewrite E in H. discriminate. Qed.

Lemma scaled_back (x : Q) (e : Z) : (x / pow2 e * pow2 e == x)%Q.
Proof. field. apply pow2_nz. Qed.

Lemma scaled_le (x y : Q) (e : Z) : (x <= y)%Q -> (x / pow2 e <= y / pow2 e)%Q.
Proof.
  intros H. unfold Qdiv. apply Qmult_le_compat_r; [exact H |].
  apply Qlt_le_weak, Qinv_lt_0_compat, pow2_pos.
Qed.

Lemma scaled_pow2 (a e : Z) : (pow2 a / pow2 e == pow2 (a - e))%Q.
Proof.
  replace a with ((a - e) + e) at 1 by lia. rewrite pow2_add.
  field. apply pow2_nz.
Qed.

Lemma quantum_mono (x y : Q) : (0 < x)%Q -> (x <= y)%Q -> quantum x <= quantum y.
Proof.
  intros Hx Hxy. unfold quantum. pose proof (ilog2_mono x y Hx Hxy). lia.
Qed.

Lemma quantum_compat (x y : Q) : (0 < x)%Q -> (x == y)%Q -> quantum x = quantum y.
Proof. intros Hx E. unfold quantum. rewrite (ilog2_compat x y Hx E). reflexivity. Qed.

Lemma quantum_ge_emin (x : Q) : emin <= quantum x.
Proof. unfold quantum. lia. Qed.

Lemma below_top (x : Q) : (0 < x)%Q -> (x < pow2 (quantum x + prec))%Q.
Proof.
  intros Hx. destruct (ilog2_spec x Hx) as [_ Hi].
  eapply Qlt_le_trans; [exact Hi |]. apply pow2_le. unfold quantum, prec. lia.
Qed.

Lemma above_bottom (x : Q) :
  (0 < x)%Q -> emin < quantum x -> (pow2 (quantum x + (prec - 1)) <= x)%Q.
Proof.
  intros Hx Hq. destruct (ilog2_spec x Hx) as [Lo _].
  replace (quantum x + (prec - 1)) with (ilog2 x); [exact Lo |].
  unfold quantum in *. lia.
Qed.

Lemma scaled_lt_top (x : Q) :
  (0 < x)%Q -> (x / pow2 (quantum x) <= inject_Z (2 ^ prec))%Q.
Proof.
  intros Hx.
  assert (E : (inject_Z (2 ^ prec) == pow2 (quantum x + prec) / pow2 (quantum x))%Q).
  { rewrite scaled_pow2. replace (quantum x + prec - quantum x) with prec by lia.
    symmetry. apply pow2_Z. unfold prec. lia. }
  rewrite E. apply scaled_le. apply Qlt_le_weak, below_top, Hx.
Qed.

Lemma scaled_ge_bottom (x : Q) :
  (0 < x)%Q -> emin < quantum x ->
  (inject_Z (2 ^ (prec - 1)) <= x / pow2 (quantum x))%Q.
Proof.
  intros Hx Hq.
  assert (E : (inject_Z (2 ^ (prec - 1))
               == pow2 (quantum x + (prec - 1)) / pow2 (quantum x))%Q).
  { rewrite scaled_pow2.
    replace (quantum x + (prec - 1) - quantum x) with (prec - 1) by lia.
    symmetry. apply pow2_Z. unfold prec. lia. }
  rewrite E. apply scaled_le. apply above_bottom; assumption.
Qed.

Lemma unscale_int (n e : Z) :
  0 <= n -> (inject_Z (2 ^ n) * pow2 e == pow2 (e + n))%Q.
Proof.
  intros Hn. rewrite <- (pow2_Z n Hn), <- pow2_add.
  replace (n + e) with (e + n) by lia. reflexivity.
Qed.

Lemma rn_pos_le_top (x : Q) :
  (0 < x)%Q -> (rn_pos x <= pow2 (quantum x + prec))%Q.
Proof.
  intros Hx. unfold rn_pos.
  rewrite <- (unscale_int prec (quantum x)) by (unfold prec; lia).
  apply Qmult_le_compat_r; [| apply Qlt_le_weak, pow2_pos].
  rewrite <- Zle_Qle. rewrite <- (rhe_Z (2 ^ prec)).
  apply rhe_mono, scaled_lt_top, Hx.
Qed.

Lemma rn_pos_ge_bottom (x : Q) :
  (0 < x)%Q -> emin < quantum x ->
  (pow2 (quantum x + (prec - 1)) <= rn_pos x)%Q.
Proof.
  intros Hx Hq. unfold rn_pos.
  rewrite <- (unscale_int (prec - 1) (quantum x)) by (unfold prec; lia).
  apply Qmult_le_compat_r; [| apply Qlt_le_weak, pow2_pos].
  rewrite <- Zle_Qle. rewrite <- (rhe_Z (2 ^ (prec - 1))).
  apply rhe_mono, scaled_ge_bottom; assumption.
Qed.

Lemma rn_pos_nonneg (x : Q) : (0 < x)%Q -> (0 <= rn_pos x)%Q.
Proof.
  intros Hx. unfold rn_pos.
  apply Qmult_le_0_compat; [| apply Qlt_le_weak, pow2_pos].
  rewrite <- (Zle_Qle 0). rewrite <- (rhe_Z 0). apply rhe_mono.
  apply Qlt_le_weak. unfold Qdiv.
  apply Qmult_lt_0_compat; [exact Hx | apply Qinv_lt_0_compat, pow2_pos].
Qed.

Lemma rn_pos_mono (x y : Q) :
  (0 < x)%Q -> (x <= y)%Q -> (rn_pos x <= rn_pos y)%Q.
Proof.
  intros Hx Hxy.
  assert (Hy : (0 < y)%Q) by (eapply Qlt_le_trans; eassumption).
  pose proof (quantum_mono x y Hx Hxy) as Hq.
  destruct (Z.eq_dec (quantum x) (quantum y)) as [E | N].
  - unfold rn_pos. rewrite E.
    apply Qmult_le_compat_r; [| apply Qlt_le_weak, pow2_pos].
    rewrite <- Zle_Qle. apply rhe_mono, scaled_le, Hxy.
  - eapply Qle_trans; [apply rn_pos_le_top, Hx |].
    eapply Qle_trans; [| apply rn_pos_ge_bottom; trivial].
    + apply pow2_le. unfold prec. lia.
    + pose proof (quantum_ge_emin x). lia.
Qed.

Lemma rn_pos_compat (x y : Q) : (0 < x)%Q -> (x == y)%Q -> (rn_pos x == rn_pos y)%Q.
Proof.
  intros Hx E. unfold rn_pos. rewrite <- (quantum_compat x y Hx E).
  rewrite (rhe_compat (x / pow2 (quantum x)) (y / pow2 (quantum x))).
  - reflexivity.
  - unfold Qdiv. apply Qmult_comp; [exact E | reflexivity].
Qed.

Lemma rn_pos_exact (x : Q) (m : Z) :
  (x / pow2 (quantum x) == inject_Z m)%Q -> (rn_pos x == x)%Q.
Proof.
  intros E. unfold rn_pos. rewrite (rhe_compat _ _ E), rhe_Z, <- E.
  apply scaled_back.
Qed.

Lemma rn_pos_id (x : Q) (k j : Z) :
  0 < k <= 2 ^ prec -> emin <= j ->
  (x == inject_Z k * pow2 j)%Q -> (rn_pos x == x)%Q.
Proof.
  intros Hk Hj E.
  assert (Hx : (0 < x)%Q).
  { rewrite E. apply Qmult_lt_0_compat; [| apply pow2_pos].
    rewrite <- (Zlt_Qlt 0). lia. }
  pose proof (above_bottom x Hx) as Lo.
  remember (quantum x) as q eqn:Eq.
  destruct (Z_le_gt_dec q j) as [Le | Gt].
  - apply (rn_pos_exact x (k * 2 ^ (j - q))). rewrite <- Eq.
    rewrite inject_Z_mult, <- pow2_Z by lia.
    rewrite <- scaled_pow2, E. field. apply pow2_nz.
  - specialize (Lo ltac:(lia)).
    assert (Hle : (x <= pow2 (j + prec))%Q).
    { rewrite E, <- (unscale_int prec j) by (unfold prec; lia).
      apply Qmult_le_compat_r; [| apply Qlt_le_weak, pow2_pos].
      rewrite <- Zle_Qle. lia. }
    assert (q + (prec - 1) <= j + prec).
    { destruct (Z_le_gt_dec (q + (prec - 1)) (j + prec)); trivial.
      exfalso. assert (j + prec < q + (prec - 1)) as L by lia.
      apply pow2_lt in L. apply (Qlt_not_le _ _ L).
      eapply Qle_trans; eassumption. }
    assert (Ej : q = j + 1) by lia.
    apply (rn_pos_exact x (2 ^ (prec - 1))). rewrite <- Eq.
    assert (Ex : (x == pow2 (j + prec))%Q).
    { apply Qle_antisym; [exact Hle |].
      replace (j + prec) with (q + (prec - 1)) by lia. exact Lo. }
    rewrite Ex, scaled_pow2, Ej.
    replace (j + prec - (j + 1)) with (prec - 1) by lia.
    apply pow2_Z. unfold prec. lia.
Qed.

Lemma rn_pos_near (x : Q) (m : Z) :
  (inject_Z m - (1 # 2) < x / pow2 (quantum x))%Q ->
  (x / pow2 (quantum x) < inject_Z m + (1 # 2))%Q ->
  (rn_pos x == inject_Z m * pow2 (quantum x))%Q.
Proof.
  intros Lo Hi. unfold rn_pos. rewrite (rhe_near _ m Lo Hi). reflexivity.
Qed.

Lemma Qle_bool_false (a b : Q) : Qle_bool a b = false <-> (b < a)%Q.
Proof.
  split; intros H.
  - apply Qnot_le_lt. intros Hle. apply Qle_bool_iff in Hle. congruence.
  - destruct (Qle_bool a b) eqn:E; trivial.
    apply Qle_bool_iff in E. exfalso. apply (Qlt_not_le _ _ H E).
Qed.

Lemma Qle_bool_compat (a b c d : Q) :
  (a == c)%Q -> (b == d)%Q -> Qle_bool a b = Qle_bool c d.
Proof.
  intros E1 E2. destruct (Qle_bool c d) eqn:E.
  - apply Qle_bool_iff. apply Qle_bool_iff in E. rewrite E1, E2. exact E.
  - apply Qle_bool_false. apply Qle_bool_false in E. rewrite E1, E2. exact E.
Qed.

Lemma RN_char (x : Q) :
  RN x = if Qle_bool (pow2 emax) (Rq x) then Inf false
         else if Qle_bool (Rq x) (- pow2 emax) then Inf true
         else Fin (Qred (Rq x)).
Proof.
  pose proof (pow2_pos emax) as Hp.
  unfold RN, Rq. destruct (Qcompare_spec x 0) as [E | L | G].
  - replace (Qle_bool (pow2 emax) 0) with false
      by (symmetry; apply Qle_bool_false; exact Hp).
    replace (Qle_bool 0 (- pow2 emax)) with false
      by (symmetry; apply Qle_bool_false; lra).
    reflexivity.
  - assert (Hx : (0 < - x)%Q) by lra.
    pose proof (rn_pos_nonneg (- x) Hx) as Hr. cbv zeta.
    replace (Qle_bool (pow2 emax) (- rn_pos (- x))) with false
      by (symmetry; apply Qle_bool_false; lra).
    destruct (Qle_bool (pow2 emax) (rn_pos (- x))) eqn:E1;
      destruct (Qle_bool (- rn_pos (- x)) (- pow2 emax)) eqn:E2; trivial.
    + apply Qle_bool_iff in E1. apply Qle_bool_false in E2. exfalso. lra.
    + apply Qle_bool_iff in E2. apply Qle_bool_false in E1. exfalso. lra.
  - pose proof (rn_pos_nonneg x G) as Hr. cbv zeta.
    destruct (Qle_bool (pow2 emax) (rn_pos x)); trivial.
    replace (Qle_bool (rn_pos x) (- pow2 emax)) with false
      by (symmetry; apply Qle_bool_false; lra).
    reflexivity.
Qed.

Lemma Rq_mono (x y : Q) : (x <= y)%Q -> (Rq x <= Rq y)%Q.
Proof.
  intros Hxy. unfold Rq.
  destruct (Qcompare_spec x 0) as [Ex | Lx | Gx];
    destruct (Qcompare_spec y 0) as [Ey | Ly | Gy];
    try (exfalso; lra); try apply Qle_refl.
  - apply rn_pos_nonneg, Gy.
  - assert (H : (0 <= rn_pos (- x))%Q) by (apply rn_pos_nonneg; lra). lra.
  - assert (H : (rn_pos (- y) <= rn_pos (- x))%Q)
      by (apply rn_pos_mono; lra). lra.
  - assert (H : (0 <= rn_pos (- x))%Q) by (apply rn_pos_nonneg; lra).
    pose proof (rn_pos_nonneg y Gy). lra.
  - apply rn_pos_mono; assumption.
Qed.

Lemma Rq_compat (x y : Q) : (x == y)%Q -> (Rq x == Rq y)%Q.
Proof.
  intros E. apply Qle_antisym; apply Rq_mono; rewrite E; apply Qle_refl.
Qed.

Lemma RN_compat (x y : Q) : (x == y)%Q -> RN x = RN y.
Proof.
  intros E. rewrite !RN_char. pose proof (Rq_compat x y E) as Er.
  rewrite (Qle_bool_compat (pow2 emax) (Rq x) (pow2 emax) (Rq y)),
          (Qle_bool_compat (Rq x) (- pow2 emax) (Rq y) (- pow2 emax)),
          (Qred_complete _ _ Er); trivial; reflexivity.
Qed.

Lemma RN_mono (x y : Q) : (x <= y)%Q -> (RN x <=? RN y)%flt = true.
Proof.
  intros Hxy. pose proof (Rq_mono x y Hxy) as Hr.
  pose proof (pow2_pos emax) as Hp.
  rewrite !RN_char.
  destruct (Qle_bool (pow2 emax) (Rq x)) eqn:X1;
    destruct (Qle_bool (pow2 emax) (Rq y)) eqn:Y1;
    destruct (Qle_bool (Rq x) (- pow2 emax)) eqn:X2;
    destruct (Qle_bool (Rq y) (- pow2 emax)) eqn:Y2;
    try reflexivity;
    repeat match goal with
      | H : Qle_bool _ _ = true |- _ => apply Qle_bool_iff in H
      | H : Qle_bool _ _ = false |- _ => apply Qle_bool_false in H
      end;
    try (exfalso; lra).
  unfold leb. apply Qle_bool_iff. rewrite !Qred_correct. exact Hr.
Qed.

Lemma Rq_id (x : Q) (k j : Z) :
  0 <= k <= 2 ^ prec -> emin <= j ->
  (x == inject_Z k * pow2 j)%Q -> (Rq x == x)%Q.
Proof.
  intros Hk Hj E. unfold Rq.
  destruct (Qcompare_spec x 0) as [E0 | L | G].
  - symmetry. exact E0.
  - exfalso. apply (Qlt_not_le _ _ L). rewrite E.
    apply Qmult_le_0_compat; [| apply Qlt_le_weak, pow2_pos].
    rewrite <- (Zle_Qle 0). lia.
  - apply (rn_pos_id x k j); trivial.
    assert (k <> 0); [| lia].
    intros ->. rewrite E in G. apply (Qlt_irrefl 0).
    eapply Qlt_le_trans; [exact G |]. apply Qle_lteq. right. ring.
Qed.

(** A value on the grid of its binade is a float: rounding returns it. *)
Lemma RN_exact (x : Q) (k j : Z) :
  0 <= k <= 2 ^ prec -> emin <= j ->
  (x == inject_Z k * pow2 j)%Q -> (x < pow2 emax)%Q ->
  RN x = Fin (Qred x).
Proof.
  intros Hk Hj E Hlt. pose proof (Rq_id x k j Hk Hj E) as Er.
  assert (H0 : (0 <= x)%Q).
  { rewrite E. apply Qmult_le_0_compat; [| apply Qlt_le_weak, pow2_pos].
    rewrite <- (Zle_Qle 0). lia. }
  pose proof (pow2_pos emax) as Hp.
  rewrite RN_char.
  replace (Qle_bool (pow2 emax) (Rq x)) with false
    by (symmetry; apply Qle_bool_false; rewrite Er; exact Hlt).
  replace (Qle_bool (Rq x) (- pow2 emax)) with false
    by (symmetry; apply Qle_bool_false; rewrite Er; lra).
  rewrite (Qred_complete _ _ Er). reflexivity.
Qed.

Lemma pow2_emax_big (n : Z) : 0 <= n <= 2 ^ prec -> (inject_Z n < pow2 emax)%Q.
Proof.
  intros H. rewrite pow2_Z by (unfold emax; lia). rewrite <- Zlt_Qlt.
  eapply Z.le_lt_trans; [apply H |]. apply Z.pow_lt_mono_r; unfold prec, emax; lia.
Qed.

Lemma Qred_inject_Z (z : Z) : Qred (inject_Z z) = inject_Z z.
Proof.
  unfold Qred, inject_Z.
  pose proof (Z.ggcd_gcd z 1) as G.
  pose proof (Z.ggcd_correct_divisors z 1) as D.
  destruct (Z.ggcd z 1) as [g [aa bb]]. cbn in *.
  rewrite Z.gcd_1_r in G. subst g. destruct D as [-> D].
  replace bb with 1 by lia. f_equal. destruct aa; reflexivity.
Qed.

Lemma of_int_exact (z : Z) : 0 <= z <= 2 ^ prec -> of_int z = Fin (inject_Z z).
Proof.
  intros Hz. unfold of_int.
  rewrite (RN_exact (inject_Z z) z 0); trivial.
  - f_equal. apply Qred_inject_Z.
  - unfold emin. lia.
  - change (pow2 0) with 1%Q. ring.
  - apply pow2_emax_big, Hz.
Qed.

Lemma leb_Fin_l (a : Q) (f : float) :
  (Fin a <=? f)%flt = true ->
  f = Inf false \/ exists q, f = Fin q /\ (a <= q)%Q.
Proof.
  destruct f as [| [|] | q]; cbn; intros H; try discriminate; auto.
  right. exists q. split; trivial. apply Qle_bool_iff, H.
Qed.

Lemma leb_Fin_r (b : Q) (f : float) :
  (f <=? Fin b)%flt = true ->
  f = Inf true \/ exists q, f = Fin q /\ (q <= b)%Q.
Proof.
  destruct f as [| [|] | q]; cbn; intros H; try discriminate; auto.
  right. exists q. split; trivial. apply Qle_bool_iff, H.
Qed.

Lemma leb_between (a b : Q) (f : float) :
  (Fin a <=? f)%flt = true -> (f <=? Fin b)%flt = true ->
  exists q, f = Fin q /\ (a <= q)%Q /\ (q <= b)%Q.
Proof.
  intros Ha Hb.
  destruct (leb_Fin_l a f Ha) as [-> | [q [-> Hq]]]; [discriminate |].
  exists q. repeat split; trivial. apply Qle_bool_iff, Hb.
Qed.

(** Rounding stays between the roundings of a lower and an upper bound. *)
Lemma RN_between (lo hi x a b : Q) :
  (lo <= x)%Q -> (x <= hi)%Q -> RN lo = Fin a -> RN hi = Fin b ->
  exists q, RN x = Fin q /\ (a <= q)%Q /\ (q <= b)%Q.
Proof.
  intros Hlo Hhi Ea Eb. apply leb_between.
  - rewrite <- Ea. apply RN_mono, Hlo.
  - rewrite <- Eb. apply RN_mono, Hhi.
Qed.

(** On [[0, 2^(j+prec)]] the floats include the multiples of [2^j], so the
    rounding of [x] lies between the two multiples that enclose [x]. *)
Lemma RN_grid (x : Q) (j : Z) :
  emin <= j -> j + prec < emax ->
  (0 <= x)%Q -> (x <= pow2 (j + prec))%Q ->
  exists q, RN x = Fin q
            /\ (inject_Z (Qfloor (x / pow2 j)) * pow2 j <= q)%Q
            /\ (q <= inject_Z (Qceiling (x / pow2 j)) * pow2 j)%Q.
Proof.
  intros Hj Hjm H0 Hx.
  assert (Hs0 : (0 <= x / pow2 j)%Q).
  { unfold Qdiv. apply Qmult_le_0_compat; trivial.
    apply Qlt_le_weak, Qinv_lt_0_compat, pow2_pos. }
  assert (Hs1 : (x / pow2 j <= inject_Z (2 ^ prec))%Q).
  { rewrite <- pow2_Z by (unfold prec; lia).
    setoid_replace (pow2 prec) with (pow2 (j + prec) / pow2 j)%Q.
    - apply scaled_le, Hx.
    - rewrite scaled_pow2. replace (j + prec - j) with prec by lia. reflexivity. }
  assert (Hf : 0 <= Qfloor (x / pow2 j) <= 2 ^ prec).
  { split.
    - rewrite <- (Qfloor_Z 0). apply Qfloor_resp_le, Hs0.
    - rewrite <- (Qfloor_Z (2 ^ prec)). apply Qfloor_resp_le, Hs1. }
  assert (Hc : 0 <= Qceiling (x / pow2 j) <= 2 ^ prec).
  { split.
    - rewrite <- (Qceiling_Z 0). apply Qceiling_resp_le, Hs0.
    - rewrite <- (Qceiling_Z (2 ^ prec)). apply Qceiling_resp_le, Hs1. }
  assert (Htop : forall k, 0 <= k <= 2 ^ prec ->
                           (inject_Z k * pow2 j < pow2 emax)%Q).
  { intros k Hk. apply Qle_lt_trans with (pow2 (j + prec)).
    - rewrite <- (unscale_int prec j) by (unfold prec; lia).
      apply Qmult_le_compat_r; [| apply Qlt_le_weak, pow2_pos].
      rewrite <- Zle_Qle. lia.
    - apply pow2_lt. exact Hjm. }
  pose proof (scaled_back x j) as Eb.
  destruct (RN_between (inject_Z (Qfloor (x / pow2 j)) * pow2 j)
              (inject_Z (Qceiling (x / pow2 j)) * pow2 j) x
              (Qred (inject_Z (Qfloor (x / pow2 j)) * pow2 j))
              (Qred (inject_Z (Qceiling (x / pow2 j)) * pow2 j)))
    as [q [Eq [Lo Hi]]].
  - rewrite <- Eb at 2.
    apply Qmult_le_compat_r; [apply Qfloor_le | apply Qlt_le_weak, pow2_pos].
  - rewrite <- Eb at 1.
    apply Qmult_le_compat_r; [apply Qle_ceiling | apply Qlt_le_weak, pow2_pos].
  - apply (RN_exact _ (Qfloor (x / pow2 j)) j); trivial; [reflexivity | auto].
  - apply (RN_exact _ (Qceiling (x / pow2 j)) j); trivial; [reflexivity | auto].
  - exists q. rewrite !Qred_correct in *. auto.
Qed.

End F64Facts.

Import F64Facts.

(** * Properties of the analysis *)

(** ** The guard and the percentages of the freshness analyzer *)

Module FreshnessFacts.

Lemma Qfloor_unique (p : Q) (n : Z) :
  (inject_Z n <= p)%Q -> (p < inject_Z n + 1)%Q -> Qfloor p = n.
Proof.
  intros Lo Hi.
  pose proof (Qfloor_le p) as A. pose proof (Qlt_floor p) as B.
  rewrite inject_Z_succ in B.
  assert (L : (inject_Z (Qfloor p) < inject_Z (n + 1))%Q)
    by (rewrite inject_Z_succ; lra).
  assert (U : (inject_Z n < inject_Z (Qfloor p + 1))%Q)
    by (rewrite inject_Z_succ; lra).
  rewrite <- Zlt_Qlt in L, U. lia.
Qed.

Lemma Qtrunc_nonneg (p : Q) : (0 <= p)%Q -> Py.Qtrunc p = Qfloor p.
Proof.
  intros H. unfold Py.Qtrunc.
  replace (Qle_bool 0 p) with true; trivial.
  symmetry. apply Qle_bool_iff, H.
Qed.

(** Absolute error of a rounding inside [[0, 2^(j+prec)]]. *)
Lemma RN_abs_error (x : Q) (j : Z) :
  emin <= j -> j + prec < emax ->
  (0 <= x)%Q -> (x <= pow2 (j + prec))%Q ->
  exists q, RN x = Fin q /\ (0 <= q)%Q /\ (q <= pow2 (j + prec))%Q
            /\ (x - pow2 j < q)%Q /\ (q < x + pow2 j)%Q.
Proof.
  intros Hj Hjm H0 Hx.
  destruct (RN_grid x j Hj Hjm H0 Hx) as [q [E [Lo Hi]]].
  exists q. split; trivial.
  pose proof (pow2_pos j) as Hp.
  pose proof (scaled_back x j) as Eb.
  pose proof (Qfloor_le (x / pow2 j)) as F1.
  pose proof (Qlt_floor (x / pow2 j)) as F2.
  pose proof (Qle_ceiling (x / pow2 j)) as C1.
  pose proof (Qceiling_lt (x / pow2 j)) as C2.
  rewrite inject_Z_succ in F2.
  unfold Z.sub in C2. rewrite inject_Z_plus in C2.
  change (inject_Z (Z.opp 1)) with (- (1))%Q in C2.
  set (s := (x / pow2 j)%Q) in *.
  set (f := inject_Z (Qfloor s)) in *. set (c := inject_Z (Qceiling s)) in *.
  assert (Hs0 : (0 <= s)%Q).
  { unfold s, Qdiv. apply Qmult_le_0_compat; trivial.
    apply Qlt_le_weak, Qinv_lt_0_compat, Hp. }
  assert (Hs1 : (s <= inject_Z (2 ^ prec))%Q).
  { rewrite <- pow2_Z by (unfold prec; lia).
    setoid_replace (pow2 prec) with (pow2 (j + prec) / pow2 j)%Q.
    - apply scaled_le, Hx.
    - rewrite scaled_pow2. replace (j + prec - j) with prec by lia. reflexivity. }
  assert (Hf0 : (0 <= f)%Q).
  { unfold f. rewrite <- (Zle_Qle 0). rewrite <- (Qfloor_Z 0).
    apply Qfloor_resp_le, Hs0. }
  assert (Hc1 : (c <= inject_Z (2 ^ prec))%Q).
  { unfold c. rewrite <- Zle_Qle. rewrite <- (Qceiling_Z (2 ^ prec)).
    apply Qceiling_resp_le, Hs1. }
  assert (M1 : (f * pow2 j <= q)%Q) by exact Lo.
  assert (M2 : (q <= c * pow2 j)%Q) by exact Hi.
  assert (P1 : (0 <= f * pow2 j)%Q)
    by (apply Qmult_le_0_compat; [exact Hf0 | lra]).
  assert (P2 : (c * pow2 j <= pow2 (j + prec))%Q).
  { rewrite <- (unscale_int prec j) by (unfold prec; lia).
    apply Qmult_le_compat_r; [exact Hc1 | lra]. }
  assert (P3 : ((s - 1) * pow2 j < f * pow2 j)%Q)
    by (apply Qmult_lt_compat_r; [exact Hp | lra]).
  assert (P4 : (c * pow2 j < (s + 1) * pow2 j)%Q)
    by (apply Qmult_lt_compat_r; [exact Hp | lra]).
  assert (E1 : ((s - 1) * pow2 j == x - pow2 j)%Q) by (rewrite <- Eb; fold s; ring).
  assert (E2 : ((s + 1) * pow2 j == x + pow2 j)%Q) by (rewrite <- Eb; fold s; ring).
  rewrite E1 in P3. rewrite E2 in P4.
  repeat split; lra.
Qed.

Lemma of_int_100 : of_int 100 = Fin 100.
Proof. apply (of_int_exact 100). unfold prec. lia. Qed.

Lemma ratio_in_unit (x a : Z) :
  0 <= x <= a -> 0 < a ->
  (0 <= inject_Z x / inject_Z a)%Q /\ (inject_Z x / inject_Z a <= 1)%Q.
Proof.
  intros Hx Ha.
  assert (HA : (0 < inject_Z a)%Q) by (rewrite <- (Zlt_Qlt 0); lia).
  split.
  - apply Qle_shift_div_l; trivial. rewrite Qmult_0_l, <- (Zle_Qle 0). lia.
  - apply Qle_shift_div_r; trivial. rewrite Qmult_1_l, <- Zle_Qle. lia.
Qed.

Lemma truediv_error (x a : Z) :
  0 <= x <= a -> 0 < a ->
  exists q, Py.int_truediv x a = Some (Fin q)
            /\ (0 <= q)%Q /\ (q <= 1)%Q
            /\ (inject_Z x / inject_Z a - pow2 (-53) < q)%Q
            /\ (q < inject_Z x / inject_Z a + pow2 (-53))%Q.
Proof.
  intros Hx Ha. destruct (ratio_in_unit x a Hx Ha) as [X0 X1].
  destruct (RN_abs_error (inject_Z x / inject_Z a) (-53)) as [q [E H]];
    try (unfold emin, emax, prec; lia); trivial.
  exists q. unfold Py.int_truediv.
  replace (a =? 0) with false by (symmetry; apply Z.eqb_neq; lia).
  rewrite E. split; trivial.
Qed.

Lemma percent_error (x a : Z) :
  0 <= x <= a -> 0 < a ->
  exists p, percent_of x a = Some (Qfloor p)
            /\ (0 <= p)%Q
            /\ (100 * (inject_Z x / inject_Z a) - pow2 (-45) < p)%Q
            /\ (p < 100 * (inject_Z x / inject_Z a) + pow2 (-45))%Q.
Proof.
  intros Hx Ha.
  destruct (truediv_error x a Hx Ha) as [q [E [Q0 [Q1 [Q2 Q3]]]]].
  destruct (RN_abs_error (100 * q) (-46)) as [p [Ep [P0 [_ [P2 P3]]]]];
    try (unfold emin, emax, prec; lia).
  - lra.
  - change (pow2 (-46 + prec)) with 128%Q. lra.
  - exists p. unfold percent_of. rewrite E, of_int_100.
    change (Fin 100 * Fin q)%flt with (RN (100 * q)). rewrite Ep.
    cbn [Py.int_of_float]. rewrite Qtrunc_nonneg by exact P0.
    assert (E53 : (pow2 (-53) == 1 # 9007199254740992)%Q) by reflexivity.
    assert (E46 : (pow2 (-46) == 1 # 70368744177664)%Q) by reflexivity.
    assert (E45 : (pow2 (-45) == 1 # 35184372088832)%Q) by reflexivity.
    repeat split; trivial; lra.
Qed.

Lemma percent_floor (x a : Z) :
  0 <= x <= a -> 0 < a <= 2 ^ 32 -> (100 * x) mod a <> 0 ->
  percent_of x a = Some (100 * x / a).
Proof.
  intros Hx Ha Hr.
  destruct (percent_error x a Hx) as [p [E [P0 [P1 P2]]]]; [lia |].
  rewrite E. f_equal.
  pose proof (Z.div_mod (100 * x) a ltac:(lia)) as Hdm.
  pose proof (Z.mod_pos_bound (100 * x) a ltac:(lia)) as Hmb.
  set (n := 100 * x / a) in *. set (r := (100 * x) mod a) in *.
  assert (HA : (0 < inject_Z a)%Q) by (rewrite <- (Zlt_Qlt 0); lia).
  set (i := (/ inject_Z a)%Q).
  assert (Hi : (inject_Z a * i == 1)%Q)
    by (apply Qmult_inv_r; intros E0; rewrite E0 in HA; discriminate).
  assert (Hi0 : (0 < i)%Q) by (apply Qinv_lt_0_compat, HA).
  assert (EX : (100 * (inject_Z x / inject_Z a) == inject_Z n + inject_Z r * i)%Q).
  { unfold Qdiv. fold i.
    setoid_replace (100 * (inject_Z x * i))%Q with (inject_Z (100 * x) * i)%Q
      by (rewrite inject_Z_mult; change (inject_Z 100) with 100%Q; ring).
    rewrite Hdm, inject_Z_plus, inject_Z_mult.
    setoid_replace ((inject_Z a * inject_Z n + inject_Z r) * i)%Q
      with (inject_Z n * (inject_Z a * i) + inject_Z r * i)%Q by ring.
    rewrite Hi. ring. }
  assert (R1 : (1 * i <= inject_Z r * i)%Q).
  { apply Qmult_le_compat_r; [| lra]. rewrite <- (Zle_Qle 1). lia. }
  assert (R2 : (inject_Z r * i <= (inject_Z a - 1) * i)%Q).
  { apply Qmult_le_compat_r; [| lra].
    setoid_replace (inject_Z a - 1)%Q with (inject_Z (a - 1))
      by (unfold Z.sub; rewrite inject_Z_plus; reflexivity).
    rewrite <- Zle_Qle. lia. }
  assert (R3 : (inject_Z a * i <= inject_Z (2 ^ 32) * i)%Q).
  { apply Qmult_le_compat_r; [| lra]. rewrite <- Zle_Qle. lia. }
  change (inject_Z (2 ^ 32)) with 4294967296%Q in R3.
  assert (R4 : ((inject_Z a - 1) * i == 1 - i)%Q).
  { setoid_replace ((inject_Z a - 1) * i)%Q with (inject_Z a * i - i)%Q by ring.
    rewrite Hi. reflexivity. }
  assert (E45 : (pow2 (-45) == 1 # 35184372088832)%Q) by reflexivity.
  apply Qfloor_unique; lra.
Qed.

Lemma percent_divisible (x a n : Z) :
  0 < a -> 100 * x = n * a -> percent_of x a = percent_of n 100.
Proof.
  intros Ha E. unfold percent_of, Py.int_truediv.
  replace (a =? 0) with false by (symmetry; apply Z.eqb_neq; lia).
  change (100 =? 0) with false. cbv iota.
  rewrite (RN_compat (inject_Z x / inject_Z a) (inject_Z n / inject_Z 100));
    trivial.
  assert (HA : ~ (inject_Z a == 0)%Q).
  { intros E0. assert (H : (0 < inject_Z a)%Q) by (rewrite <- (Zlt_Qlt 0); lia).
    rewrite E0 in H. discriminate. }
  assert (EQ : (inject_Z 100 * inject_Z x == inject_Z n * inject_Z a)%Q)
    by (rewrite <- !inject_Z_mult, E; reflexivity).
  change (inject_Z 100) with 100%Q in *.
  apply (Qmult_inj_r _ _ (100 * inject_Z a)).
  - intros E0. apply HA. apply (Qmult_inj_l _ _ 100); [discriminate |].
    rewrite E0. ring.
  - setoid_replace (inject_Z x / inject_Z a * (100 * inject_Z a))%Q
      with (100 * inject_Z x)%Q by (field; exact HA).
    setoid_replace (inject_Z n / 100 * (100 * inject_Z a))%Q
      with (inject_Z n * inject_Z a)%Q by field.
    exact EQ.
Qed.

Lemma Z_range_forallb (P : Z -> bool) (k : nat) :
  forallb P (map Z.of_nat (seq 0 k)) = true ->
  forall n, 0 <= n < Z.of_nat k -> P n = true.
Proof.
  intros H n Hn. rewrite forallb_forall in H. apply H.
  apply in_map_iff. exists (Z.to_nat n). split; [lia |].
  apply in_seq. lia.
Qed.

Lemma option_Z_eqb_eq (a b : option Z) : option_Z_eqb a b = true -> a = b.
Proof.
  destruct a, b; cbn; intros H; try discriminate; trivial.
  apply Z.eqb_eq in H. congruence.
Qed.

Lemma percent_whole (n : Z) :
  0 <= n <= 100 ->
  percent_of n 100 = Some (if biased n then n - 1 else n).
Proof.
  intros Hn. apply option_Z_eqb_eq.
  apply (Z_range_forallb
           (fun n => option_Z_eqb (percent_of n 100)
                       (Some (if biased n then n - 1 else n))) 101).
  - vm_compute. reflexivity.
  - lia.
Qed.

Lemma percent_of_spec (x a : Z) :
  0 <= x <= a -> 0 < a <= 2 ^ 32 ->
  percent_of x a = Some (truncated_percent x a).
Proof.
  intros Hx Ha. unfold truncated_percent.
  destruct (Z.eqb_spec ((100 * x) mod a) 0) as [E | N].
  - pose proof (Z.div_mod (100 * x) a ltac:(lia)) as Hdm.
    rewrite E, Z.add_0_r in Hdm.
    rewrite (percent_divisible x a (100 * x / a)) by lia.
    cbn [andb]. apply percent_whole.
    split; [apply Z.div_pos; lia |].
    apply Z.div_le_upper_bound; lia.
  - cbn [andb]. apply percent_floor; trivial.
Qed.

Lemma RN_of_Rq (x v : Q) :
  (Rq x == v)%Q -> (- pow2 emax < v)%Q -> (v < pow2 emax)%Q ->
  RN x = Fin (Qred v).
Proof.
  intros E Lo Hi. rewrite RN_char.
  replace (Qle_bool (pow2 emax) (Rq x)) with false
    by (symmetry; apply Qle_bool_false; rewrite E; exact Hi).
  replace (Qle_bool (Rq x) (- pow2 emax)) with false
    by (symmetry; apply Qle_bool_false; rewrite E; exact Lo).
  rewrite (Qred_complete _ _ E). reflexivity.
Qed.

(** An integer scaled up by [1 + 2^-54] still rounds to that integer: the
    excess is below half a unit in the last place. *)
Lemma RN_just_above (a : Z) :
  0 < a < 2 ^ prec ->
  RN (inject_Z a * (1 + pow2 (-54))) = Fin (inject_Z a).
Proof.
  intros Ha.
  assert (E54 : (pow2 (-54) == 1 # 18014398509481984)%Q) by reflexivity.
  destruct (Z.log2_spec a ltac:(lia)) as [L1 L2].
  pose proof (Z.log2_nonneg a) as L0.
  set (L := Z.log2 a) in *.
  assert (HL : L <= 52).
  { destruct (Z_le_gt_dec L 52); trivial. exfalso.
    assert (2 ^ prec <= 2 ^ L) by (apply Z.pow_le_mono_r; unfold prec; lia). lia. }
  set (x := (inject_Z a * (1 + pow2 (-54)))%Q).
  assert (HA : (0 < inject_Z a)%Q) by (rewrite <- (Zlt_Qlt 0); lia).
  assert (HA53 : (inject_Z a < inject_Z (2 ^ prec))%Q) by (rewrite <- Zlt_Qlt; lia).
  change (inject_Z (2 ^ prec)) with 9007199254740992%Q in HA53.
  assert (Hx0 : (inject_Z a <= x)%Q) by (unfold x; nra).
  assert (Hx1 : (x < inject_Z a + 1)%Q) by (unfold x; nra).
  assert (Elog : ilog2 x = L).
  { apply ilog2_unique.
    - rewrite pow2_Z by lia. eapply Qle_trans; [| exact Hx0].
      rewrite <- Zle_Qle. exact L1.
    - rewrite pow2_Z by lia. eapply Qlt_le_trans; [exact Hx1 |].
      rewrite <- inject_Z_succ, <- Zle_Qle.
      replace (Z.succ L) with (L + 1) in L2 by lia. lia. }
  assert (Equ : quantum x = L - 52)
    by (unfold quantum; rewrite Elog; unfold prec, emin; lia).
  set (m := a * 2 ^ (52 - L)).
  assert (Hm : m < 2 ^ prec).
  { unfold m. replace prec with ((L + 1) + (52 - L)) by (unfold prec; lia).
    rewrite Z.pow_add_r by lia.
    replace (Z.succ L) with (L + 1) in L2 by lia.
    apply Z.mul_lt_mono_pos_r; [apply Z.pow_pos_nonneg; lia | exact L2]. }
  assert (Hm0 : 0 < m) by (unfold m; apply Z.mul_pos_pos; [lia | apply Z.pow_pos_nonneg; lia]).
  assert (Em : (inject_Z m * pow2 (L - 52) == inject_Z a)%Q).
  { unfold m. rewrite inject_Z_mult, <- pow2_Z by lia.
    rewrite <- Qmult_assoc, <- pow2_add.
    replace (52 - L + (L - 52)) with 0 by lia. change (pow2 0) with 1%Q. ring. }
  assert (Es : (x / pow2 (quantum x) == inject_Z m * (1 + pow2 (-54)))%Q).
  { rewrite Equ. unfold x. rewrite <- Em. field. apply pow2_nz. }
  assert (HM0 : (0 < inject_Z m)%Q) by (rewrite <- (Zlt_Qlt 0); lia).
  assert (HM53 : (inject_Z m < inject_Z (2 ^ prec))%Q) by (rewrite <- Zlt_Qlt; lia).
  change (inject_Z (2 ^ prec)) with 9007199254740992%Q in HM53.
  assert (Er : (rn_pos x == inject_Z a)%Q).
  { rewrite (rn_pos_near x m).
    - rewrite Equ. exact Em.
    - rewrite Es. nra.
    - rewrite Es. nra. }
  rewrite (RN_of_Rq x (inject_Z a)).
  - f_equal. apply Qred_inject_Z.
  - unfold Rq. destruct (Qcompare_spec x 0) as [E0 | Lt0 | Gt0]; trivial; exfalso; lra.
  - pose proof (pow2_pos emax). lra.
  - apply pow2_emax_big. lia.
Qed.

Lemma lit_005 : lit 5 100 = Fin c05.
Proof. vm_compute. reflexivity. Qed.

(** The guard [apple_pixels < 0.05 * total_pixels] decides exactly
    [20 * apple_pixels < total_pixels]. *)
Lemma fallback_test (a t : Z) :
  0 <= a <= 2 ^ 32 -> 0 <= t <= 2 ^ 31 ->
  Py.int_lt_float a (lit 5 100 * of_int t)%flt = (20 * a <? t).
Proof.
  intros Ha Ht.
  rewrite lit_005, of_int_exact by (unfold prec; lia).
  change (Fin c05 * Fin (inject_Z t))%flt with (RN (c05 * inject_Z t)).
  assert (HT : (0 <= inject_Z t)%Q) by (rewrite <- (Zle_Qle 0); lia).
  destruct (Z.ltb_spec (20 * a) t) as [Lt | Ge].
  - set (r := (inject_Z (32 * a + 1) * pow2 (-5))%Q).
    assert (Er : (r == inject_Z a + (1 # 32))%Q).
    { unfold r. rewrite inject_Z_plus, inject_Z_mult.
      change (pow2 (-5)) with (1 # 32)%Q. change (inject_Z 32) with 32%Q.
      change (inject_Z 1) with 1%Q. field. }
    assert (Hr : (r <= c05 * inject_Z t)%Q).
    { rewrite Er.
      assert (H : (inject_Z (20 * a + 1) <= inject_Z t)%Q)
        by (rewrite <- Zle_Qle; lia).
      rewrite inject_Z_plus, inject_Z_mult in H.
      change (inject_Z 20) with 20%Q in H. change (inject_Z 1) with 1%Q in H.
      unfold c05. lra. }
    pose proof (RN_mono _ _ Hr) as Hm.
    rewrite (RN_exact r (32 * a + 1) (-5)) in Hm;
      [| unfold prec; lia | unfold emin; lia | reflexivity |].
    + destruct (leb_Fin_l _ _ Hm) as [-> | [q [-> Hq]]]; [reflexivity |].
      cbn [Py.int_lt_float]. apply Qltb_true.
      rewrite Qred_correct, Er in Hq. lra.
    + rewrite Er. pose proof (pow2_emax_big (a + 1) ltac:(unfold prec; lia)) as B.
      rewrite inject_Z_succ in B. lra.
  - destruct (Z.eq_dec a 0) as [-> | Na].
    + assert (t = 0) by lia. subst t.
      rewrite (RN_compat (c05 * inject_Z 0) 0) by ring.
      reflexivity.
    + assert (Hx : (c05 * inject_Z t <= inject_Z a * (1 + pow2 (-54)))%Q).
      { assert (H : (inject_Z t <= inject_Z (20 * a))%Q)
          by (rewrite <- Zle_Qle; lia).
        rewrite inject_Z_mult in H. change (inject_Z 20) with 20%Q in H.
        assert (E54 : (pow2 (-54) == 1 # 18014398509481984)%Q) by reflexivity.
        rewrite E54. unfold c05. lra. }
      pose proof (RN_mono _ _ Hx) as Hm.
      rewrite RN_just_above in Hm by (unfold prec; lia).
      destruct (leb_Fin_r _ _ Hm) as [-> | [q [-> Hq]]]; [reflexivity |].
      cbn [Py.int_lt_float]. apply Qltb_false, Hq.
Qed.

Lemma freshness_from_counts_spec (f s t : Z) :
  0 <= f <= t -> 0 <= s <= t -> t < 2 ^ 31 ->
  freshness_from_counts f s t =
    if 20 * (f + s) <? t then Some (60, 30)
    else if f + s =? 0 then None
    else Some (truncated_percent f (f + s), truncated_percent s (f + s)).
Proof.
  intros Hf Hs Ht. unfold freshness_from_counts.
  rewrite fallback_test by lia.
  destruct (20 * (f + s) <? t); trivial.
  destruct (Z.eqb_spec (f + s) 0) as [E | N].
  - rewrite E. unfold Py.int_truediv. reflexivity.
  - pose proof (percent_of_spec f (f + s) ltac:(lia) ltac:(lia)) as Pf.
    pose proof (percent_of_spec s (f + s) ltac:(lia) ltac:(lia)) as Ps.
    unfold percent_of in Pf, Ps.
    destruct (Py.int_truediv f (f + s)); [| discriminate].
    destruct (Py.int_truediv s (f + s)); [| discriminate].
    rewrite Pf, Ps. reflexivity.
Qed.

Lemma count_eq_bounds (labels : list nat) (c : nat) :
  0 <= Np.count_eq labels c <= Z.of_nat (List.length labels).
Proof.
  unfold Np.count_eq. pose proof (filter_length_le (Nat.eqb c) labels). lia.
Qed.

Lemma biased_complement (n : Z) : biased n && biased (100 - n) = false.
Proof.
  unfold biased.
  destruct (Z.eqb_spec n 29), (Z.eqb_spec n 57), (Z.eqb_spec n 58);
    subst; try reflexivity; cbn [orb andb];
    destruct (Z.eqb_spec (100 - n) 29), (Z.eqb_spec (100 - n) 57),
             (Z.eqb_spec (100 - n) 58); try reflexivity; lia.
Qed.

Lemma truncated_percent_sum (f s : Z) :
  0 <= f -> 0 <= s -> 0 < f + s ->
  truncated_percent f (f + s) + truncated_percent s (f + s) = 99
  \/ truncated_percent f (f + s) + truncated_percent s (f + s) = 100.
Proof.
  intros Hf Hs Ha. set (a := f + s) in *.
  pose proof (Z.div_mod (100 * f) a ltac:(lia)) as Hdm.
  pose proof (Z.mod_pos_bound (100 * f) a Ha) as Hmb.
  unfold truncated_percent. cbv zeta.
  set (n := 100 * f / a) in *. set (r := (100 * f) mod a) in *.
  destruct (Z.eq_dec r 0) as [E | N].
  - assert (Es : 100 * s = a * (100 - n) + 0) by (unfold a in *; lia).
    rewrite <- (Z.div_unique (100 * s) a (100 - n) 0) by lia.
    rewrite <- (Z.mod_unique (100 * s) a (100 - n) 0) by lia.
    rewrite E. cbn [Z.eqb andb].
    pose proof (biased_complement n) as B.
    destruct (biased n), (biased (100 - n)); try discriminate; lia.
  - assert (Es : 100 * s = a * (99 - n) + (a - r)) by (unfold a in *; lia).
    rewrite <- (Z.div_unique (100 * s) a (99 - n) (a - r)) by lia.
    rewrite <- (Z.mod_unique (100 * s) a (99 - n) (a - r)) by lia.
    replace (r =? 0) with false by (symmetry; apply Z.eqb_neq; lia).
    replace (a - r =? 0) with false by (symmetry; apply Z.eqb_neq; lia).
    cbn [andb]. lia.
Qed.

Lemma truncated_percent_half (f : Z) : 0 < f -> truncated_percent f (f + f) = 50.
Proof.
  intros Hf. unfold truncated_percent. cbv zeta.
  rewrite <- (Z.div_unique (100 * f) (f + f) 50 0) by lia.
  rewrite <- (Z.mod_unique (100 * f) (f + f) 50 0) by lia.
  reflexivity.
Qed.

Lemma truncated_percent_floor (x a : Z) :
  0 < a ->
  truncated_percent x a = 100 * x / a
  \/ (truncated_percent x a = 100 * x / a - 1
      /\ 100 * x = (100 * x / a) * a /\ biased (100 * x / a) = true).
Proof.
  intros Ha. unfold truncated_percent. cbv zeta.
  destruct (Z.eqb_spec ((100 * x) mod a) 0) as [E | N]; cbn [andb]; auto.
  destruct (biased (100 * x / a)) eqn:B; auto.
  right. repeat split; trivial.
  pose proof (Z.div_mod (100 * x) a ltac:(lia)). lia.
Qed.

End FreshnessFacts.

Import FreshnessFacts.

(** * Agreement with the Standard Library's binary64

    The operations above round exact rationals; [SpecFloat] computes on
    mantissas and exponents.  On the computations that the proofs below
    evaluate, the two give the same doubles. *)

Module Ieee754Agreement.

(** The quotient [n / 100] of the whole percentages. *)
Lemma truediv_agrees (n : Z) :
  0 <= n <= 100 ->
  agree (RN (inject_Z n / inject_Z 100)) (SF_lit n 100) = true.
Proof.
  intros H.
  apply (Z_range_forallb
           (fun n => agree (RN (inject_Z n / inject_Z 100)) (SF_lit n 100)) 101);
    [fcompute | lia].
Qed.

(** The product [100 * (n / 100)]. *)
Lemma percent_product_agrees (n : Z) :
  0 <= n <= 100 ->
  agree (of_int 100 * RN (inject_Z n / inject_Z 100))%flt
        (SFmul 53 1024 (Z2SF 100) (SF_lit n 100)) = true.
Proof.
  intros H.
  apply (Z_range_forallb
           (fun n => agree (of_int 100 * RN (inject_Z n / inject_Z 100))%flt
                       (SFmul 53 1024 (Z2SF 100) (SF_lit n 100))) 101);
    [fcompute | lia].
Qed.

(** The dry-matter expression [10.0 + 0.08 * c] on the clamped inputs. *)
Lemma dry_matter_sum_agrees (c : Z) :
  0 <= c <= 100 ->
  agree (lit 10 1 + lit 8 100 * of_int c)%flt
        (SFadd 53 1024 (Z2SF 10) (SFmul 53 1024 (SF_lit 8 100) (Z2SF c))) = true.
Proof.
  intros H.
  apply (Z_range_forallb
           (fun c => agree (lit 10 1 + lit 8 100 * of_int c)%flt
                       (SFadd 53 1024 (Z2SF 10)
                          (SFmul 53 1024 (SF_lit 8 100) (Z2SF c)))) 101);
    [fcompute | lia].
Qed.

(** The guard's right-hand side [0.05 * total] on small images. *)
Lemma guard_product_agrees (t : Z) :
  0 <= t < 1000 ->
  agree (lit 5 100 * of_int t)%flt
        (SFmul 53 1024 (SF_lit 5 100) (Z2SF t)) = true.
Proof.
  intros H.
  apply (Z_range_forallb
           (fun t => agree (lit 5 100 * of_int t)%flt
                       (SFmul 53 1024 (SF_lit 5 100) (Z2SF t))) 1000);
    [fcompute | lia].
Qed.

(** The literals of the weight estimator and the width of its fallback. *)
Lemma weight_literals_agree :
  agree (lit 15 100) (SF_lit 15 100) = true
  /\ agree (lit 30 100) (SF_lit 30 100) = true
  /\ agree (lit 15 10000) (SF_lit 15 10000) = true
  /\ agree (lit 12 10) (SF_lit 12 10) = true
  /\ agree (lit 30 100 - lit 15 100)%flt
           (SFsub 53 1024 (SF_lit 30 100) (SF_lit 15 100)) = true.
Proof. repeat split; fcompute. Qed.

(** The two thirds of the counterexample to rounding, and its product. *)
Lemma two_thirds_agree :
  agree (RN (inject_Z 2 / inject_Z 3)) (SF_lit 2 3) = true
  /\ agree (of_int 100 * RN (inject_Z 2 / inject_Z 3))%flt
           (SFmul 53 1024 (Z2SF 100) (SF_lit 2 3)) = true.
Proof. split; fcompute. Qed.

End Ieee754Agreement.

(** ** Intervals through the float operations *)

Module IntervalFacts.

Lemma Qmult_le_compat_l (x y z : Q) :
  (0 <= z)%Q -> (x <= y)%Q -> (z * x <= z * y)%Q.
Proof.
  intros Hz H. rewrite (Qmult_comm z x), (Qmult_comm z y).
  apply Qmult_le_compat_r; assumption.
Qed.

Lemma mul_between (c x lo hi a b : Q) :
  (0 <= c)%Q -> (lo <= x)%Q -> (x <= hi)%Q ->
  (Fin c * Fin lo)%flt = Fin a -> (Fin c * Fin hi)%flt = Fin b ->
  exists q, (Fin c * Fin x)%flt = Fin q /\ (a <= q)%Q /\ (q <= b)%Q.
Proof.
  intros Hc Hlo Hhi Ea Eb. cbn [mul] in *.
  apply (RN_between (c * lo) (c * hi)); trivial;
    apply Qmult_le_compat_l; trivial.
Qed.

Lemma add_between (c x lo hi a b : Q) :
  (lo <= x)%Q -> (x <= hi)%Q ->
  (Fin c + Fin lo)%flt = Fin a -> (Fin c + Fin hi)%flt = Fin b ->
  exists q, (Fin c + Fin x)%flt = Fin q /\ (a <= q)%Q /\ (q <= b)%Q.
Proof.
  intros Hlo Hhi Ea Eb. cbn [add] in *.
  apply (RN_between (c + lo) (c + hi)); trivial; lra.
Qed.

Lemma pow10_pos (nd : Z) : 0 <= nd -> (0 < inject_Z (10 ^ nd))%Q.
Proof. intros H. rewrite <- (Zlt_Qlt 0). apply Z.pow_pos_nonneg; lia. Qed.

Lemma decimal_mono (x y : Q) (nd : Z) :
  0 <= nd -> (x <= y)%Q ->
  (inject_Z (round_half_even (x * inject_Z (10 ^ nd))) / inject_Z (10 ^ nd)
   <= inject_Z (round_half_even (y * inject_Z (10 ^ nd))) / inject_Z (10 ^ nd))%Q.
Proof.
  intros Hn H. pose proof (pow10_pos nd Hn) as Hs.
  unfold Qdiv. apply Qmult_le_compat_r.
  - rewrite <- Zle_Qle. apply rhe_mono. apply Qmult_le_compat_r; [exact H | lra].
  - apply Qlt_le_weak, Qinv_lt_0_compat, Hs.
Qed.

Lemma round_mono (x y : Q) (nd : Z) :
  0 <= nd -> (x <= y)%Q ->
  (Py.round (Fin x) nd <=? Py.round (Fin y) nd)%flt = true.
Proof.
  intros Hn H. cbn [Py.round]. apply RN_mono, decimal_mono; assumption.
Qed.

Lemma round_between (x lo hi a b : Q) (nd : Z) :
  0 <= nd -> (lo <= x)%Q -> (x <= hi)%Q ->
  Py.round (Fin lo) nd = Fin a -> Py.round (Fin hi) nd = Fin b ->
  exists q, Py.round (Fin x) nd = Fin q /\ (a <= q)%Q /\ (q <= b)%Q.
Proof.
  intros Hn Hlo Hhi Ea Eb. apply leb_between.
  - rewrite <- Ea. apply round_mono; assumption.
  - rewrite <- Eb. apply round_mono; assumption.
Qed.

(** A result of [round] is a literal with [ndigits] decimals. *)
Lemma round_decimal (x : Q) (nd : Z) :
  0 <= nd ->
  exists k : Z, Py.round (Fin x) nd = lit k (Z.to_pos (10 ^ nd)).
Proof.
  intros Hn. exists (round_half_even (x * inject_Z (10 ^ nd))).
  cbn [Py.round]. unfold lit. apply RN_compat.
  assert (Hp : 0 < 10 ^ nd) by (apply Z.pow_pos_nonneg; lia).
  rewrite (Qmake_Qdiv _ (Z.to_pos (10 ^ nd))).
  rewrite Z2Pos.id by exact Hp. reflexivity.
Qed.

(** Lower bounds survive an overflow to [+inf]. *)
Lemma mul_lower (c lo a : Q) (x : float) :
  (0 < c)%Q -> (Fin lo <=? x)%flt = true ->
  (Fin c * Fin lo)%flt = Fin a ->
  (Fin a <=? Fin c * x)%flt = true.
Proof.
  intros Hc Hx Ea.
  destruct (leb_Fin_l _ _ Hx) as [-> | [q [-> Hq]]].
  - cbn [mul]. destruct (Qcompare_spec c 0) as [E | L | G]; try reflexivity;
      exfalso; lra.
  - rewrite <- Ea. cbn [mul]. apply RN_mono.
    apply Qmult_le_compat_l; [lra | exact Hq].
Qed.

Lemma round_lower (lo a : Q) (x : float) (nd : Z) :
  0 <= nd -> (Fin lo <=? x)%flt = true ->
  Py.round (Fin lo) nd = Fin a ->
  (Fin a <=? Py.round x nd)%flt = true.
Proof.
  intros Hn Hx Ea.
  destruct (leb_Fin_l _ _ Hx) as [-> | [q [-> Hq]]].
  - reflexivity.
  - rewrite <- Ea. apply round_mono; assumption.
Qed.

(** [max(lo, min(hi, x))] is a finite value of [[lo, hi]], whatever [x]. *)
Lemma clamp_between (lo hi : Q) (x : float) :
  (lo <= hi)%Q ->
  exists q, Py.max (Fin lo) (Py.min (Fin hi) x) = Fin q
            /\ (lo <= q)%Q /\ (q <= hi)%Q.
Proof.
  intros H. unfold Py.max, Py.min, gtb.
  assert (Hhi : exists q, (if (Fin lo <? Fin hi)%flt then Fin hi else Fin lo) = Fin q
                          /\ (lo <= q)%Q /\ (q <= hi)%Q).
  { cbn [ltb]. destruct (Qltb lo hi); eexists; (split; [reflexivity |]); lra. }
  destruct x as [| [|] | v]; cbn [ltb negb]; trivial.
  - exists lo. split; [reflexivity | lra].
  - destruct (Qltb v hi) eqn:E1; trivial.
    cbn [ltb]. destruct (Qltb lo v) eqn:E2.
    + apply Qltb_true in E1, E2. exists v. split; [reflexivity | lra].
    + exists lo. split; [reflexivity | lra].
Qed.

Lemma mul_mono_Fin (c x y a b : Q) :
  (0 <= c)%Q -> (x <= y)%Q ->
  (Fin c * Fin x)%flt = Fin a -> (Fin c * Fin y)%flt = Fin b -> (a <= b)%Q.
Proof.
  intros Hc H Ea Eb. apply Qle_bool_iff. change ((Fin a <=? Fin b)%flt = true).
  rewrite <- Ea, <- Eb. cbn [mul]. apply RN_mono, Qmult_le_compat_l; assumption.
Qed.

Lemma add_mono_Fin (c x y a b : Q) :
  (x <= y)%Q ->
  (Fin c + Fin x)%flt = Fin a -> (Fin c + Fin y)%flt = Fin b -> (a <= b)%Q.
Proof.
  intros H Ea Eb. apply Qle_bool_iff. change ((Fin a <=? Fin b)%flt = true).
  rewrite <- Ea, <- Eb. cbn [add]. apply RN_mono. lra.
Qed.

End IntervalFacts.

Import IntervalFacts.

(** ** Dry matter and nutrition *)

Module MetricsFacts.

Lemma lit_008 : lit 8 100 = Fin c008.
Proof. vm_compute. reflexivity. Qed.

Lemma lit_int (z : Z) : 0 <= z <= 2 ^ prec -> lit z 1 = Fin (inject_Z z).
Proof. intros H. apply (of_int_exact z H). Qed.

(** The three float steps of [dry_matter_from_freshness] on a clamped input. *)
Lemma dry_matter_steps (c : Z) :
  0 <= c <= 100 ->
  exists m v w,
    (lit 8 100 * of_int c)%flt = Fin m
    /\ (lit 10 1 + Fin m)%flt = Fin v
    /\ Py.round (Fin v) 1 = Fin w
    /\ (0 <= m)%Q /\ (10 <= w)%Q /\ (w <= 18)%Q.
Proof.
  intros Hc. rewrite of_int_exact by (unfold prec; lia).
  assert (H0 : (0 <= inject_Z c)%Q) by (rewrite <- (Zle_Qle 0); lia).
  assert (H1 : (inject_Z c <= inject_Z 100)%Q) by (rewrite <- Zle_Qle; lia).
  rewrite lit_008, (lit_int 10) by (unfold prec; lia).
  destruct (mul_between c008 (inject_Z c) 0 (inject_Z 100) 0 8)
    as [m [Em [M0 M1]]];
    [qcompute | exact H0 | exact H1 | fcompute | fcompute |].
  destruct (add_between (inject_Z 10) m 0 8 10 18 M0 M1) as [v [Ev [V0 V1]]];
    [fcompute | fcompute |].
  destruct (round_between v 10 18 10 18 1 ltac:(lia) V0 V1) as [w [Ew [W0 W1]]];
    [fcompute | fcompute |].
  exists m, v, w. repeat split; assumption.
Qed.

Lemma dry_matter_clamped_mono (c1 c2 : Z) :
  0 <= c1 <= c2 -> c2 <= 100 ->
  (Py.round (lit 10 1 + lit 8 100 * of_int c1)%flt 1
   <=? Py.round (lit 10 1 + lit 8 100 * of_int c2)%flt 1)%flt = true.
Proof.
  intros H1 H2.
  destruct (dry_matter_steps c1 ltac:(lia)) as [m1 [v1 [w1 [Em1 [Ev1 _]]]]].
  destruct (dry_matter_steps c2 ltac:(lia)) as [m2 [v2 [w2 [Em2 [Ev2 _]]]]].
  rewrite Em1, Em2, Ev1, Ev2.
  apply round_mono; [lia |].
  rewrite (lit_int 10) in Ev1, Ev2 by (unfold prec; lia).
  apply (add_mono_Fin (inject_Z 10) m1 m2 v1 v2); trivial.
  rewrite lit_008, of_int_exact in Em1, Em2 by (unfold prec; lia).
  apply (mul_mono_Fin c008 (inject_Z c1) (inject_Z c2)); trivial.
  - qcompute.
  - rewrite <- Zle_Qle. lia.
Qed.

Lemma div_by_nonzero (x : float) (b : Q) :
  Qeq_bool b 0 = false -> exists r, F64.div x (Fin b) = Some r.
Proof.
  intros H. unfold F64.div. destruct x; rewrite H; eexists; reflexivity.
Qed.

Lemma clamp_round_range (lo hi : Z) (x : float) :
  0 <= lo <= hi -> hi <= 2 ^ prec ->
  Py.round (Fin (inject_Z lo)) 1 = Fin (inject_Z lo) ->
  Py.round (Fin (inject_Z hi)) 1 = Fin (inject_Z hi) ->
  in_range lo hi (Py.round (Py.max (lit lo 1) (Py.min (lit hi 1) x)) 1).
Proof.
  intros H1 H2 Elo Ehi. unfold in_range.
  rewrite !lit_int by lia.
  destruct (clamp_between (inject_Z lo) (inject_Z hi) x) as [q [Eq [Lo Hi]]].
  { rewrite <- Zle_Qle. lia. }
  rewrite Eq.
  destruct (round_between q _ _ _ _ 1 ltac:(lia) Lo Hi Elo Ehi) as [w [Ew [W0 W1]]].
  rewrite Ew. repeat split.
  - apply Qle_bool_iff, W0.
  - apply Qle_bool_iff, W1.
  - rewrite <- Ew. apply (round_decimal q 1). lia.
Qed.

End MetricsFacts.

Import MetricsFacts.

(** ** The weight estimator *)

Module WeightFacts.

Lemma lit_015 : lit 15 100 = Fin c015.
Proof. fcompute. Qed.

Lemma lit_030 : lit 30 100 = Fin c030.
Proof. fcompute. Qed.

Lemma lit_00015 : lit 15 10000 = Fin c00015.
Proof. fcompute. Qed.

Lemma lit_002 : lit 2 100 = Fin c002.
Proof. fcompute. Qed.

(** The fallback draw [round(uniform(0.15, 0.30), 2)] stays in the range. *)
Lemma fallback_weight_range (q : Q) :
  (0 <= q)%Q -> (q <= 1)%Q ->
  exists w, Py.round (Py.uniform (lit 15 100) (lit 30 100) (Fin q)) 2 = Fin w
            /\ (c015 <= w)%Q /\ (w <= c030)%Q.
Proof.
  intros Q0 Q1. unfold Py.uniform.
  assert (Ed : (lit 30 100 - lit 15 100)%flt = Fin c015) by fcompute.
  rewrite Ed, lit_015.
  destruct (mul_between c015 q 0 1 0 c015) as [m [Em [M0 M1]]];
    [qcompute | exact Q0 | exact Q1 | fcompute | fcompute |].
  rewrite Em.
  destruct (add_between c015 m 0 c015 c015 c030 M0 M1) as [v [Ev [V0 V1]]];
    [fcompute | fcompute |].
  rewrite Ev.
  apply (round_between v c015 c030 c015 c030 2); [lia | exact V0 | exact V1 | |];
    fcompute.
Qed.

Lemma pow5_mono (a b : Q) : (0 <= a)%Q -> (a <= b)%Q -> (pow5 a <= pow5 b)%Q.
Proof.
  intros H0 H. unfold pow5.
  repeat (apply Qmult_le_compat_nonneg; split;
          try assumption; repeat apply Qmult_le_0_compat; try assumption).
Qed.

Lemma pow6_mono (a b : Q) : (0 <= a)%Q -> (a <= b)%Q -> (pow6 a <= pow6 b)%Q.
Proof.
  intros H0 H. unfold pow6.
  repeat (apply Qmult_le_compat_nonneg; split;
          try assumption; repeat apply Qmult_le_0_compat; try assumption).
Qed.

Lemma pow_accurate_lower (x p : Q) :
  (10 <= x)%Q -> (0 < p)%Q ->
  ((1 - (1 # 1048576)) * pow6 x <= pow5 p)%Q -> (158 # 10 <= p)%Q.
Proof.
  intros Hx Hp H.
  apply Qnot_lt_le. intros Hlt.
  pose proof (pow5_mono p (158 # 10) ltac:(lra) ltac:(lra)) as H5.
  pose proof (pow6_mono 10 x ltac:(lra) Hx) as H6.
  assert (E5 : (pow5 (158 # 10) == 3077056399 # 3125)%Q) by (vm_compute; reflexivity).
  assert (E6 : (pow6 10 == 1000000)%Q) by (vm_compute; reflexivity).
  rewrite E5 in H5. rewrite E6 in H6. lra.
Qed.

Lemma max_ten_ge (radius : float) (r : Q) :
  Py.max radius (of_int 10) = Fin r -> (10 <= r)%Q.
Proof.
  unfold Py.max, gtb. rewrite (of_int_exact 10) by (unfold prec; lia).
  destruct radius as [| [|] | v]; cbn [ltb negb]; try discriminate.
  - intros E. injection E as <-. apply Qle_refl.
  - destruct (Qltb v (inject_Z 10)) eqn:Ev; intros E; injection E as <-.
    + apply Qle_refl.
    + apply Qltb_false in Ev. exact Ev.
Qed.

End WeightFacts.

Import WeightFacts.

(** ** One rounding step, with its error *)

Module ErrorFacts.

Lemma eps_pow2 : (pow2 (-42) == eps)%Q.
Proof. vm_compute. reflexivity. Qed.

Lemma pow2_11 : (pow2 (-42 + prec) == 2048)%Q.
Proof. vm_compute. reflexivity. Qed.

Lemma RN_err_nonneg (x : Q) :
  (0 <= x)%Q -> (x <= 1024)%Q ->
  exists r, RN x = Fin r /\ (x - eps <= r)%Q /\ (r <= x + eps)%Q.
Proof.
  intros H0 H1.
  destruct (RN_abs_error x (-42)) as [q [E [_ [_ [L U]]]]].
  - unfold emin. lia.
  - unfold prec, emax. lia.
  - exact H0.
  - rewrite pow2_11. lra.
  - exists q. split; [exact E |]. rewrite eps_pow2 in L, U. lra.
Qed.

Lemma Rq_neg (x : Q) : (x < 0)%Q -> (Rq x == - Rq (- x))%Q.
Proof.
  intros H. unfold Rq.
  assert (E1 : (x ?= 0)%Q = Lt) by (apply Qlt_alt; exact H).
  assert (E2 : (- x ?= 0)%Q = Gt) by (apply Qgt_alt; lra).
  rewrite E1, E2. reflexivity.
Qed.

Lemma RN_Fin_Rq (x q : Q) : RN x = Fin q -> (q == Rq x)%Q.
Proof.
  rewrite RN_char.
  destruct (Qle_bool (pow2 emax) (Rq x)); [discriminate |].
  destruct (Qle_bool (Rq x) (- pow2 emax)); [discriminate |].
  intros E. injection E as <-. apply Qred_correct.
Qed.

Lemma pow2_emax_large : (2048 < pow2 emax)%Q.
Proof.
  apply Qlt_trans with (inject_Z 4096); [reflexivity |].
  apply pow2_emax_big. unfold prec. lia.
Qed.

Lemma RN_err (x : Q) :
  (-1024 <= x)%Q -> (x <= 1024)%Q ->
  exists r, RN x = Fin r /\ (x - eps <= r)%Q /\ (r <= x + eps)%Q.
Proof.
  intros L U.
  destruct (Qlt_le_dec x 0) as [N | P]; [| apply RN_err_nonneg; assumption].
  destruct (RN_err_nonneg (- x)) as [q [E [Lq Uq]]]; [lra | lra |].
  apply RN_Fin_Rq in E.
  pose proof (Rq_neg x N) as R. rewrite <- E in R.
  pose proof pow2_emax_large as B.
  assert (Ee : (eps <= 1)%Q) by (vm_compute; discriminate).
  exists (Qred (- q)). split.
  - apply RN_of_Rq; [exact R | lra | lra].
  - rewrite Qred_correct. lra.
Qed.

Lemma add_err (a b : Q) :
  (-1024 <= a + b)%Q -> (a + b <= 1024)%Q ->
  exists r, (Fin a + Fin b)%flt = Fin r
            /\ (a + b - eps <= r)%Q /\ (r <= a + b + eps)%Q.
Proof. intros L U. cbn [add]. apply RN_err; assumption. Qed.

Lemma sub_err (a b : Q) :
  (-1024 <= a - b)%Q -> (a - b <= 1024)%Q ->
  exists r, (Fin a - Fin b)%flt = Fin r
            /\ (a - b - eps <= r)%Q /\ (r <= a - b + eps)%Q.
Proof.
  intros L U. unfold sub. cbn [opp add].
  rewrite (RN_compat (a + Qred (- b)) (a - b))
    by (rewrite Qred_correct; reflexivity).
  apply RN_err; assumption.
Qed.

Lemma mul_err (a b : Q) :
  (-1024 <= a * b)%Q -> (a * b <= 1024)%Q ->
  exists r, (Fin a * Fin b)%flt = Fin r
            /\ (a * b - eps <= r)%Q /\ (r <= a * b + eps)%Q.
Proof. intros L U. cbn [mul]. apply RN_err; assumption. Qed.

Lemma div4_err (a : Q) :
  (-1024 <= a / 4)%Q -> (a / 4 <= 1024)%Q ->
  exists r, F64.div (Fin a) (Fin 4) = Some (Fin r)
            /\ (a / 4 - eps <= r)%Q /\ (r <= a / 4 + eps)%Q.
Proof.
  intros L U. cbn [F64.div].
  replace (Qeq_bool 4 0) with false by reflexivity.
  destruct (RN_err (a / 4) L U) as [r [E B]].
  exists r. rewrite E. split; [reflexivity | exact B].
Qed.

End ErrorFacts.

(** ** One-sided bounds through the float operations, overflow included *)

Module BoundFacts.

Lemma add_lower (c lo a : Q) (x : float) :
  (Fin lo <=? x)%flt = true -> (Fin c + Fin lo)%flt = Fin a ->
  (Fin a <=? Fin c + x)%flt = true.
Proof.
  intros Hx Ea.
  destruct (leb_Fin_l _ _ Hx) as [-> | [q [-> Hq]]]; [reflexivity |].
  rewrite <- Ea. cbn [add]. apply RN_mono. lra.
Qed.

Lemma add_upper (c hi b : Q) (x : float) :
  (x <=? Fin hi)%flt = true -> (Fin c + Fin hi)%flt = Fin b ->
  (Fin c + x <=? Fin b)%flt = true.
Proof.
  intros Hx Eb.
  destruct (leb_Fin_r _ _ Hx) as [-> | [q [-> Hq]]]; [reflexivity |].
  rewrite <- Eb. cbn [add]. apply RN_mono. lra.
Qed.

Lemma sub_upper (c lo b : Q) (y : float) :
  (Fin lo <=? y)%flt = true -> (Fin c - Fin lo)%flt = Fin b ->
  (Fin c - y <=? Fin b)%flt = true.
Proof.
  intros Hy Eb.
  destruct (leb_Fin_l _ _ Hy) as [-> | [q [-> Hq]]]; [reflexivity |].
  rewrite <- Eb. unfold sub. cbn [opp add]. apply RN_mono.
  rewrite !Qred_correct. lra.
Qed.

Lemma sub_lower (c hi a : Q) (y : float) :
  (y <=? Fin hi)%flt = true -> (Fin c - Fin hi)%flt = Fin a ->
  (Fin a <=? Fin c - y)%flt = true.
Proof.
  intros Hy Ea.
  destruct (leb_Fin_r _ _ Hy) as [-> | [q [-> Hq]]]; [reflexivity |].
  rewrite <- Ea. unfold sub. cbn [opp add]. apply RN_mono.
  rewrite !Qred_correct. lra.
Qed.

Lemma mul_upper (c hi b : Q) (x : float) :
  (0 < c)%Q -> (x <=? Fin hi)%flt = true ->
  (Fin c * Fin hi)%flt = Fin b ->
  (Fin c * x <=? Fin b)%flt = true.
Proof.
  intros Hc Hx Eb.
  destruct (leb_Fin_r _ _ Hx) as [-> | [q [-> Hq]]].
  - cbn [mul]. destruct (Qcompare_spec c 0) as [E | L | G]; try reflexivity;
      exfalso; lra.
  - rewrite <- Eb. cbn [mul]. apply RN_mono.
    apply Qmult_le_compat_l; [lra | exact Hq].
Qed.

Lemma div4_lower (lo a : Q) (x : float) :
  (Fin lo <=? x)%flt = true -> F64.div (Fin lo) (Fin 4) = Some (Fin a) ->
  exists y, F64.div x (Fin 4) = Some y /\ (Fin a <=? y)%flt = true.
Proof.
  intros Hx Ea. cbn [F64.div] in *.
  replace (Qeq_bool 4 0) with false in * by reflexivity.
  injection Ea as Ea.
  destruct (leb_Fin_l _ _ Hx) as [-> | [q [-> Hq]]].
  - eexists. split; reflexivity.
  - eexists. split; [reflexivity |]. rewrite <- Ea. apply RN_mono.
    unfold Qdiv. apply Qmult_le_compat_r; [exact Hq | discriminate].
Qed.

Lemma div4_upper (hi b : Q) (x : float) :
  (x <=? Fin hi)%flt = true -> F64.div (Fin hi) (Fin 4) = Some (Fin b) ->
  exists y, F64.div x (Fin 4) = Some y /\ (y <=? Fin b)%flt = true.
Proof.
  intros Hx Eb. cbn [F64.div] in *.
  replace (Qeq_bool 4 0) with false in * by reflexivity.
  injection Eb as Eb.
  destruct (leb_Fin_r _ _ Hx) as [-> | [q [-> Hq]]].
  - eexists. split; reflexivity.
  - eexists. split; [reflexivity |]. rewrite <- Eb. apply RN_mono.
    unfold Qdiv. apply Qmult_le_compat_r; [exact Hq | discriminate].
Qed.

(** The clamp below its range, inside it and above it. *)
Lemma clamp_sat_low (lo hi : Q) (g : float) :
  (lo <= hi)%Q -> (g <=? Fin lo)%flt = true ->
  Py.max (Fin lo) (Py.min (Fin hi) g) = Fin lo.
Proof.
  intros H Hg. unfold Py.max, Py.min, gtb.
  destruct (leb_Fin_r _ _ Hg) as [-> | [v [-> Hv]]]; [reflexivity |].
  cbn [ltb]. destruct (Qltb v hi) eqn:E1; cbn [ltb].
  - destruct (Qltb lo v) eqn:E2; [| reflexivity].
    apply Qltb_true in E2. exfalso. lra.
  - destruct (Qltb lo hi) eqn:E2; [| reflexivity].
    apply Qltb_true in E2. apply Qltb_false in E1. exfalso. lra.
Qed.

Lemma clamp_sat_high (lo hi : Q) (g : float) :
  (lo < hi)%Q -> (Fin hi <=? g)%flt = true ->
  Py.max (Fin lo) (Py.min (Fin hi) g) = Fin hi.
Proof.
  intros H Hg. unfold Py.max, Py.min, gtb.
  assert (T : Qltb lo hi = true).
  { destruct (Qltb lo hi) eqn:E; [reflexivity |].
    apply Qltb_false in E. exfalso. lra. }
  destruct (leb_Fin_l _ _ Hg) as [-> | [v [-> Hv]]].
  - cbn [ltb negb]. rewrite T. reflexivity.
  - cbn [ltb]. destruct (Qltb v hi) eqn:E1.
    + apply Qltb_true in E1. exfalso. lra.
    + cbn [ltb]. rewrite T. reflexivity.
Qed.

Lemma clamp_value (lo hi g : Q) :
  (lo < hi)%Q ->
  exists c, Py.max (Fin lo) (Py.min (Fin hi) (Fin g)) = Fin c
            /\ (c == clampQ lo hi g)%Q.
Proof.
  intros H. unfold Py.max, Py.min, gtb, clampQ. cbn [ltb].
  destruct (Qltb g hi) eqn:E1; cbn [ltb].
  - apply Qltb_true in E1.
    destruct (Qltb lo g) eqn:E2.
    + apply Qltb_true in E2. exists g. split; [reflexivity |].
      destruct (Qle_bool g lo) eqn:E3;
        [apply Qle_bool_iff in E3; exfalso; lra |].
      destruct (Qle_bool hi g) eqn:E4;
        [apply Qle_bool_iff in E4; exfalso; lra |].
      reflexivity.
    + apply Qltb_false in E2. exists lo. split; [reflexivity |].
      destruct (Qle_bool g lo) eqn:E3; [reflexivity |].
      apply Qle_bool_false in E3. exfalso. lra.
  - apply Qltb_false in E1.
    destruct (Qltb lo hi) eqn:E2;
      [| apply Qltb_false in E2; exfalso; lra].
    exists hi. split; [reflexivity |].
    destruct (Qle_bool g lo) eqn:E3;
      [apply Qle_bool_iff in E3; exfalso; lra |].
    destruct (Qle_bool hi g) eqn:E4; [reflexivity |].
    apply Qle_bool_false in E4. exfalso. lra.
Qed.

Lemma clampQ_range (lo hi x : Q) :
  (lo <= hi)%Q -> (lo <= clampQ lo hi x)%Q /\ (clampQ lo hi x <= hi)%Q.
Proof.
  intros H. unfold clampQ.
  destruct (Qle_bool x lo) eqn:E1; [lra |].
  destruct (Qle_bool hi x) eqn:E2; [lra |].
  apply Qle_bool_false in E1, E2. lra.
Qed.

Lemma clampQ_close (lo hi g G d : Q) :
  (lo <= hi)%Q -> (G - d <= g)%Q -> (g <= G + d)%Q ->
  (clampQ lo hi G - d <= clampQ lo hi g)%Q
  /\ (clampQ lo hi g <= clampQ lo hi G + d)%Q.
Proof.
  intros H L U. unfold clampQ.
  destruct (Qle_bool g lo) eqn:E1, (Qle_bool G lo) eqn:E2;
    try apply Qle_bool_iff in E1; try apply Qle_bool_iff in E2;
    try apply Qle_bool_false in E1; try apply Qle_bool_false in E2;
    destruct (Qle_bool hi g) eqn:E3, (Qle_bool hi G) eqn:E4;
    try apply Qle_bool_iff in E3; try apply Qle_bool_iff in E4;
    try apply Qle_bool_false in E3; try apply Qle_bool_false in E4;
    lra.
Qed.

Lemma clampQ_low (lo hi x : Q) : (x <= lo)%Q -> clampQ lo hi x = lo.
Proof.
  intros H. unfold clampQ.
  destruct (Qle_bool x lo) eqn:E; [reflexivity |].
  apply Qle_bool_false in E. exfalso. lra.
Qed.

Lemma clampQ_high (lo hi x : Q) :
  (lo < hi)%Q -> (hi <= x)%Q -> clampQ lo hi x = hi.
Proof.
  intros H0 H. unfold clampQ.
  destruct (Qle_bool x lo) eqn:E1;
    [apply Qle_bool_iff in E1; exfalso; lra |].
  destruct (Qle_bool hi x) eqn:E2; [reflexivity |].
  apply Qle_bool_false in E2. exfalso. lra.
Qed.

(** [round(c, 1)] moves a value of [[0, 100]] by at most half a tenth and
    one binary rounding. *)
Lemma round1_err (c : Q) :
  (0 <= c)%Q -> (c <= 100)%Q ->
  exists w, Py.round (Fin c) 1 = Fin w
            /\ (c - (1 # 20) - eps <= w)%Q /\ (w <= c + (1 # 20) + eps)%Q.
Proof.
  intros L U. cbn [Py.round].
  replace (10 ^ 1) with 10 by reflexivity.
  change (inject_Z 10) with 10%Q.
  destruct (rhe_spec (c * 10)) as [S1 S2].
  set (K := inject_Z (round_half_even (c * 10))) in *.
  assert (E10 : (K / 10 == K * (1 # 10))%Q) by (unfold Qdiv; reflexivity).
  destruct (ErrorFacts.RN_err (K / 10)) as [w [E [W1 W2]]];
    [rewrite E10; lra | rewrite E10; lra |].
  rewrite E10 in W1, W2.
  exists w. split; [exact E | lra].
Qed.

(** A clamped and rounded field, from an expression within [d] of its
    formula. *)
Lemma clamp_round_near (lo hi g G d : Q) :
  (0 <= lo)%Q -> (lo < hi)%Q -> (hi <= 100)%Q ->
  (0 <= d)%Q -> (d <= 100 * eps)%Q ->
  (G - d <= g)%Q -> (g <= G + d)%Q ->
  near (Py.round (Py.max (Fin lo) (Py.min (Fin hi) (Fin g))) 1)
       (clampQ lo hi G).
Proof.
  intros H0 H1 H2 D0 D1 L U.
  destruct (clamp_value lo hi g H1) as [c [-> Ec]].
  destruct (clampQ_range lo hi g ltac:(lra)) as [R1 R2].
  destruct (clampQ_close lo hi g G d ltac:(lra) L U) as [C1 C2].
  destruct (round1_err c) as [w [-> [W1 W2]]]; [lra | lra |].
  exists w. split; [reflexivity |].
  unfold tolerance. unfold eps in *. lra.
Qed.

End BoundFacts.

(** ** The nutrition fields against their formulas *)

Module NutritionFacts.

Import ErrorFacts BoundFacts.

Lemma lit_14 : lit 14 1 = Fin 14. Proof. fcompute. Qed.
Lemma lit_4 : lit 4 1 = Fin 4. Proof. fcompute. Qed.
Lemma lit_86 : lit 86 1 = Fin 86. Proof. fcompute. Qed.
Lemma lit_2 : lit 2 1 = Fin 2. Proof. fcompute. Qed.
Lemma lit_10 : lit 10 1 = Fin 10. Proof. fcompute. Qed.
Lemma lit_1 : lit 1 1 = Fin 1. Proof. fcompute. Qed.
Lemma lit_70 : lit 70 1 = Fin 70. Proof. fcompute. Qed.
Lemma lit_90 : lit 90 1 = Fin 90. Proof. fcompute. Qed.
Lemma lit_5 : lit 5 1 = Fin 5. Proof. fcompute. Qed.
Lemma lit_20 : lit 20 1 = Fin 20. Proof. fcompute. Qed.
Lemma lit_8 : lit 8 1 = Fin 8. Proof. fcompute. Qed.
Lemma lit_24 : lit 24 10 = Fin c24. Proof. fcompute. Qed.
Lemma lit_03 : lit 3 10 = Fin c03. Proof. fcompute. Qed.
Lemma lit_46 : lit 46 10 = Fin c46. Proof. fcompute. Qed.
Lemma lit_05 : lit 5 10 = Fin (1 # 2). Proof. fcompute. Qed.
Lemma of_int_0 : of_int 0 = Fin 0. Proof. fcompute. Qed.

Ltac literals :=
  rewrite ?lit_14, ?lit_4, ?lit_86, ?lit_2, ?lit_10, ?lit_1, ?lit_70, ?lit_90,
    ?lit_5, ?lit_20, ?lit_8, ?lit_24, ?lit_03, ?lit_46, ?lit_05, ?of_int_0.

Lemma leb_weaken_l (a b : Q) (g : float) :
  (a <= b)%Q -> (Fin b <=? g)%flt = true -> (Fin a <=? g)%flt = true.
Proof.
  intros H Hg. destruct (leb_Fin_l _ _ Hg) as [-> | [v [-> Hv]]];
    [reflexivity |].
  cbn [leb]. apply Qle_bool_iff. lra.
Qed.

Lemma leb_weaken_r (a b : Q) (g : float) :
  (b <= a)%Q -> (g <=? Fin b)%flt = true -> (g <=? Fin a)%flt = true.
Proof.
  intros H Hg. destruct (leb_Fin_r _ _ Hg) as [-> | [v [-> Hv]]];
    [reflexivity |].
  cbn [leb]. apply Qle_bool_iff. lra.
Qed.

Lemma nutrition_fields (dm : float) :
  nutrition_from_dm dm
  = match F64.div (dm - lit 14 1)%flt (lit 4 1) with
    | Some x => Some {| water_percent := water_of x;
                        sugar_percent := sugar_of x;
                        fiber := fiber_of x;
                        vitamin_c_mg := vitamin_c_of x |}
    | None => None
    end.
Proof. reflexivity. Qed.

Lemma factor_formula_eq (dm : Q) :
  (factor_formula dm == (dm - 14) * (1 # 4))%Q.
Proof. unfold factor_formula, Qdiv. reflexivity. Qed.

(** *** The factor *)

Lemma factor_mid (q : Q) :
  (-42 <= q)%Q -> (q <= 70)%Q ->
  exists f, F64.div (Fin q - lit 14 1)%flt (lit 4 1) = Some (Fin f)
            /\ (factor_formula q - 2 * eps <= f)%Q
            /\ (f <= factor_formula q + 2 * eps)%Q.
Proof.
  intros L U. literals.
  destruct (sub_err q 14) as [a [-> [A1 A2]]]; [lra | lra |].
  assert (Ee : (eps <= 1)%Q) by (vm_compute; discriminate).
  assert (E4 : (a / 4 == a * (1 # 4))%Q) by (unfold Qdiv; reflexivity).
  destruct (div4_err a) as [f [-> [F1 F2]]];
    [rewrite E4; lra | rewrite E4; lra |].
  exists f. split; [reflexivity |].
  rewrite E4 in F1, F2. rewrite factor_formula_eq. lra.
Qed.

Lemma factor_high (q : Q) :
  (70 <= q)%Q ->
  exists x, F64.div (Fin q - lit 14 1)%flt (lit 4 1) = Some x
            /\ (Fin 14 <=? x)%flt = true.
Proof.
  intros H. literals.
  apply (div4_lower 56 14); [| fcompute].
  assert (E : (Fin 70 - Fin 14)%flt = Fin 56) by fcompute.
  rewrite <- E. unfold sub. cbn [opp add]. apply RN_mono. lra.
Qed.

Lemma factor_low (q : Q) :
  (q <= -42)%Q ->
  exists x, F64.div (Fin q - lit 14 1)%flt (lit 4 1) = Some x
            /\ (x <=? Fin (-14))%flt = true.
Proof.
  intros H. literals.
  apply (div4_upper (-56) (-14)); [| fcompute].
  assert (E : (Fin (-42) - Fin 14)%flt = Fin (-56)) by fcompute.
  rewrite <- E. unfold sub. cbn [opp add]. apply RN_mono. lra.
Qed.

(** *** Water *)

Lemma water_high (x : float) :
  (Fin 14 <=? x)%flt = true -> water_of x = Fin 70.
Proof.
  intros H. unfold water_of. literals.
  rewrite (clamp_sat_low 70 90); [fcompute | lra |].
  apply (leb_weaken_r 70 58); [lra |].
  apply (sub_upper 86 28 58); [| fcompute].
  apply (mul_lower 2 14 28); [lra | exact H | fcompute].
Qed.

Lemma water_low (x : float) :
  (x <=? Fin (-14))%flt = true -> water_of x = Fin 90.
Proof.
  intros H. unfold water_of. literals.
  rewrite (clamp_sat_high 70 90); [fcompute | lra |].
  apply (leb_weaken_l 90 114); [lra |].
  apply (sub_lower 86 (-28) 114); [| fcompute].
  apply (mul_upper 2 (-14) (-28)); [lra | exact H | fcompute].
Qed.

Lemma water_mid (f F : Q) :
  (F - 2 * eps <= f)%Q -> (f <= F + 2 * eps)%Q ->
  (-14 <= F)%Q -> (F <= 14)%Q ->
  near (water_of (Fin f)) (clampQ 70 90 (86 - 2 * F)).
Proof.
  intros L U B1 B2. unfold water_of. literals.
  assert (Ee : (0 <= eps)%Q /\ (eps <= 1)%Q) by (split; vm_compute; discriminate).
  destruct (mul_err 2 f) as [t [-> [T1 T2]]]; [lra | lra |].
  destruct (sub_err 86 t) as [g [-> [G1 G2]]]; [lra | lra |].
  apply (clamp_round_near 70 90 g (86 - 2 * F) (6 * eps)); lra.
Qed.

(** *** Sugar *)

Lemma sugar_high (x : float) :
  (Fin 14 <=? x)%flt = true -> sugar_of x = Fin 20.
Proof.
  intros H. unfold sugar_of. literals.
  rewrite (clamp_sat_high 5 20); [fcompute | lra |].
  apply (leb_weaken_l 20 24); [lra |].
  apply (add_lower 10 14 24); [| fcompute].
  apply (mul_lower 1 14 14); [lra | exact H | fcompute].
Qed.

Lemma sugar_low (x : float) :
  (x <=? Fin (-14))%flt = true -> sugar_of x = Fin 5.
Proof.
  intros H. unfold sugar_of. literals.
  rewrite (clamp_sat_low 5 20); [fcompute | lra |].
  apply (leb_weaken_r 5 (-4)); [lra |].
  apply (add_upper 10 (-14) (-4)); [| fcompute].
  apply (mul_upper 1 (-14) (-14)); [lra | exact H | fcompute].
Qed.

Lemma sugar_mid (f F : Q) :
  (F - 2 * eps <= f)%Q -> (f <= F + 2 * eps)%Q ->
  (-14 <= F)%Q -> (F <= 14)%Q ->
  near (sugar_of (Fin f)) (clampQ 5 20 (10 + 1 * F)).
Proof.
  intros L U B1 B2. unfold sugar_of. literals.
  assert (Ee : (0 <= eps)%Q /\ (eps <= 1)%Q) by (split; vm_compute; discriminate).
  destruct (mul_err 1 f) as [t [-> [T1 T2]]]; [lra | lra |].
  destruct (add_err 10 t) as [g [-> [G1 G2]]]; [lra | lra |].
  apply (clamp_round_near 5 20 g (10 + 1 * F) (4 * eps)); lra.
Qed.

(** *** Fiber *)

Lemma fiber_high (x : float) :
  (Fin 14 <=? x)%flt = true -> fiber_of x = Fin 5.
Proof.
  intros H. unfold fiber_of. literals.
  rewrite (clamp_sat_high 1 5); [fcompute | lra |].
  apply (leb_weaken_l 5 6); [lra |].
  assert (E1 : exists a, (Fin c03 * Fin 14)%flt = Fin a /\ (4 <= a)%Q).
  { eexists. split; [fcompute | qcompute]. }
  destruct E1 as [a [Ea Ha]].
  pose proof (mul_lower c03 14 a x ltac:(qcompute) H Ea) as T.
  apply (leb_weaken_l 4 a _ Ha) in T.
  apply (leb_weaken_l 6 (c24 + 4)); [qcompute |].
  assert (E2 : exists b, (Fin c24 + Fin 4)%flt = Fin b /\ (c24 + 4 <= b)%Q).
  { eexists. split; [fcompute | qcompute]. }
  destruct E2 as [b [Eb Hb]].
  apply (leb_weaken_l (c24 + 4) b); [exact Hb |].
  apply (add_lower c24 4 b); [exact T | exact Eb].
Qed.

Lemma fiber_low (x : float) :
  (x <=? Fin (-14))%flt = true -> fiber_of x = Fin 1.
Proof.
  intros H. unfold fiber_of. literals.
  rewrite (clamp_sat_low 1 5); [fcompute | lra |].
  assert (E1 : exists a, (Fin c03 * Fin (-14))%flt = Fin a /\ (a <= -4)%Q).
  { eexists. split; [fcompute | qcompute]. }
  destruct E1 as [a [Ea Ha]].
  pose proof (mul_upper c03 (-14) a x ltac:(qcompute) H Ea) as T.
  apply (leb_weaken_r (-4) a _ Ha) in T.
  assert (E2 : exists b, (Fin c24 + Fin (-4))%flt = Fin b /\ (b <= 1)%Q).
  { eexists. split; [fcompute | qcompute]. }
  destruct E2 as [b [Eb Hb]].
  apply (leb_weaken_r 1 b); [exact Hb |].
  apply (add_upper c24 (-4) b); [exact T | exact Eb].
Qed.

Lemma fiber_mid (f F : Q) :
  (F - 2 * eps <= f)%Q -> (f <= F + 2 * eps)%Q ->
  (-14 <= F)%Q -> (F <= 14)%Q ->
  near (fiber_of (Fin f)) (clampQ 1 5 ((24 # 10) + (3 # 10) * F)).
Proof.
  intros L U B1 B2. unfold fiber_of. literals.
  assert (Ee : (0 <= eps)%Q /\ (eps <= 1)%Q) by (split; vm_compute; discriminate).
  assert (K3 : ((3 # 10) - eps * (1 # 100) <= c03)%Q
               /\ (c03 <= (3 # 10) + eps * (1 # 100))%Q)
    by (split; vm_compute; discriminate).
  assert (K24 : ((24 # 10) - eps <= c24)%Q /\ (c24 <= (24 # 10) + eps)%Q)
    by (split; vm_compute; discriminate).
  assert (P : ((3 # 10) * F - eps <= c03 * f)%Q
              /\ (c03 * f <= (3 # 10) * F + eps)%Q).
  { unfold c03, eps in *. split; nra. }
  destruct (mul_err c03 f) as [t [-> [T1 T2]]]; [lra | lra |].
  destruct (add_err c24 t) as [g [-> [G1 G2]]]; [lra | lra |].
  apply (clamp_round_near 1 5 g ((24 # 10) + (3 # 10) * F) (4 * eps)); lra.
Qed.

(** *** Vitamin C *)

Lemma vitamin_c_high (x : float) :
  (Fin 14 <=? x)%flt = true -> vitamin_c_of x = Fin 1.
Proof.
  intros H. unfold vitamin_c_of. literals.
  assert (M : Py.max x (Fin 0) = x).
  { unfold Py.max, gtb.
    destruct (leb_Fin_l _ _ H) as [-> | [v [-> Hv]]]; [reflexivity |].
    cbn [ltb]. destruct (Qltb v 0) eqn:E; [| reflexivity].
    apply Qltb_true in E. exfalso. lra. }
  rewrite M.
  rewrite (clamp_sat_low 1 8); [fcompute | lra |].
  assert (E2 : exists b, (Fin c46 - Fin 7)%flt = Fin b /\ (b <= 1)%Q).
  { eexists. split; [fcompute | qcompute]. }
  destruct E2 as [b [Eb Hb]].
  apply (leb_weaken_r 1 b); [exact Hb |].
  apply (sub_upper c46 7 b); [| exact Eb].
  apply (mul_lower (1 # 2) 14 7); [lra | exact H | fcompute].
Qed.

Lemma vitamin_c_low (x : float) :
  (x <=? Fin (-14))%flt = true -> vitamin_c_of x = Fin c46.
Proof.
  intros H. unfold vitamin_c_of. literals.
  assert (M : Py.max x (Fin 0) = Fin 0).
  { unfold Py.max, gtb.
    destruct (leb_Fin_r _ _ H) as [-> | [v [-> Hv]]]; [reflexivity |].
    cbn [ltb]. destruct (Qltb v 0) eqn:E; [reflexivity |].
    apply Qltb_false in E. exfalso. lra. }
  rewrite M. fcompute.
Qed.

Lemma vitamin_c_mid (f F : Q) :
  (F - 2 * eps <= f)%Q -> (f <= F + 2 * eps)%Q ->
  (-14 <= F)%Q -> (F <= 14)%Q ->
  near (vitamin_c_of (Fin f))
       (clampQ 1 8 ((46 # 10)
                    - (5 # 10) * (if Qle_bool F 0 then 0 else F))).
Proof.
  intros L U B1 B2. unfold vitamin_c_of. literals.
  assert (Ee : (0 <= eps)%Q /\ (eps <= 1)%Q) by (split; vm_compute; discriminate).
  assert (K46 : ((46 # 10) - eps <= c46)%Q /\ (c46 <= (46 # 10) + eps)%Q)
    by (split; vm_compute; discriminate).
  set (M := if Qle_bool F 0 then 0%Q else F).
  assert (Hm : exists m, Py.max (Fin f) (Fin 0) = Fin m
                         /\ (M - 2 * eps <= m)%Q /\ (m <= M + 2 * eps)%Q).
  { unfold Py.max, gtb. cbn [ltb]. subst M.
    destruct (Qltb f 0) eqn:E1, (Qle_bool F 0) eqn:E2;
      try apply Qltb_true in E1; try apply Qltb_false in E1;
      try apply Qle_bool_iff in E2; try apply Qle_bool_false in E2;
      eexists; (split; [reflexivity |]); lra. }
  destruct Hm as [m [-> [M1 M2]]].
  assert (BM : (0 <= M)%Q /\ (M <= 14)%Q).
  { subst M. destruct (Qle_bool F 0) eqn:E2; [lra |].
    apply Qle_bool_false in E2. lra. }
  destruct (mul_err (1 # 2) m) as [t [-> [T1 T2]]]; [lra | lra |].
  destruct (sub_err c46 t) as [g [-> [G1 G2]]]; [lra | lra |].
  apply (clamp_round_near 1 8 g ((46 # 10) - (5 # 10) * M) (4 * eps)); lra.
Qed.

(** *** The four fields of a finite dry matter *)

Lemma fields_near (q : Q) :
  exists n,
    nutrition_from_dm (Fin q) = Some n
    /\ near (water_percent n) (water_formula q)
    /\ near (sugar_percent n) (sugar_formula q)
    /\ near (fiber n) (fiber_formula q)
    /\ near (vitamin_c_mg n) (vitamin_c_formula q).
Proof.
  rewrite nutrition_fields.
  unfold water_formula, sugar_formula, fiber_formula, vitamin_c_formula.
  pose proof (factor_formula_eq q) as EF.
  set (F := factor_formula q) in *.
  assert (Ht : (0 <= tolerance)%Q) by (vm_compute; discriminate).
  assert (K46 : ((46 # 10) - tolerance <= c46)%Q
                /\ (c46 <= (46 # 10) + tolerance)%Q)
    by (split; vm_compute; discriminate).
  destruct (Qlt_le_dec q (-42)) as [Lo | Lo];
    [| destruct (Qlt_le_dec 70 q) as [Hi | Hi]].
  - destruct (factor_low q ltac:(lra)) as [x [-> Hx]].
    eexists. split; [reflexivity |].
    cbn [water_percent sugar_percent fiber vitamin_c_mg].
    rewrite (water_low x Hx), (sugar_low x Hx), (fiber_low x Hx),
      (vitamin_c_low x Hx).
    rewrite (clampQ_high 70 90) by lra.
    rewrite (clampQ_low 5 20) by lra.
    rewrite (clampQ_low 1 5) by lra.
    replace (Qle_bool F 0) with true
      by (symmetry; apply Qle_bool_iff; lra).
    assert (C : clampQ 1 8 ((46 # 10) - (5 # 10) * 0) = ((46 # 10) - (5 # 10) * 0)%Q)
      by (vm_compute; reflexivity).
    rewrite C.
    repeat split; eexists; (split; [reflexivity |]); lra.
  - destruct (factor_high q ltac:(lra)) as [x [-> Hx]].
    eexists. split; [reflexivity |].
    cbn [water_percent sugar_percent fiber vitamin_c_mg].
    rewrite (water_high x Hx), (sugar_high x Hx), (fiber_high x Hx),
      (vitamin_c_high x Hx).
    rewrite (clampQ_low 70 90) by lra.
    rewrite (clampQ_high 5 20) by lra.
    rewrite (clampQ_high 1 5) by lra.
    replace (Qle_bool F 0) with false
      by (symmetry; apply Qle_bool_false; lra).
    rewrite (clampQ_low 1 8) by lra.
    repeat split; eexists; (split; [reflexivity |]); lra.
  - destruct (factor_mid q Lo Hi) as [f [-> [F1 F2]]].
    eexists. split; [reflexivity |].
    cbn [water_percent sugar_percent fiber vitamin_c_mg].
    fold F in F1, F2.
    split; [apply water_mid; lra |].
    split; [apply sugar_mid; lra |].
    split; [apply fiber_mid; lra |].
    apply vitamin_c_mid; lra.
Qed.

End NutritionFacts.

(** * The claims *)

(** ** MetricsDeriver *)

(** C3.  On a ratio of [[0, 100]] the label is "Low" exactly on 0..25,
    "Medium" exactly on 26..50 and "High" exactly on 51..100; the boundary
    values 25, 26, 50 and 51 map to Low, Medium, Medium and High. *)
Theorem spoilage_risk_bands (r : Z) :
  0 <= r <= 100 ->
  (spoilage_risk_label_from_ratio r = "Low"%string <-> 0 <= r <= 25)
  /\ (spoilage_risk_label_from_ratio r = "Medium"%string <-> 26 <= r <= 50)
  /\ (spoilage_risk_label_from_ratio r = "High"%string <-> 51 <= r <= 100)
  /\ spoilage_risk_label_from_ratio 25 = "Low"%string
  /\ spoilage_risk_label_from_ratio 26 = "Medium"%string
  /\ spoilage_risk_label_from_ratio 50 = "Medium"%string
  /\ spoilage_risk_label_from_ratio 51 = "High"%string.
Proof.
  intros Hr. unfold spoilage_risk_label_from_ratio.
  repeat split; try reflexivity;
    destruct (Z.leb_spec r 25), (Z.leb_spec r 50);
    intros; try lia; try discriminate; reflexivity.
Qed.

Lemma spoilage_risk_bands_witness :
  0 <= 26 <= 100 /\ spoilage_risk_label_from_ratio 26 = "Medium"%string.
Proof.
  split; [lia |].
  apply (proj1 (proj2 (spoilage_risk_bands 26 ltac:(lia)))). lia.
Defined.

(** C4.  For every integer freshness, [dry_matter_from_freshness] returns a
    value of [[10.0, 18.0]] that is a one-decimal literal, and the value
    does not decrease when the freshness grows. *)
Theorem dry_matter_range_monotone (f1 f2 : Z) :
  ((lit 10 1 <=? dry_matter_from_freshness f1)%flt = true
   /\ (dry_matter_from_freshness f1 <=? lit 18 1)%flt = true)
  /\ (exists k : Z, dry_matter_from_freshness f1 = lit k 10)
  /\ (f1 <= f2 ->
      (dry_matter_from_freshness f1 <=? dry_matter_from_freshness f2)%flt = true).
Proof.
  unfold dry_matter_from_freshness. cbv zeta.
  set (c1 := Z.max 0 (Z.min 100 f1)). set (c2 := Z.max 0 (Z.min 100 f2)).
  destruct (dry_matter_steps c1 ltac:(lia)) as [m [v [w [Em [Ev [Ew [_ [W0 W1]]]]]]]].
  split; [| split].
  - rewrite Em, Ev, Ew, !lit_int by (unfold prec; lia).
    split; apply Qle_bool_iff; assumption.
  - rewrite Em, Ev. apply (round_decimal v 1). lia.
  - intros H. apply dry_matter_clamped_mono; lia.
Qed.

Lemma dry_matter_range_monotone_witness :
  (dry_matter_from_freshness 40 <=? dry_matter_from_freshness 70)%flt = true.
Proof. apply (dry_matter_range_monotone 40 70). lia. Defined.

(** The four fields are one-decimal values of their ranges, for every
    float, NaN and infinities included. *)
Lemma nutrition_fields_in_range (dm : float) :
  exists n, nutrition_from_dm dm = Some n
            /\ in_range 70 90 (water_percent n)
            /\ in_range 5 20 (sugar_percent n)
            /\ in_range 1 5 (fiber n)
            /\ in_range 1 8 (vitamin_c_mg n).
Proof.
  unfold nutrition_from_dm.
  rewrite (lit_int 4) by (unfold prec; lia).
  destruct (div_by_nonzero (dm - lit 14 1)%flt (inject_Z 4)) as [dm_factor ->];
    [vm_compute; reflexivity |].
  eexists. split; [reflexivity |]. cbn [water_percent sugar_percent fiber vitamin_c_mg].
  split; [| split; [| split]];
    (apply clamp_round_range;
     [unfold prec; lia | unfold prec; lia | fcompute | fcompute]).
Qed.

(** C5.  For every float [dm], NaN and infinities included,
    [nutrition_from_dm] returns the four fields, each a one-decimal value of
    its range: water in [[70, 90]], sugar in [[5, 20]], fiber in [[1, 5]],
    vitamin C in [[1, 8]].  For a finite [dm] each field follows its
    formula: with [factor = (dm - 14.0) / 4.0] computed exactly, the field
    is within half a tenth (and the room of the binary roundings, below
    [10^-9]) of [clamp(86.0 - 2.0 * factor, [70, 90])],
    [clamp(10.0 + 1.0 * factor, [5, 20])],
    [clamp(2.4 + 0.3 * factor, [1, 5])] and
    [clamp(4.6 - 0.5 * max(factor, 0), [1, 8])]: it is that value rounded
    to one decimal.  At [dm = 14.0] the fields are 86.0, 10.0, 2.4 and
    4.6. *)
Theorem nutrition_formulas (dm : float) :
  (exists n, nutrition_from_dm dm = Some n
             /\ in_range 70 90 (water_percent n)
             /\ in_range 5 20 (sugar_percent n)
             /\ in_range 1 5 (fiber n)
             /\ in_range 1 8 (vitamin_c_mg n)
             /\ match dm with
                | Fin q =>
                    near (water_percent n) (water_formula q)
                    /\ near (sugar_percent n) (sugar_formula q)
                    /\ near (fiber n) (fiber_formula q)
                    /\ near (vitamin_c_mg n) (vitamin_c_formula q)
                | _ => True
                end)
  /\ nutrition_from_dm (lit 14 1)
     = Some {| water_percent := lit 86 1; sugar_percent := lit 10 1;
               fiber := lit 24 10; vitamin_c_mg := lit 46 10 |}.
Proof.
  split; [| vm_compute; reflexivity].
  destruct (nutrition_fields_in_range dm) as [n [E [R1 [R2 [R3 R4]]]]].
  exists n. split; [exact E |].
  split; [exact R1 |]. split; [exact R2 |].
  split; [exact R3 |]. split; [exact R4 |].
  destruct dm as [| sg | q]; [exact I | exact I |].
  destruct (NutritionFacts.fields_near q) as [n' [E' N]].
  rewrite E in E'. injection E' as <-. exact N.
Qed.

(** ** FreshnessAnalyzer *)

Section FreshnessClaims.

Variables image rng : Type.
Variable lab_pixels : image -> list lab.
Variable kmeans : list lab -> nat -> rng -> list nat * list lab.
Variables (img : image) (g : rng).
Variables (labels : list nat) (centers : list lab).
Variables fresh_cluster spoiled_cluster : nat.

(** The clustering run behind the call, and the clusters it selects. *)
Hypothesis run : kmeans (lab_pixels img) 3%nat g = (labels, centers).
Hypothesis fresh_is_argmax : Np.argmax (map lab_a centers) = Some fresh_cluster.
Hypothesis spoiled_is_argmin : Np.argmin (map lab_L centers) = Some spoiled_cluster.

(** OpenCV holds the number of samples in a C [int]. *)
Hypothesis image_size : Z.of_nat (List.length labels) < 2 ^ 31.

Local Abbreviation fresh_pixels := (Np.count_eq labels fresh_cluster).
Local Abbreviation spoiled_pixels := (Np.count_eq labels spoiled_cluster).
Local Abbreviation apple_pixels := (fresh_pixels + spoiled_pixels).
Local Abbreviation total_pixels := (Z.of_nat (List.length labels)).

Lemma compute_freshness_counts :
  compute_freshness_from_image lab_pixels kmeans img 3 g
  = freshness_from_counts fresh_pixels spoiled_pixels total_pixels.
Proof.
  unfold compute_freshness_from_image.
  rewrite run, fresh_is_argmax, spoiled_is_argmin. reflexivity.
Qed.

Lemma compute_freshness_cases :
  compute_freshness_from_image lab_pixels kmeans img 3 g
  = if 20 * apple_pixels <? total_pixels then Some (60, 30)
    else if apple_pixels =? 0 then None
    else Some (truncated_percent fresh_pixels apple_pixels,
               truncated_percent spoiled_pixels apple_pixels).
Proof.
  rewrite compute_freshness_counts.
  pose proof (count_eq_bounds labels fresh_cluster).
  pose proof (count_eq_bounds labels spoiled_cluster).
  apply freshness_from_counts_spec; lia.
Qed.

Lemma nonfallback_result :
  0 < total_pixels -> total_pixels <= 20 * apple_pixels ->
  compute_freshness_from_image lab_pixels kmeans img 3 g
  = Some (truncated_percent fresh_pixels apple_pixels,
          truncated_percent spoiled_pixels apple_pixels).
Proof.
  intros Hpos Hcov. rewrite compute_freshness_cases.
  replace (20 * apple_pixels <? total_pixels) with false
    by (symmetry; apply Z.ltb_ge; lia).
  replace (apple_pixels =? 0) with false
    by (symmetry; apply Z.eqb_neq; lia).
  reflexivity.
Qed.

(** C2.  When the fresh and the spoiled cluster together hold less than 5%
    of the pixels of an image (of fewer than 2^31 pixels), the result is
    the fixed pair (60, 30), whatever the colours. *)
Theorem fallback_pair :
  20 * apple_pixels < total_pixels ->
  compute_freshness_from_image lab_pixels kmeans img 3 g = Some (60, 30).
Proof.
  intros Hlow. rewrite compute_freshness_cases.
  replace (20 * apple_pixels <? total_pixels) with true
    by (symmetry; apply Z.ltb_lt; lia).
  reflexivity.
Qed.

(** C1, amended.  When the two clusters hold at least 5% of the pixels of a
    non-empty image, the two results are the percentages truncated toward
    zero, not rounded: [floor (100 * pixels / applePixels)], and one less
    than that when the percentage is exactly 29, 57 or 58, which
    [100 * (n / 100)] misses from below in binary64. *)
Theorem truncated_ratios :
  0 < total_pixels -> total_pixels <= 20 * apple_pixels ->
  compute_freshness_from_image lab_pixels kmeans img 3 g
  = Some (truncated_percent fresh_pixels apple_pixels,
          truncated_percent spoiled_pixels apple_pixels).
Proof. exact nonfallback_result. Qed.

(** C9.  On the non-fallback path (a non-empty image, at least 5% of its
    pixels in the two clusters) the two results add up to 99 or to 100, and
    both are 50 when the fresh and the spoiled cluster coincide. *)
Theorem ratio_sum :
  0 < total_pixels -> total_pixels <= 20 * apple_pixels ->
  exists f s : Z,
    compute_freshness_from_image lab_pixels kmeans img 3 g = Some (f, s)
    /\ (f + s = 99 \/ f + s = 100)
    /\ (fresh_cluster = spoiled_cluster -> f = 50 /\ s = 50).
Proof.
  intros Hpos Hcov. rewrite (nonfallback_result Hpos Hcov).
  pose proof (count_eq_bounds labels fresh_cluster) as Bf.
  pose proof (count_eq_bounds labels spoiled_cluster) as Bs.
  eexists. eexists. split; [reflexivity |]. split.
  - apply truncated_percent_sum; lia.
  - intros E. rewrite <- E in *.
    rewrite truncated_percent_half by lia. split; reflexivity.
Qed.

End FreshnessClaims.

Lemma fallback_pair_witness :
  compute_freshness_from_image (demo_pixels sparse_labels)
    (demo_kmeans sparse_labels) tt 3 tt = Some (60, 30).
Proof.
  apply (fallback_pair unit unit (demo_pixels sparse_labels)
           (demo_kmeans sparse_labels) tt tt sparse_labels demo_centers 0%nat 1%nat);
    fcompute.
Defined.

Lemma truncated_ratios_witness :
  compute_freshness_from_image (demo_pixels demo_labels)
    (demo_kmeans demo_labels) tt 3 tt = Some (66, 33).
Proof.
  apply (truncated_ratios unit unit (demo_pixels demo_labels)
           (demo_kmeans demo_labels) tt tt demo_labels demo_centers 0%nat 1%nat);
    solve [fcompute | qcompute].
Defined.

(** C1 as the specification states it fails: with two fresh pixels and one
    spoiled pixel the code returns (66, 33), the rounded percentages are
    (67, 33). *)
Lemma rounded_ratios_counterexample : ~ rounded_ratios_claim.
Proof.
  intros H.
  specialize (H unit unit (demo_pixels demo_labels) (demo_kmeans demo_labels)
                tt tt demo_labels demo_centers 0%nat 1%nat).
  assert (E : compute_freshness_from_image (demo_pixels demo_labels)
                (demo_kmeans demo_labels) tt 3 tt = Some (66, 33)) by fcompute.
  rewrite E in H.
  assert (R : (rounded_percent (Np.count_eq demo_labels 0)
                 (Np.count_eq demo_labels 0 + Np.count_eq demo_labels 1),
               rounded_percent (Np.count_eq demo_labels 1)
                 (Np.count_eq demo_labels 0 + Np.count_eq demo_labels 1))
              = (67, 33)) by fcompute.
  cbv zeta in H. rewrite R in H.
  assert (F : Some (66, 33) = Some (67, 33)); [| discriminate F].
  apply H; solve [fcompute | qcompute].
Qed.

Lemma ratio_sum_witness :
  exists f s : Z,
    compute_freshness_from_image (demo_pixels demo_labels)
      (demo_kmeans demo_labels) tt 3 tt = Some (f, s)
    /\ (f + s = 99 \/ f + s = 100)
    /\ (0%nat = 1%nat -> f = 50 /\ s = 50).
Proof.
  apply (ratio_sum unit unit (demo_pixels demo_labels)
           (demo_kmeans demo_labels) tt tt demo_labels demo_centers 0%nat 1%nat);
    solve [fcompute | qcompute].
Defined.

(** ** WeightEstimator *)

Section WeightClaims.

Variables image contour : Type.
Variable find_contours : image -> list contour.
Variable contourArea : contour -> float.
Variable minEnclosingCircle_radius : contour -> float.
Variable pow : float -> float -> option float.
Variables (img : image) (u : float).

(** The draw consumed by the fallback is a float of [[0, 1)]. *)
Hypothesis draw : unit_draw u.

(** The radius handed to [pow], after the floor of 10. *)
Local Abbreviation clamped_radius c0 rest :=
  (Py.max (minEnclosingCircle_radius (Py.max_key_from contourArea c0 rest))
          (of_int 10)).

Local Abbreviation weight :=
  (estimate_weight_from_image find_contours contourArea
     minEnclosingCircle_radius pow img u).

Lemma weight_no_contour :
  find_contours img = [] ->
  exists w, weight = Some (Fin w) /\ (c015 <= w)%Q /\ (w <= c030)%Q.
Proof.
  intros E. unfold estimate_weight_from_image. rewrite E.
  destruct draw as [q [-> [Q0 Q1]]].
  destruct (fallback_weight_range q Q0 ltac:(lra)) as [w [-> Hw]].
  exists w. split; [reflexivity | exact Hw].
Qed.

Lemma weight_contour (c0 : contour) (rest : list contour) :
  find_contours img = c0 :: rest ->
  weight = match pow (clamped_radius c0 rest) (lit 12 10) with
           | Some p => Some (Py.round (lit 15 10000 * p)%flt 2)
           | None => None
           end.
Proof.
  intros E. unfold estimate_weight_from_image. rewrite E. reflexivity.
Qed.

(** C8.  When no contour is found, the estimate is a value of
    [[0.15, 0.30]], whatever the draw. *)
Theorem fallback_weight_in_range :
  find_contours img = [] ->
  exists w, weight = Some w
            /\ (lit 15 100 <=? w)%flt = true /\ (w <=? lit 30 100)%flt = true.
Proof.
  intros E. destruct (weight_no_contour E) as [w [-> [Lo Hi]]].
  exists (Fin w). rewrite lit_015, lit_030.
  repeat split; apply Qle_bool_iff; assumption.
Qed.

(** C7.  The estimate is never negative, whatever the image and the draw:
    on the fallback it is at least 0.15; on the contour path [pow] is
    taken to return, for the clamped radius, a float that is not
    negative, and the product with 0.0015 and the rounding keep it so. *)
Theorem weight_nonneg :
  (forall c0 rest, find_contours img = c0 :: rest ->
     exists p, pow (clamped_radius c0 rest) (lit 12 10) = Some p
               /\ (of_int 0 <=? p)%flt = true) ->
  exists w, weight = Some w /\ (of_int 0 <=? w)%flt = true.
Proof.
  intros Hpow. rewrite (of_int_exact 0) in * by (unfold prec; lia).
  destruct (find_contours img) as [| c0 rest] eqn:E.
  - destruct (weight_no_contour E) as [w [-> [Lo _]]].
    exists (Fin w). split; [reflexivity |].
    apply Qle_bool_iff. apply Qle_trans with c015; [qcompute | exact Lo].
  - rewrite (weight_contour c0 rest E).
    destruct (Hpow c0 rest eq_refl) as [p [-> Hp]].
    eexists. split; [reflexivity |].
    rewrite lit_00015.
    apply (round_lower 0 0); [lia | | fcompute].
    apply (mul_lower c00015 0 0); [qcompute | exact Hp | fcompute].
Qed.

(** C10.  The estimate is at least 0.02: at least 0.15 on the fallback,
    and on the contour path, for a finite radius, the floor of 10 keeps an
    accurate [pow] above 15.8, hence the weight above 0.0237, which rounds
    to 0.02 or more. *)
Theorem weight_at_least_002 :
  (forall c0 rest, find_contours img = c0 :: rest ->
     exists r, clamped_radius c0 rest = Fin r
               /\ pow_accurate (pow (Fin r) (lit 12 10)) r) ->
  exists w, weight = Some w /\ (lit 2 100 <=? w)%flt = true.
Proof.
  intros Hpow. rewrite lit_002.
  destruct (find_contours img) as [| c0 rest] eqn:E.
  - destruct (weight_no_contour E) as [w [-> [Lo _]]].
    exists (Fin w). split; [reflexivity |].
    apply Qle_bool_iff. apply Qle_trans with c015; [qcompute | exact Lo].
  - rewrite (weight_contour c0 rest E).
    destruct (Hpow c0 rest eq_refl) as [r [Er [p [Ep [P0 [P1 _]]]]]].
    pose proof (max_ten_ge _ _ Er) as Hr.
    rewrite Er, Ep.
    pose proof (pow_accurate_lower r p Hr P0 P1) as Hp.
    eexists. split; [reflexivity |].
    rewrite lit_00015.
    apply (round_lower weight_floor c002); [lia | | fcompute].
    apply (mul_lower c00015 (158 # 10) weight_floor); [qcompute | | fcompute].
    apply Qle_bool_iff, Hp.
Qed.

End WeightClaims.

Lemma demo_draw_unit : unit_draw demo_draw.
Proof. exists (1 # 2)%Q. split; [reflexivity |]. split; qcompute. Qed.

Lemma fallback_weight_in_range_witness :
  exists w, estimate_weight_from_image no_contours demo_area demo_radius
              demo_pow tt demo_draw = Some w
            /\ (lit 15 100 <=? w)%flt = true /\ (w <=? lit 30 100)%flt = true.
Proof.
  apply (fallback_weight_in_range unit unit no_contours demo_area demo_radius
           demo_pow tt demo_draw demo_draw_unit).
  reflexivity.
Defined.

Lemma weight_nonneg_witness :
  exists w, estimate_weight_from_image one_contour demo_area demo_radius
              demo_pow tt demo_draw = Some w
            /\ (of_int 0 <=? w)%flt = true.
Proof.
  apply (weight_nonneg unit unit one_contour demo_area demo_radius
           demo_pow tt demo_draw demo_draw_unit).
  intros c0 rest _. exists pow_10_12. split; [reflexivity | fcompute].
Defined.

Lemma weight_at_least_002_witness :
  exists w, estimate_weight_from_image one_contour demo_area demo_radius
              demo_pow tt demo_draw = Some w
            /\ (lit 2 100 <=? w)%flt = true.
Proof.
  apply (weight_at_least_002 unit unit one_contour demo_area demo_radius
           demo_pow tt demo_draw demo_draw_unit).
  intros c0 rest E. injection E as <- <-.
  exists 10%Q. split; [fcompute |].
  eexists. split; [fcompute |]. repeat split; qcompute.
Defined.

(** * Further properties of the analysis *)

(** ** The freshness analyzer on every run *)

Module FreshnessBounds.

Lemma percent_quotient (x a : Z) :
  0 < a ->
  (100 * x / a) * a <= 100 * x < (100 * x / a + 1) * a.
Proof.
  intros Ha.
  pose proof (Z.div_mod (100 * x) a ltac:(lia)) as E.
  pose proof (Z.mod_pos_bound (100 * x) a Ha) as B.
  nia.
Qed.

Lemma biased_large (n : Z) : biased n = true -> 29 <= n <= 58.
Proof. unfold biased. lia. Qed.

Lemma truncated_percent_bounds (x a : Z) :
  0 <= x <= a -> 0 < a -> 0 <= truncated_percent x a <= 100.
Proof.
  intros Hx Ha.
  pose proof (percent_quotient x a Ha) as Q.
  assert (0 <= 100 * x / a <= 100) as N by (split; nia).
  destruct (truncated_percent_floor x a Ha) as [E | (E & _ & B)];
    rewrite E; [lia |].
  apply biased_large in B. lia.
Qed.

Lemma truncated_percent_accuracy (x a : Z) :
  0 < a ->
  truncated_percent x a * a <= 100 * x < (truncated_percent x a + 2) * a.
Proof.
  intros Ha.
  pose proof (percent_quotient x a Ha) as Q.
  destruct (truncated_percent_floor x a Ha) as [E | (E & D & _)];
    rewrite E; nia.
Qed.

End FreshnessBounds.

Section FreshnessProperties.

Variables image rng : Type.
Variable lab_pixels : image -> list lab.
Variable kmeans : list lab -> nat -> rng -> list nat * list lab.
Variables (img : image) (g : rng).
Variables (labels : list nat) (centers : list lab).
Variables fresh_cluster spoiled_cluster : nat.

Hypothesis run : kmeans (lab_pixels img) 3%nat g = (labels, centers).
Hypothesis fresh_is_argmax : Np.argmax (map lab_a centers) = Some fresh_cluster.
Hypothesis spoiled_is_argmin : Np.argmin (map lab_L centers) = Some spoiled_cluster.
Hypothesis image_size : Z.of_nat (List.length labels) < 2 ^ 31.

Local Abbreviation fresh_pixels := (Np.count_eq labels fresh_cluster).
Local Abbreviation spoiled_pixels := (Np.count_eq labels spoiled_cluster).
Local Abbreviation apple_pixels := (fresh_pixels + spoiled_pixels).
Local Abbreviation total_pixels := (Z.of_nat (List.length labels)).

Local Abbreviation result :=
  (compute_freshness_from_image lab_pixels kmeans img 3 g).

Lemma result_cases :
  result
  = if 20 * apple_pixels <? total_pixels then Some (60, 30)
    else if apple_pixels =? 0 then None
    else Some (truncated_percent fresh_pixels apple_pixels,
               truncated_percent spoiled_pixels apple_pixels).
Proof.
  exact (compute_freshness_cases image rng lab_pixels kmeans img g labels
           centers fresh_cluster spoiled_cluster run fresh_is_argmax
           spoiled_is_argmin image_size).
Qed.

Lemma result_spec :
  0 < total_pixels ->
  exists f s,
    result = Some (f, s)
    /\ 0 <= f <= 100 /\ 0 <= s <= 100
    /\ ((f = 60 /\ s = 30) \/ f + s = 99 \/ f + s = 100).
Proof.
  intros Ht. rewrite result_cases.
  pose proof (count_eq_bounds labels fresh_cluster) as Bf.
  pose proof (count_eq_bounds labels spoiled_cluster) as Bs.
  destruct (Z.ltb_spec (20 * apple_pixels) total_pixels) as [L | L].
  - exists 60, 30. split; [reflexivity |]. lia.
  - destruct (Z.eqb_spec apple_pixels 0) as [E | E]; [lia |].
    eexists _, _. split; [reflexivity |].
    split; [apply FreshnessBounds.truncated_percent_bounds; lia |].
    split; [apply FreshnessBounds.truncated_percent_bounds; lia |].
    right. apply truncated_percent_sum; lia.
Qed.

Lemma result_fallback :
  20 * apple_pixels < total_pixels -> result = Some (60, 30).
Proof.
  intros L. rewrite result_cases.
  destruct (Z.ltb_spec (20 * apple_pixels) total_pixels); [reflexivity | lia].
Qed.

(** X1. Whenever the clustering returns at least one label, the function
    returns a pair, and both numbers are integers of [[0, 100]], as its
    docstring announces: past the clustering nothing raises, and the two
    divisions are never by zero. *)
Theorem freshness_scores_in_range :
  0 < total_pixels ->
  exists f s,
    compute_freshness_from_image lab_pixels kmeans img 3 g = Some (f, s)
    /\ 0 <= f <= 100 /\ 0 <= s <= 100.
Proof.
  intros Ht. destruct (result_spec Ht) as [f [s [E [Hf [Hs _]]]]].
  exists f, s. repeat split; try exact E; lia.
Qed.

(** X2. The pair (60, 30) is returned exactly when the two selected
    clusters hold less than a twentieth of the pixels: a computed pair
    adds up to 99 or 100 and is never (60, 30), so a caller can tell the
    fallback from a measurement. *)
Theorem fallback_pair_iff :
  0 < total_pixels ->
  (compute_freshness_from_image lab_pixels kmeans img 3 g = Some (60, 30)
   <-> 20 * apple_pixels < total_pixels).
Proof.
  intros Ht. rewrite result_cases.
  pose proof (count_eq_bounds labels fresh_cluster) as Bf.
  pose proof (count_eq_bounds labels spoiled_cluster) as Bs.
  destruct (Z.ltb_spec (20 * apple_pixels) total_pixels) as [L | L].
  - split; [intros _; exact L | reflexivity].
  - split; [| lia].
    destruct (Z.eqb_spec apple_pixels 0) as [E | E]; [discriminate |].
    intros H. injection H as Hf Hs.
    destruct (truncated_percent_sum fresh_pixels spoiled_pixels) as [S | S];
      lia.
Qed.

(** X3. A computed percentage never over-states the share it measures and
    under-states it by less than two points: with [F] the returned
    freshness, [F * apple <= 100 * fresh < (F + 2) * apple], and the same
    for the spoilage ratio. *)
Theorem computed_ratios_accuracy :
  0 < total_pixels -> total_pixels <= 20 * apple_pixels ->
  exists f s,
    compute_freshness_from_image lab_pixels kmeans img 3 g = Some (f, s)
    /\ f * apple_pixels <= 100 * fresh_pixels < (f + 2) * apple_pixels
    /\ s * apple_pixels <= 100 * spoiled_pixels < (s + 2) * apple_pixels.
Proof.
  intros Ht Ha. rewrite result_cases.
  destruct (Z.ltb_spec (20 * apple_pixels) total_pixels) as [L | L]; [lia |].
  destruct (Z.eqb_spec apple_pixels 0) as [E | E]; [lia |].
  pose proof (count_eq_bounds labels fresh_cluster) as Bf.
  pose proof (count_eq_bounds labels spoiled_cluster) as Bs.
  eexists _, _. split; [reflexivity |].
  split; apply FreshnessBounds.truncated_percent_accuracy; lia.
Qed.

(** X4. When the reddest cluster is also the darkest one, its pixels are
    counted as fresh and as spoiled, and every computed result is
    (50, 50), whatever the image. *)
Theorem shared_cluster_halves :
  fresh_cluster = spoiled_cluster ->
  0 < total_pixels -> total_pixels <= 20 * apple_pixels ->
  compute_freshness_from_image lab_pixels kmeans img 3 g = Some (50, 50).
Proof.
  intros E Ht Ha. rewrite result_cases. rewrite <- E in Ha |- *.
  destruct (Z.ltb_spec (20 * (fresh_pixels + fresh_pixels)) total_pixels)
    as [L | L]; [lia |].
  destruct (Z.eqb_spec (fresh_pixels + fresh_pixels) 0) as [Z0 | Z0]; [lia |].
  rewrite truncated_percent_half by lia. reflexivity.
Qed.

End FreshnessProperties.

Lemma freshness_scores_in_range_witness :
  exists f s,
    compute_freshness_from_image (demo_pixels demo_labels)
      (demo_kmeans demo_labels) tt 3 tt = Some (f, s)
    /\ 0 <= f <= 100 /\ 0 <= s <= 100.
Proof.
  apply (freshness_scores_in_range unit unit (demo_pixels demo_labels)
           (demo_kmeans demo_labels) tt tt demo_labels demo_centers 0%nat 1%nat);
    solve [fcompute | qcompute].
Defined.

Lemma fallback_pair_iff_witness :
  compute_freshness_from_image (demo_pixels sparse_labels)
    (demo_kmeans sparse_labels) tt 3 tt = Some (60, 30)
  <-> 20 * (Np.count_eq sparse_labels 0 + Np.count_eq sparse_labels 1)
      < Z.of_nat (List.length sparse_labels).
Proof.
  apply (fallback_pair_iff unit unit (demo_pixels sparse_labels)
           (demo_kmeans sparse_labels) tt tt sparse_labels demo_centers
           0%nat 1%nat);
    solve [fcompute | qcompute].
Defined.

Lemma computed_ratios_accuracy_witness :
  exists f s,
    compute_freshness_from_image (demo_pixels demo_labels)
      (demo_kmeans demo_labels) tt 3 tt = Some (f, s)
    /\ f * (Np.count_eq demo_labels 0 + Np.count_eq demo_labels 1)
       <= 100 * Np.count_eq demo_labels 0
       < (f + 2) * (Np.count_eq demo_labels 0 + Np.count_eq demo_labels 1)
    /\ s * (Np.count_eq demo_labels 0 + Np.count_eq demo_labels 1)
       <= 100 * Np.count_eq demo_labels 1
       < (s + 2) * (Np.count_eq demo_labels 0 + Np.count_eq demo_labels 1).
Proof.
  apply (computed_ratios_accuracy unit unit (demo_pixels demo_labels)
           (demo_kmeans demo_labels) tt tt demo_labels demo_centers 0%nat 1%nat);
    solve [fcompute | qcompute].
Defined.

Lemma shared_cluster_halves_witness :
  compute_freshness_from_image (demo_pixels demo_labels)
    (overlap_kmeans demo_labels) tt 3 tt = Some (50, 50).
Proof.
  apply (shared_cluster_halves unit unit (demo_pixels demo_labels)
           (overlap_kmeans demo_labels) tt tt demo_labels overlap_centers
           0%nat 0%nat);
    solve [fcompute | qcompute].
Defined.

(** ** Labels, dry matter and nutrition along the pipeline *)

Module PipelineFacts.

Lemma float_eqb_eq (x y : float) : float_eqb x y = true -> x = y.
Proof.
  destruct x as [| a | [a1 a2]], y as [| b | [b1 b2]]; cbn; try discriminate.
  - reflexivity.
  - intros H. apply Bool.eqb_prop in H. now subst.
  - intros H. apply andb_true_iff in H as [H1 H2].
    apply Z.eqb_eq in H1. apply Pos.eqb_eq in H2. now subst.
Qed.

Lemma clamp_percent_range (f : Z) : 0 <= clamp_percent f <= 100.
Proof. unfold clamp_percent. lia. Qed.

Lemma clamp_percent_mono (f1 f2 : Z) :
  f1 <= f2 -> clamp_percent f1 <= clamp_percent f2.
Proof. unfold clamp_percent. lia. Qed.

Lemma dry_matter_clamp (f : Z) :
  dry_matter_from_freshness f = dry_matter_from_freshness (clamp_percent f).
Proof.
  unfold dry_matter_from_freshness, clamp_percent.
  replace (Z.max 0 (Z.min 100 (Z.max 0 (Z.min 100 f))))
    with (Z.max 0 (Z.min 100 f)) by lia.
  reflexivity.
Qed.

Lemma pair_table_check_spec {A : Type} (P : A -> A -> bool) (f : Z -> A)
  (k : nat) :
  pair_table_check P f k = true ->
  forall c1 c2, 0 <= c1 -> c1 <= c2 -> c2 < Z.of_nat k -> P (f c1) (f c2) = true.
Proof.
  unfold pair_table_check. intros H c1 c2 H0 H1 H2.
  rewrite forallb_forall in H.
  assert (I : forall c, 0 <= c < Z.of_nat k ->
                In (c, f c) (map (fun c => (c, f c)) (map Z.of_nat (seq 0 k)))).
  { intros c Hc. apply in_map_iff. exists c. split; [reflexivity |].
    apply in_map_iff. exists (Z.to_nat c). split; [lia |].
    apply in_seq. lia. }
  specialize (H (c1, f c1) (I c1 ltac:(lia))).
  rewrite forallb_forall in H.
  specialize (H (c2, f c2) (I c2 ltac:(lia))).
  cbn [fst snd] in H.
  apply orb_true_iff in H as [H | H]; [lia | exact H].
Qed.

Lemma dry_matter_table :
  forallb (fun c => float_eqb (dry_matter_from_freshness c)
                      (lit (dry_matter_tenths c) 10))
    (map Z.of_nat (seq 0 101)) = true.
Proof. vm_compute. reflexivity. Qed.

Lemma pipeline_ranges_table :
  forallb (fun c => pipeline_ranges (nutrition_of_freshness c))
    (map Z.of_nat (seq 0 101)) = true.
Proof. vm_compute. reflexivity. Qed.

Lemma nutrition_ordered_table :
  pair_table_check nutrition_ordered nutrition_of_freshness 101 = true.
Proof. vm_compute. reflexivity. Qed.

Lemma pipeline_ranges_spec (freshness : Z) :
  exists n,
    nutrition_from_dm (dry_matter_from_freshness freshness) = Some n
    /\ pipeline_ranges (Some n) = true.
Proof.
  rewrite dry_matter_clamp.
  pose proof (clamp_percent_range freshness) as R.
  pose proof (Z_range_forallb
                (fun c => pipeline_ranges (nutrition_of_freshness c)) 101
                pipeline_ranges_table
                (clamp_percent freshness) ltac:(lia)) as H.
  cbv beta in H. unfold nutrition_of_freshness in H.
  destruct (nutrition_from_dm (dry_matter_from_freshness (clamp_percent freshness)))
    as [n |]; [| discriminate].
  exists n. split; [reflexivity | exact H].
Qed.

Lemma dry_matter_decimal (freshness : Z) :
  dry_matter_from_freshness freshness
  = lit (dry_matter_tenths (clamp_percent freshness)) 10.
Proof.
  rewrite dry_matter_clamp.
  pose proof (clamp_percent_range freshness) as R.
  apply float_eqb_eq.
  apply (Z_range_forallb
           (fun c => float_eqb (dry_matter_from_freshness c)
                       (lit (dry_matter_tenths c) 10)) 101
           dry_matter_table).
  lia.
Qed.

End PipelineFacts.

(** X5. The risk label never gets milder when the spoilage ratio grows,
    over all integers: values below 0 are "Low", values above 100 are
    "High". *)
Theorem risk_label_monotone (r1 r2 : Z) :
  r1 <= r2 ->
  risk_rank (spoilage_risk_label_from_ratio r1)
  <= risk_rank (spoilage_risk_label_from_ratio r2).
Proof.
  intros H. unfold spoilage_risk_label_from_ratio.
  destruct (Z.leb_spec r1 25), (Z.leb_spec r1 50),
           (Z.leb_spec r2 25), (Z.leb_spec r2 50);
    cbn; lia.
Qed.

Lemma risk_label_monotone_witness :
  risk_rank (spoilage_risk_label_from_ratio (-3))
  <= risk_rank (spoilage_risk_label_from_ratio 140).
Proof. apply (risk_label_monotone (-3) 140). lia. Defined.

(** X6. For every integer freshness the dry matter is the double nearest
    to a one-decimal value, given in tenths by integer arithmetic on the
    clamped freshness [c]: [100 + (8 * c + 5) / 10].  The binary rounding
    of 0.08, of the product and of the sum never moves the result to a
    neighbouring tenth; below 0 the value is 10.0, above 100 it is 18.0. *)
Theorem dry_matter_exact_decimal (freshness : Z) :
  dry_matter_from_freshness freshness
  = lit (dry_matter_tenths (clamp_percent freshness)) 10.
Proof. exact (PipelineFacts.dry_matter_decimal freshness). Qed.

(** X7. Freshness to dry matter to nutrition, as the endpoint composes
    them, never raises and never reaches a clamp of [nutrition_from_dm]:
    water stays in [84, 88], sugar in [9, 11], fiber in [2.1, 2.7] and
    vitamin C in [4.1, 4.6], for every integer freshness. *)
Theorem pipeline_nutrition_ranges (freshness : Z) :
  exists n,
    nutrition_from_dm (dry_matter_from_freshness freshness) = Some n
    /\ between (lit 84 1) (lit 88 1) (water_percent n) = true
    /\ between (lit 9 1) (lit 11 1) (sugar_percent n) = true
    /\ between (lit 21 10) (lit 27 10) (fiber n) = true
    /\ between (lit 41 10) (lit 46 10) (vitamin_c_mg n) = true.
Proof.
  destruct (PipelineFacts.pipeline_ranges_spec freshness) as [n [E H]].
  exists n. split; [exact E |].
  unfold pipeline_ranges in H.
  apply andb_true_iff in H as [H H4].
  apply andb_true_iff in H as [H H3].
  apply andb_true_iff in H as [H1 H2].
  repeat split; assumption.
Qed.

(** X8. Along the same composition a fresher fruit never gets more water or
    vitamin C, nor less sugar or fiber. *)
Theorem pipeline_nutrition_monotone (f1 f2 : Z) :
  f1 <= f2 ->
  exists n1 n2,
    nutrition_from_dm (dry_matter_from_freshness f1) = Some n1
    /\ nutrition_from_dm (dry_matter_from_freshness f2) = Some n2
    /\ (water_percent n2 <=? water_percent n1)%flt = true
    /\ (sugar_percent n1 <=? sugar_percent n2)%flt = true
    /\ (fiber n1 <=? fiber n2)%flt = true
    /\ (vitamin_c_mg n2 <=? vitamin_c_mg n1)%flt = true.
Proof.
  intros L.
  rewrite (PipelineFacts.dry_matter_clamp f1), (PipelineFacts.dry_matter_clamp f2).
  pose proof (PipelineFacts.clamp_percent_range f1) as R1.
  pose proof (PipelineFacts.clamp_percent_range f2) as R2.
  pose proof (PipelineFacts.clamp_percent_mono f1 f2 L) as M.
  pose proof (PipelineFacts.pair_table_check_spec nutrition_ordered
                nutrition_of_freshness 101
                PipelineFacts.nutrition_ordered_table
                (clamp_percent f1) (clamp_percent f2)
                ltac:(lia) M ltac:(lia)) as H.
  unfold nutrition_of_freshness in H.
  destruct (nutrition_from_dm (dry_matter_from_freshness (clamp_percent f1)))
    as [n1 |]; [| discriminate].
  destruct (nutrition_from_dm (dry_matter_from_freshness (clamp_percent f2)))
    as [n2 |]; [| destruct n1; discriminate].
  exists n1, n2. split; [reflexivity |]. split; [reflexivity |].
  unfold nutrition_ordered in H.
  apply andb_true_iff in H as [H H4].
  apply andb_true_iff in H as [H H3].
  apply andb_true_iff in H as [H1 H2].
  repeat split; assumption.
Qed.

Lemma pipeline_nutrition_monotone_witness :
  exists n1 n2,
    nutrition_from_dm (dry_matter_from_freshness 20) = Some n1
    /\ nutrition_from_dm (dry_matter_from_freshness 75) = Some n2
    /\ (water_percent n2 <=? water_percent n1)%flt = true
    /\ (sugar_percent n1 <=? sugar_percent n2)%flt = true
    /\ (fiber n1 <=? fiber n2)%flt = true
    /\ (vitamin_c_mg n2 <=? vitamin_c_mg n1)%flt = true.
Proof. apply (pipeline_nutrition_monotone 20 75). lia. Defined.

(** ** The stub generators *)

Module GeneratorFacts.

Lemma all_some_map {A B : Type} (f : A -> option B) (P : B -> Prop)
  (l : list A) :
  (forall x, In x l -> exists v, f x = Some v /\ P v) ->
  exists r, all_some (map f l) = Some r
            /\ List.length r = List.length l /\ Forall P r.
Proof.
  induction l as [| x t IH]; intros H.
  - exists []. repeat split. constructor.
  - destruct (H x (or_introl eq_refl)) as [v [Ev Pv]].
    destruct IH as [r [Er [Lr Fr]]].
    { intros y Hy. apply H. right. exact Hy. }
    exists (v :: r). cbn [map all_some]. rewrite Ev, Er.
    split; [reflexivity |]. split; [cbn; lia |].
    constructor; assumption.
Qed.

Lemma sensor_value_range (q : Q) :
  (0 <= q)%Q -> (q <= 1)%Q ->
  exists v, sensor_value (Fin q) = Some v /\ 5000 <= v <= 35000.
Proof.
  intros Q0 Q1. unfold sensor_value, uniform_int.
  replace (35000 - 5000) with 30000 by reflexivity.
  rewrite (of_int_exact 5000), (of_int_exact 30000) by (unfold prec; lia).
  destruct (mul_between (inject_Z 30000) q 0 1 0 (inject_Z 30000))
    as [m [Em [M0 M1]]];
    [qcompute | exact Q0 | exact Q1 | fcompute | fcompute |].
  rewrite Em.
  destruct (add_between (inject_Z 5000) m 0 (inject_Z 30000)
              (inject_Z 5000) (inject_Z 35000) M0 M1)
    as [v [Ev [V0 V1]]]; [fcompute | fcompute |].
  rewrite Ev. cbn [Py.int_of_float].
  exists (Py.Qtrunc v). split; [reflexivity |].
  rewrite Qtrunc_nonneg
    by (apply Qle_trans with (inject_Z 5000); [qcompute | exact V0]).
  apply Qfloor_resp_le in V0, V1. rewrite Qfloor_Z in V0, V1. lia.
Qed.

Lemma sensor_values_spec (draws : nat -> float) :
  (forall i, (i < 18)%nat -> unit_draw (draws i)) ->
  exists l, sensor_values_demo draws = Some l
            /\ List.length l = 18%nat
            /\ Forall (fun v => 5000 <= v <= 35000) l.
Proof.
  intros H. unfold sensor_values_demo.
  destruct (all_some_map (fun i => sensor_value (draws i))
              (fun v => 5000 <= v <= 35000) (seq 0 18))
    as [r [Er [Lr Fr]]].
  - intros i Hi. apply in_seq in Hi.
    destruct (H i ltac:(lia)) as [q [Eq [Q0 Q1]]]. rewrite Eq.
    apply sensor_value_range; [exact Q0 |].
    apply Qlt_le_weak, Q1.
  - exists r. split; [exact Er |]. split; [| exact Fr].
    rewrite Lr. apply length_seq.
Qed.

Lemma spectral_base_returns (sin : float -> float) (i : Z) :
  0 <= i < 50 -> exists v, spectral_base sin i = Some v /\ True.
Proof.
  intros H. unfold spectral_base, Py.int_truediv.
  replace (5 =? 0) with false by reflexivity.
  destruct (RN_between 0 10 (inject_Z i / inject_Z 5) 0 10) as [q [Eq _]].
  - apply Qle_shift_div_l; [reflexivity |].
    unfold Qle. cbn. lia.
  - apply Qle_shift_div_r; [reflexivity |].
    unfold Qle. cbn. lia.
  - fcompute.
  - fcompute.
  - rewrite Eq. eexists. split; [reflexivity | exact I].
Qed.

Lemma spectral_curve_length (sin : float -> float) (noise : list float) :
  List.length noise = 50%nat ->
  exists l, spectral_curve_demo sin noise = Some l /\ List.length l = 50%nat.
Proof.
  intros H. unfold spectral_curve_demo.
  destruct (all_some_map (spectral_base sin) (fun _ => True)
              (map Z.of_nat (seq 0 50))) as [base [Eb [Lb _]]].
  - intros i Hi. apply in_map_iff in Hi as [k [<- Hk]].
    apply in_seq in Hk. apply spectral_base_returns. lia.
  - rewrite Eb. eexists. split; [reflexivity |].
    rewrite length_map, length_combine, Lb, length_map, length_seq, H.
    reflexivity.
Qed.

Lemma pesticide_class_spec (i : nat) :
  (i < 4)%nat ->
  exists p, pesticide_class_demo i = Some p /\ In p pesticide_labels.
Proof.
  intros H. unfold pesticide_class_demo.
  destruct (nth_error pesticide_labels i) as [p |] eqn:E.
  - exists p. split; [reflexivity |]. exact (nth_error_In _ _ E).
  - apply nth_error_None in E. cbn in E. lia.
Qed.

End GeneratorFacts.

(** X9. Whatever the eighteen draws of [random.random()], the sensor stub
    returns eighteen integers, each in [[5000, 35000]]. *)
Theorem sensor_values_in_range (draws : nat -> float) :
  (forall i, (i < 18)%nat -> unit_draw (draws i)) ->
  exists l, sensor_values_demo draws = Some l
            /\ List.length l = 18%nat
            /\ Forall (fun v => 5000 <= v <= 35000) l.
Proof. exact (GeneratorFacts.sensor_values_spec draws). Qed.

Lemma sensor_values_in_range_witness :
  exists l, sensor_values_demo (fun _ => demo_draw) = Some l
            /\ List.length l = 18%nat
            /\ Forall (fun v => 5000 <= v <= 35000) l.
Proof.
  apply (sensor_values_in_range (fun _ => demo_draw)).
  intros i _. exists (1 # 2)%Q. split; [reflexivity |]. split; qcompute.
Defined.


(** ** The weight estimator on both paths *)

Module WeightBounds.

Lemma round2_between (x lo hi : Q) :
  (lo <= x)%Q -> (x <= hi)%Q ->
  exists k, round_half_even (lo * 100) <= k <= round_half_even (hi * 100)
            /\ Py.round (Fin x) 2 = lit k 100.
Proof.
  intros L H. exists (round_half_even (x * 100)). split.
  - split; apply rhe_mono; apply Qmult_le_compat_r; try assumption; discriminate.
  - cbn [Py.round]. unfold lit. apply RN_compat.
    replace (10 ^ 2) with 100 by reflexivity.
    rewrite (Qmake_Qdiv _ 100). reflexivity.
Qed.

Lemma pow_accurate_upper (p : Q) :
  (0 < p)%Q ->
  (pow5 p <= (1 + (1 # 1048576)) * pow6 10)%Q -> (p <= 159 # 10)%Q.
Proof.
  intros Hp H.
  apply Qnot_lt_le. intros Hlt.
  pose proof (pow5_mono (159 # 10) p ltac:(lra) ltac:(lra)) as H5.
  assert (E5 : (pow5 (159 # 10) == 101621504799 # 100000)%Q)
    by (vm_compute; reflexivity).
  assert (E6 : (pow6 10 == 1000000)%Q) by (vm_compute; reflexivity).
  rewrite E5 in H5. rewrite E6 in H. lra.
Qed.

Lemma max_ten_small (r : Q) :
  (r <= 10)%Q -> exists r', Py.max (Fin r) (of_int 10) = Fin r' /\ (r' == 10)%Q.
Proof.
  intros H. unfold Py.max, gtb.
  rewrite (of_int_exact 10) by (unfold prec; lia).
  cbn [ltb].
  destruct (Qltb r (inject_Z 10)) eqn:E.
  - exists (inject_Z 10). split; reflexivity.
  - exists r. split; [reflexivity |].
    apply Qltb_false in E. apply Qle_antisym; assumption.
Qed.

Lemma Qle_bool_trans (a b c : Q) :
  Qle_bool a b = true -> Qle_bool b c = true -> Qle_bool a c = true.
Proof.
  rewrite !Qle_bool_iff. apply Qle_trans.
Qed.

Lemma leb_trans (x y z : float) :
  (x <=? y)%flt = true -> (y <=? z)%flt = true -> (x <=? z)%flt = true.
Proof.
  destruct x as [| [|] | a], y as [| [|] | b], z as [| [|] | c]; cbn;
    try discriminate; try reflexivity.
  apply Qle_bool_trans.
Qed.

Lemma max_key_from_spec {A : Type} (key : A -> float) (xs : list A) :
  forall best,
    (forall x, In x (best :: xs) -> exists q, key x = Fin q) ->
    In (Py.max_key_from key best xs) (best :: xs)
    /\ forall x, In x (best :: xs) ->
         (key x <=? key (Py.max_key_from key best xs))%flt = true.
Proof.
  induction xs as [| y t IH]; intros best Hfin.
  - cbn [Py.max_key_from]. split; [left; reflexivity |].
    intros x [<- | []].
    destruct (Hfin best (or_introl eq_refl)) as [q ->].
    cbn [leb]. apply Qle_bool_iff, Qle_refl.
  - cbn [Py.max_key_from].
    destruct (Hfin best (or_introl eq_refl)) as [qb Eb].
    destruct (Hfin y (or_intror (or_introl eq_refl))) as [qy Ey].
    set (b' := if (key y >? key best)%flt then y else best).
    assert (Hb' : (b' = y \/ b' = best)
                  /\ (key best <=? key b')%flt = true
                  /\ (key y <=? key b')%flt = true).
    { subst b'. unfold gtb. rewrite Eb, Ey. cbn [ltb].
      destruct (Qltb qb qy) eqn:E.
      - split; [left; reflexivity |]. rewrite ?Eb, ?Ey. cbn [leb].
        apply Qltb_true in E. split; apply Qle_bool_iff.
        + apply Qlt_le_weak, E.
        + apply Qle_refl.
      - split; [right; reflexivity |]. rewrite ?Eb, ?Ey. cbn [leb].
        apply Qltb_false in E. split; apply Qle_bool_iff.
        + apply Qle_refl.
        + exact E. }
    destruct Hb' as [Hin [Hbest Hy]].
    destruct (IH b') as [I M].
    { intros x [<- | Hx].
      - destruct Hin as [-> | ->]; eauto.
      - apply Hfin. right. right. exact Hx. }
    split.
    + destruct I as [I | I].
      * rewrite <- I. destruct Hin as [-> | ->];
          [right; left; reflexivity | left; reflexivity].
      * right. right. exact I.
    + pose proof (M b' (or_introl eq_refl)) as Mb.
      assert (T : forall z, (key z <=? key b')%flt = true ->
                  (key z <=? key (Py.max_key_from key b' t))%flt = true).
      { intros z Hz. exact (leb_trans _ _ _ Hz Mb). }
      intros x [<- | [<- | Hx]].
      * apply T, Hbest.
      * apply T, Hy.
      * apply M. right. exact Hx.
Qed.

End WeightBounds.

Section WeightProperties.

Variables image contour : Type.
Variable find_contours : image -> list contour.
Variable contourArea : contour -> float.
Variable minEnclosingCircle_radius : contour -> float.
Variable pow : float -> float -> option float.
Variables (img : image) (u : float).

Local Abbreviation weight :=
  (estimate_weight_from_image find_contours contourArea
     minEnclosingCircle_radius pow img u).

(** X11. Without a contour the estimate is one of the sixteen two-decimal
    values 0.15, 0.16, ..., 0.30 (as doubles), whatever the draw. *)
Theorem fallback_weight_two_decimals :
  unit_draw u -> find_contours img = [] ->
  exists k, 15 <= k <= 30 /\ weight = Some (lit k 100).
Proof.
  intros [q [-> [Q0 Q1]]] E.
  unfold estimate_weight_from_image. rewrite E.
  unfold Py.uniform.
  assert (Ed : (lit 30 100 - lit 15 100)%flt = Fin c015) by fcompute.
  rewrite Ed, lit_015.
  destruct (mul_between c015 q 0 1 0 c015) as [m [Em [M0 M1]]];
    [qcompute | exact Q0 | apply Qlt_le_weak, Q1 | fcompute | fcompute |].
  rewrite Em.
  destruct (add_between c015 m 0 c015 c015 c030 M0 M1) as [v [Ev [V0 V1]]];
    [fcompute | fcompute |].
  rewrite Ev.
  destruct (WeightBounds.round2_between v c015 c030 V0 V1) as [k [Hk Ek]].
  exists k. rewrite Ek. split; [| reflexivity].
  replace (round_half_even (c015 * 100)) with 15 in Hk by (vm_compute; reflexivity).
  replace (round_half_even (c030 * 100)) with 30 in Hk by (vm_compute; reflexivity).
  exact Hk.
Qed.

(** X12. Every contour whose enclosing circle has a radius of at most 10
    pixels gives the same estimate, 0.02 kg: the radius is raised to 10, an
    accurate [pow] returns a value between 15.8 and 15.9, and the product
    with 0.0015 rounds to 0.02. *)
Theorem small_contour_weight (c0 : contour) (rest : list contour) (r : Q) :
  find_contours img = c0 :: rest ->
  minEnclosingCircle_radius (Py.max_key_from contourArea c0 rest) = Fin r ->
  (r <= 10)%Q ->
  pow_accurate (pow (Py.max (Fin r) (of_int 10)) (lit 12 10)) 10 ->
  weight = Some (lit 2 100).
Proof.
  intros E Er Hr [p [Ep [P0 [P1 P2]]]].
  unfold estimate_weight_from_image. rewrite E. cbv zeta.
  rewrite Er, Ep.
  pose proof (pow_accurate_lower 10 p ltac:(apply Qle_refl) P0 P1) as Lo.
  pose proof (WeightBounds.pow_accurate_upper p P0 P2) as Hi.
  rewrite lit_00015.
  destruct (mul_between c00015 p (158 # 10) (159 # 10)
              weight_floor weight_ceiling)
    as [m [Em [M0 M1]]];
    [qcompute | exact Lo | exact Hi | fcompute | fcompute |].
  rewrite Em.
  destruct (WeightBounds.round2_between m _ _ M0 M1) as [k [Hk Ek]].
  rewrite Ek.
  replace (round_half_even (weight_floor * 100)) with 2 in Hk
    by (vm_compute; reflexivity).
  replace (round_half_even (weight_ceiling * 100))
    with 2 in Hk by (vm_compute; reflexivity).
  replace k with 2 by lia. reflexivity.
Qed.

(** X13. With contours of finite area, the estimate is computed from the
    enclosing circle of a contour of the list whose area no other contour
    exceeds. *)
Theorem weight_from_largest_contour (c0 : contour) (rest : list contour) :
  find_contours img = c0 :: rest ->
  (forall c, In c (c0 :: rest) -> exists a, contourArea c = Fin a) ->
  exists c,
    In c (find_contours img)
    /\ (forall c', In c' (find_contours img) ->
          (contourArea c' <=? contourArea c)%flt = true)
    /\ weight
       = match pow (Py.max (minEnclosingCircle_radius c) (of_int 10))
                   (lit 12 10) with
         | Some p => Some (Py.round (lit 15 10000 * p)%flt 2)
         | None => None
         end.
Proof.
  intros E Hfin.
  destruct (WeightBounds.max_key_from_spec contourArea rest c0 Hfin) as [I M].
  exists (Py.max_key_from contourArea c0 rest).
  unfold estimate_weight_from_image. rewrite E.
  split; [exact I |]. split; [exact M | reflexivity].
Qed.

End WeightProperties.

Lemma fallback_weight_two_decimals_witness :
  exists k, 15 <= k <= 30
            /\ estimate_weight_from_image no_contours demo_area demo_radius
                 demo_pow tt demo_draw = Some (lit k 100).
Proof.
  apply (fallback_weight_two_decimals unit unit no_contours demo_area
           demo_radius demo_pow tt demo_draw).
  - exists (1 # 2)%Q. split; [reflexivity |]. split; qcompute.
  - reflexivity.
Defined.

Lemma small_contour_weight_witness :
  estimate_weight_from_image one_contour demo_area demo_radius demo_pow tt
    demo_draw = Some (lit 2 100).
Proof.
  apply (small_contour_weight unit unit one_contour demo_area demo_radius
           demo_pow tt demo_draw tt [] 4%Q).
  - reflexivity.
  - reflexivity.
  - qcompute.
  - eexists. split; [fcompute |]. repeat split; qcompute.
Defined.

Lemma weight_from_largest_contour_witness :
  exists c,
    In c (two_contours tt)
    /\ (forall c', In c' (two_contours tt) ->
          (two_area c' <=? two_area c)%flt = true)
    /\ estimate_weight_from_image two_contours two_area two_radius two_pow
         tt demo_draw
       = match two_pow (Py.max (two_radius c) (of_int 10)) (lit 12 10) with
         | Some p => Some (Py.round (lit 15 10000 * p)%flt 2)
         | None => None
         end.
Proof.
  apply (weight_from_largest_contour unit bool two_contours two_area
           two_radius two_pow tt demo_draw false [true]).
  - reflexivity.
  - intros c _. destruct c; eexists; reflexivity.
Defined.

(** ** Login *)

Module LoginFacts.

Lemma before_at_spec (s : str) :
  ~ In at_sign (before_at s)
  /\ exists rest, s = before_at s ++ rest
                  /\ (rest = [] \/ exists t, rest = at_sign :: t).
Proof.
  induction s as [| c t [IH1 [rest [IH2 IH3]]]].
  - split; [intros [] |]. exists []. split; [reflexivity | left; reflexivity].
  - cbn [before_at]. destruct (N.eqb_spec c at_sign) as [E | E].
    + split; [intros [] |]. exists (c :: t). split; [reflexivity |].
      right. exists t. now rewrite E.
    + split.
      * intros [H | H]; [congruence | exact (IH1 H)].
      * exists rest. split; [| exact IH3].
        cbn [app]. now rewrite <- IH2.
Qed.

Lemma before_at_no_at (s : str) : ~ In at_sign s -> before_at s = s.
Proof.
  induction s as [| c t IH]; intros H; [reflexivity |].
  cbn [before_at]. destruct (N.eqb_spec c at_sign) as [E | E].
  - exfalso. apply H. left. exact E.
  - f_equal. apply IH. intros I. apply H. right. exact I.
Qed.

Lemma parse_decimal_app (s : str) (c : N) :
  parse_decimal (s ++ [c]) = 10 * parse_decimal s + (Z.of_N c - 48).
Proof.
  unfold parse_decimal. rewrite fold_left_app. reflexivity.
Qed.

Lemma digit_char (d : Z) :
  0 <= d < 10 -> is_digit (Z.to_N (48 + d)) /\ Z.of_N (Z.to_N (48 + d)) - 48 = d.
Proof.
  intros H. unfold is_digit. split; lia.
Qed.

(** [digits_fuel] with enough fuel writes [n] and only digits. *)
Lemma digits_fuel_spec (fuel : nat) :
  forall n, 0 <= n < 2 ^ Z.of_nat fuel ->
    parse_decimal (digits_fuel fuel n) = n
    /\ Forall is_digit (digits_fuel fuel n).
Proof.
  induction fuel as [| k IH]; intros n Hn.
  - cbn in Hn. assert (n = 0) by lia. subst. cbn. split; constructor.
  - cbn [digits_fuel]. destruct (Z.ltb_spec n 10) as [L | L].
    + destruct (digit_char n ltac:(lia)) as [D1 D2].
      split; [| constructor; [exact D1 | constructor]].
      unfold parse_decimal. cbn [fold_left]. lia.
    + assert (B : 0 <= n / 10 < 2 ^ Z.of_nat k).
      { rewrite Nat2Z.inj_succ, Z.pow_succ_r in Hn by lia.
        split; [apply Z.div_pos; lia |].
        apply Z.div_lt_upper_bound; lia. }
      destruct (IH (n / 10) B) as [P F].
      pose proof (Z.mod_pos_bound n 10 ltac:(lia)) as M.
      destruct (digit_char (n mod 10) M) as [D1 D2].
      split.
      * rewrite parse_decimal_app, P, D2.
        pose proof (Z.div_mod n 10 ltac:(lia)). lia.
      * apply Forall_app. split; [exact F | constructor; [exact D1 | constructor]].
Qed.

(** The number of digits written. *)
Lemma digits_fuel_length (k : nat) :
  forall fuel n, (k < fuel)%nat ->
    10 ^ Z.of_nat k <= n < 10 ^ Z.of_nat (S k) ->
    List.length (digits_fuel fuel n) = S k.
Proof.
  induction k as [| k IH]; intros fuel n Hf Hn;
    (destruct fuel as [| fuel]; [lia |]); cbn [digits_fuel].
  - change (10 ^ Z.of_nat 1) with 10 in Hn.
    destruct (Z.ltb_spec n 10); [reflexivity | lia].
  - rewrite !Nat2Z.inj_succ, !Z.pow_succ_r in Hn by lia.
    assert (P : 0 < 10 ^ Z.of_nat k) by (apply Z.pow_pos_nonneg; lia).
    destruct (Z.ltb_spec n 10); [lia |].
    rewrite length_app, (IH fuel (n / 10)).
    + cbn. lia.
    + lia.
    + rewrite Nat2Z.inj_succ, Z.pow_succ_r by lia. split.
      * apply Z.div_le_lower_bound; lia.
      * apply Z.div_lt_upper_bound; lia.
Qed.

Lemma decimal_nonneg (n : Z) :
  0 <= n -> decimal n = digits_fuel (S (Z.to_nat (Z.log2 n))) n.
Proof.
  intros H. unfold decimal. destruct (Z.ltb_spec n 0); [lia | reflexivity].
Qed.

Lemma decimal_spec (n : Z) :
  0 <= n -> parse_decimal (decimal n) = n /\ Forall is_digit (decimal n).
Proof.
  intros H. rewrite (decimal_nonneg n H).
  apply digits_fuel_spec.
  pose proof (Z.log2_nonneg n) as L.
  rewrite Nat2Z.inj_succ, Z2Nat.id by exact L.
  destruct (Z.eq_dec n 0) as [-> | N]; [cbn; lia |].
  pose proof (Z.log2_spec n ltac:(lia)). lia.
Qed.

Lemma decimal_six_digits (n : Z) :
  100000 <= n <= 999999 -> List.length (decimal n) = 6%nat.
Proof.
  intros H. rewrite (decimal_nonneg n) by lia.
  apply (digits_fuel_length 5).
  - assert (16 <= Z.log2 n) by (apply Z.log2_le_pow2; lia). lia.
  - change (10 ^ Z.of_nat 5) with 100000.
    change (10 ^ Z.of_nat 6) with 1000000. lia.
Qed.

End LoginFacts.

(** X14. Login fails exactly on a password of fewer than six characters.
    Otherwise the response echoes the e-mail address, and the user name is
    what stands before the first "@" of the address: it holds no "@", and
    the address is the name followed by nothing or by "@..."; an address
    without "@" is the name itself. *)
Theorem login_user_name (email password : str) (n : Z) :
  match login email password n with
  | None => (List.length password < 6)%nat
  | Some r =>
      (6 <= List.length password)%nat
      /\ user_email r = email
      /\ ~ In at_sign (user_name r)
      /\ (exists rest, email = user_name r ++ rest
                       /\ (rest = [] \/ exists t, rest = at_sign :: t))
      /\ (~ In at_sign email -> user_name r = email)
  end.
Proof.
  unfold login.
  destruct (Z.ltb_spec (Z.of_nat (List.length password)) 6) as [L | L]; [lia |].
  cbn [user_email user_name].
  destruct (LoginFacts.before_at_spec email) as [H1 H2].
  split; [lia |]. split; [reflexivity |]. split; [exact H1 |].
  split; [exact H2 |]. apply LoginFacts.before_at_no_at.
Qed.

(** X15. For an accepted password and a draw of [randint(100000, 999999)],
    the token is "demo_token_" followed by exactly six decimal digits, and
    these digits read back as the number drawn. *)
Theorem login_token_shape (email password : str) (n : Z) :
  (6 <= List.length password)%nat -> 100000 <= n <= 999999 ->
  exists r d,
    login email password n = Some r
    /\ token r = text "demo_token_" ++ d
    /\ List.length d = 6%nat
    /\ Forall is_digit d
    /\ parse_decimal d = n
    /\ List.length (token r) = 17%nat.
Proof.
  intros Hp Hn. unfold login.
  destruct (Z.ltb_spec (Z.of_nat (List.length password)) 6) as [L | L]; [lia |].
  destruct (LoginFacts.decimal_spec n ltac:(lia)) as [P F].
  pose proof (LoginFacts.decimal_six_digits n Hn) as S.
  eexists. exists (decimal n). split; [reflexivity |].
  cbn [token]. split; [reflexivity |]. split; [exact S |].
  split; [exact F |]. split; [exact P |].
  rewrite length_app, S. reflexivity.
Qed.

Lemma login_token_shape_witness :
  exists r d,
    login (text "ana@example.org") (text "secret1") 482913 = Some r
    /\ token r = text "demo_token_" ++ d
    /\ List.length d = 6%nat
    /\ Forall is_digit d
    /\ parse_decimal d = 482913
    /\ List.length (token r) = 17%nat.
Proof.
  apply (login_token_shape (text "ana@example.org") (text "secret1") 482913).
  - cbn. lia.
  - lia.
Defined.

(** ** The analysis endpoint *)

Section AnalysisProperties.

Variables bytes image rng contour : Type.
Variable decode_rgb : bytes -> option image.
Variable lab_pixels : image -> list lab.
Variable kmeans : list lab -> nat -> rng -> list nat * list lab.
Variable find_contours : image -> list contour.
Variable contourArea : contour -> float.
Variable minEnclosingCircle_radius : contour -> float.
Variable pow : float -> float -> option float.
Variable sin : float -> float.
Variables (contents : bytes) (rnd : Randomness rng).
Variables (img : image) (labels : list nat) (centers : list lab).
Variables fresh_cluster spoiled_cluster : nat.

(** The upload decodes, and the clustering returns at least one label. *)
Hypothesis decoded : decode_rgb contents = Some img.
Hypothesis run :
  kmeans (lab_pixels img) 3%nat (kmeans_seed rnd) = (labels, centers).
Hypothesis fresh_is_argmax : Np.argmax (map lab_a centers) = Some fresh_cluster.
Hypothesis spoiled_is_argmin : Np.argmin (map lab_L centers) = Some spoiled_cluster.
Hypothesis image_size : Z.of_nat (List.length labels) < 2 ^ 31.
Hypothesis nonempty : 0 < Z.of_nat (List.length labels).

(** [pow] returns on the clamped radius of the largest contour. *)
Hypothesis pow_returns :
  forall c0 rest, find_contours img = c0 :: rest ->
    exists p,
      pow (Py.max (minEnclosingCircle_radius
                     (Py.max_key_from contourArea c0 rest)) (of_int 10))
          (lit 12 10) = Some p.

(** What the generators draw. *)
Hypothesis weight_unit : unit_draw (weight_draw rnd).
Hypothesis choice_range : (choice_index rnd < 4)%nat.
Hypothesis noise_size : List.length (normal_noise rnd) = 50%nat.
Hypothesis sensor_unit : forall i, (i < 18)%nat -> unit_draw (sensor_draws rnd i).

Local Abbreviation fresh_pixels := (Np.count_eq labels fresh_cluster).
Local Abbreviation spoiled_pixels := (Np.count_eq labels spoiled_cluster).
Local Abbreviation apple_pixels := (fresh_pixels + spoiled_pixels).
Local Abbreviation total_pixels := (Z.of_nat (List.length labels)).

Local Abbreviation response :=
  (analyze_apple decode_rgb lab_pixels kmeans find_contours contourArea
     minEnclosingCircle_radius pow sin contents rnd).

Lemma weight_returns :
  exists w,
    estimate_weight_from_image find_contours contourArea
      minEnclosingCircle_radius pow img (weight_draw rnd) = Some w.
Proof.
  destruct (find_contours img) as [| c0 rest] eqn:E.
  - destruct (weight_no_contour image contour find_contours contourArea
                minEnclosingCircle_radius pow img (weight_draw rnd)
                weight_unit E) as [w [Ew _]].
    exists (Fin w). exact Ew.
  - rewrite (weight_contour image contour find_contours contourArea
               minEnclosingCircle_radius pow img (weight_draw rnd) c0 rest E).
    destruct (pow_returns c0 rest eq_refl) as [p ->].
    eexists. reflexivity.
Qed.

(** The response, assembled from what each helper returns. *)
Lemma response_components :
  exists f s w p n sp sv,
    compute_freshness_from_image lab_pixels kmeans img 3 (kmeans_seed rnd)
      = Some (f, s)
    /\ (0 <= f <= 100 /\ 0 <= s <= 100
        /\ ((f = 60 /\ s = 30) \/ f + s = 99 \/ f + s = 100))
    /\ In p pesticide_labels
    /\ nutrition_from_dm (dry_matter_from_freshness f) = Some n
    /\ pipeline_ranges (Some n) = true
    /\ List.length sp = 50%nat
    /\ (List.length sv = 18%nat /\ Forall (fun v => 5000 <= v <= 35000) sv)
    /\ response
       = Some {| freshness_score := f;
                 dry_matter_percent := dry_matter_from_freshness f;
                 spoilage_risk := spoilage_risk_label_from_ratio s;
                 pesticide_class := p;
                 estimated_weight_kg := w;
                 nutrition := n;
                 spectral_prediction_graph_data := sp;
                 sensor_emulation_values := sv |}.
Proof.
  destruct (result_spec image rng lab_pixels kmeans img (kmeans_seed rnd)
              labels centers fresh_cluster spoiled_cluster run fresh_is_argmax
              spoiled_is_argmin image_size nonempty)
    as [f [s [Ef [Hf [Hs Hsum]]]]].
  destruct weight_returns as [w Ew].
  destruct (GeneratorFacts.pesticide_class_spec _ choice_range) as [p [Ep Hp]].
  destruct (PipelineFacts.pipeline_ranges_spec f) as [n [En Hn]].
  destruct (GeneratorFacts.spectral_curve_length sin _ noise_size)
    as [sp [Esp Hsp]].
  destruct (GeneratorFacts.sensor_values_spec _ sensor_unit)
    as [sv [Esv [Lsv Fsv]]].
  exists f, s, w, p, n, sp, sv.
  split; [exact Ef |]. split; [auto |]. split; [exact Hp |].
  split; [exact En |]. split; [exact Hn |]. split; [exact Hsp |].
  split; [auto |].
  unfold analyze_apple.
  rewrite decoded, Ef. cbv zeta. rewrite Ew, Ep, En, Esp, Esv.
  reflexivity.
Qed.

Lemma risk_label_cases (s : Z) :
  In (spoilage_risk_label_from_ratio s) ["Low"; "Medium"; "High"]%string.
Proof.
  unfold spoilage_risk_label_from_ratio.
  destruct (s <=? 25); [left; reflexivity |].
  destruct (s <=? 50); [right; left; reflexivity | right; right; left; reflexivity].
Qed.

(** X16. For an upload that decodes, whenever the clustering returns at
    least one label, [pow] returns on the clamped radius and the
    generators draw within their ranges, the endpoint returns a response
    in which: the freshness score is in
    [[0, 100]]; the dry matter is the one-decimal value computed from that
    score, between 10.0 and 18.0; the risk is one of the three labels and
    the pesticide class one of the four; the nutrition values are in the
    ranges of the pipeline; the spectral curve has 50 points and the
    sensor list 18 integers of [[5000, 35000]]. *)
Theorem analyze_apple_response :
  exists res,
    analyze_apple decode_rgb lab_pixels kmeans find_contours contourArea
      minEnclosingCircle_radius pow sin contents rnd = Some res
    /\ 0 <= freshness_score res <= 100
    /\ dry_matter_percent res
       = lit (dry_matter_tenths (freshness_score res)) 10
    /\ 100 <= dry_matter_tenths (freshness_score res) <= 180
    /\ In (spoilage_risk res) ["Low"; "Medium"; "High"]%string
    /\ In (pesticide_class res) pesticide_labels
    /\ pipeline_ranges (Some (nutrition res)) = true
    /\ List.length (spectral_prediction_graph_data res) = 50%nat
    /\ List.length (sensor_emulation_values res) = 18%nat
    /\ Forall (fun v => 5000 <= v <= 35000) (sensor_emulation_values res).
Proof.
  destruct response_components
    as (f & s & w & p & n & sp & sv & _ & (Hf & _ & _) & Hp & _ & Hn & Hsp
        & (Lsv & Fsv) & E).
  eexists. split; [exact E |].
  cbn [freshness_score dry_matter_percent spoilage_risk pesticide_class
       nutrition spectral_prediction_graph_data sensor_emulation_values].
  split; [exact Hf |].
  split.
  { rewrite PipelineFacts.dry_matter_decimal. unfold clamp_percent.
    replace (Z.max 0 (Z.min 100 f)) with f by lia. reflexivity. }
  split.
  { unfold dry_matter_tenths.
    pose proof (Z.div_mod (8 * f + 5) 10 ltac:(lia)) as D.
    pose proof (Z.mod_pos_bound (8 * f + 5) 10 ltac:(lia)) as M.
    lia. }
  split; [apply risk_label_cases |].
  repeat split; assumption.
Qed.

(** X17. When the two selected clusters hold less than a twentieth of the
    pixels, the response reports the fallback throughout: freshness 60, dry
    matter 14.8, risk "Medium", and the nutrition 85.6 / 10.2 / 2.5 / 4.5
    derived from them. *)
Theorem analyze_apple_fallback_response :
  20 * apple_pixels < total_pixels ->
  exists res,
    analyze_apple decode_rgb lab_pixels kmeans find_contours contourArea
      minEnclosingCircle_radius pow sin contents rnd = Some res
    /\ freshness_score res = 60
    /\ dry_matter_percent res = lit 148 10
    /\ spoilage_risk res = "Medium"%string
    /\ nutrition res = fallback_nutrition.
Proof.
  intros L.
  destruct response_components
    as (f & s & w & p & n & sp & sv & Ef & _ & _ & En & _ & _ & _ & E).
  rewrite (result_fallback image rng lab_pixels kmeans img (kmeans_seed rnd)
             labels centers fresh_cluster spoiled_cluster run fresh_is_argmax
             spoiled_is_argmin image_size L) in Ef.
  injection Ef as <- <-.
  eexists. split; [exact E |].
  cbn [freshness_score dry_matter_percent spoilage_risk nutrition].
  split; [reflexivity |].
  split; [fcompute |].
  split; [reflexivity |].
  assert (T : nutrition_from_dm (dry_matter_from_freshness 60)
              = Some fallback_nutrition) by fcompute.
  rewrite T in En. injection En as <-. reflexivity.
Qed.

(** X18. In every response the label and the score agree: "Low" comes with
    a freshness of at least 74, "High" with at most 49, and "Medium" with
    a freshness between 49 and 74 (the fallback, 60, included). *)
Theorem analyze_apple_risk_vs_freshness :
  exists res,
    analyze_apple decode_rgb lab_pixels kmeans find_contours contourArea
      minEnclosingCircle_radius pow sin contents rnd = Some res
    /\ (spoilage_risk res = "Low"%string -> 74 <= freshness_score res)
    /\ (spoilage_risk res = "Medium"%string -> 49 <= freshness_score res <= 74)
    /\ (spoilage_risk res = "High"%string -> freshness_score res <= 49).
Proof.
  destruct response_components
    as (f & s & w & p & n & sp & sv & _ & (Hf & Hs & Hsum) & _ & _ & _ & _
        & _ & E).
  eexists. split; [exact E |].
  cbn [freshness_score spoilage_risk].
  unfold spoilage_risk_label_from_ratio.
  destruct (Z.leb_spec s 25); [| destruct (Z.leb_spec s 50)];
    (split; [| split]); intros Hl; try discriminate Hl; lia.
Qed.

End AnalysisProperties.

Lemma analyze_apple_response_witness :
  exists res,
    analyze_apple demo_decode (demo_pixels demo_labels)
      (demo_kmeans demo_labels) one_contour demo_area demo_radius demo_pow
      demo_sin tt demo_randomness = Some res
    /\ 0 <= freshness_score res <= 100
    /\ dry_matter_percent res
       = lit (dry_matter_tenths (freshness_score res)) 10
    /\ 100 <= dry_matter_tenths (freshness_score res) <= 180
    /\ In (spoilage_risk res) ["Low"; "Medium"; "High"]%string
    /\ In (pesticide_class res) pesticide_labels
    /\ pipeline_ranges (Some (nutrition res)) = true
    /\ List.length (spectral_prediction_graph_data res) = 50%nat
    /\ List.length (sensor_emulation_values res) = 18%nat
    /\ Forall (fun v => 5000 <= v <= 35000) (sensor_emulation_values res).
Proof.
  apply (analyze_apple_response unit unit unit unit demo_decode
           (demo_pixels demo_labels) (demo_kmeans demo_labels) one_contour
           demo_area demo_radius demo_pow demo_sin tt demo_randomness
           tt demo_labels demo_centers 0%nat 1%nat).
  - reflexivity.
  - reflexivity.
  - fcompute.
  - fcompute.
  - fcompute.
  - fcompute.
  - intros c0 rest _. exists pow_10_12. reflexivity.
  - exists (1 # 2)%Q. split; [reflexivity |]. split; qcompute.
  - cbn. lia.
  - reflexivity.
  - intros i _. exists (1 # 2)%Q. split; [reflexivity |]. split; qcompute.
Defined.

Lemma analyze_apple_fallback_response_witness :
  exists res,
    analyze_apple demo_decode (demo_pixels sparse_labels)
      (demo_kmeans sparse_labels) no_contours demo_area demo_radius demo_pow
      demo_sin tt demo_randomness = Some res
    /\ freshness_score res = 60
    /\ dry_matter_percent res = lit 148 10
    /\ spoilage_risk res = "Medium"%string
    /\ nutrition res = fallback_nutrition.
Proof.
  apply (analyze_apple_fallback_response unit unit unit unit demo_decode
           (demo_pixels sparse_labels) (demo_kmeans sparse_labels) no_contours
           demo_area demo_radius demo_pow demo_sin tt demo_randomness
           tt sparse_labels demo_centers 0%nat 1%nat).
  - reflexivity.
  - reflexivity.
  - fcompute.
  - fcompute.
  - fcompute.
  - fcompute.
  - intros c0 rest E. discriminate E.
  - exists (1 # 2)%Q. split; [reflexivity |]. split; qcompute.
  - cbn. lia.
  - reflexivity.
  - intros i _. exists (1 # 2)%Q. split; [reflexivity |]. split; qcompute.
  - fcompute.
Defined.

Lemma analyze_apple_risk_vs_freshness_witness :
  exists res,
    analyze_apple demo_decode (demo_pixels demo_labels)
      (demo_kmeans demo_labels) one_contour demo_area demo_radius demo_pow
      demo_sin tt demo_randomness = Some res
    /\ (spoilage_risk res = "Low"%string -> 74 <= freshness_score res)
    /\ (spoilage_risk res = "Medium"%string -> 49 <= freshness_score res <= 74)
    /\ (spoilage_risk res = "High"%string -> freshness_score res <= 49).
Proof.
  apply (analyze_apple_risk_vs_freshness unit unit unit unit demo_decode
           (demo_pixels demo_labels) (demo_kmeans demo_labels) one_contour
           demo_area demo_radius demo_pow demo_sin tt demo_randomness
           tt demo_labels demo_centers 0%nat 1%nat).
  - reflexivity.
  - reflexivity.
  - fcompute.
  - fcompute.
  - fcompute.
  - fcompute.
  - intros c0 rest _. exists pow_10_12. reflexivity.
  - exists (1 # 2)%Q. split; [reflexivity |]. split; qcompute.
  - cbn. lia.
  - reflexivity.
  - intros i _. exists (1 # 2)%Q. split; [reflexivity |]. split; qcompute.
Defined.
